(** * Savannah: a predator-prey simulation (savannah.py)

    A shallow embedding of the simulation core of [savannah.py]: the
    age-speed curve, the movement geometry, the patches with their regrowth
    calendar, the animals with their per-tick behaviour, and the model that
    drives one tick.

    Python floats are idealised as real numbers ([R]); the random module is
    replaced by explicit random inputs; the mesa objects the program uses
    ([ContinuousSpace], [RandomActivation]) are modelled by what the program
    calls on them.  Exceptions are values of [Exn]. *)

From Stdlib Require Import Reals Lra Lia ZArith List Bool.
From stdpp Require Import gmap.

Open Scope R_scope.

(** ** Exceptions and the state-and-error monad *)

Inductive Exn : Type :=
  | ZeroDivisionError          (* float division by zero *)
  | PointOutOfBounds           (* mesa: "Point out of bounds, and space non-toroidal." *)
  | AgentNotInSpace            (* mesa: "Agent does not exist in the space" *)
  | KeyError                   (* mesa: removing an agent the schedule does not hold *)
  | ValueError                 (* [random.randrange] of an empty range *)
  | AttributeError.            (* an attribute or an object that is not there *)

Inductive Result (A : Type) : Type :=
  | Ok (a : A)
  | Raise (e : Exn).
Arguments Ok {A} a.
Arguments Raise {A} e.

(** ** Comparisons of floats, as booleans *)

Definition Rltb (x y : R) : bool := if Rlt_dec x y then true else false.
Definition Rleb (x y : R) : bool := if Rle_dec x y then true else false.
Definition Reqb (x y : R) : bool := if Req_dec_T x y then true else false.

Notation "x <? y" := (Rltb x y) : R_scope.
Notation "x >? y" := (Rltb y x) : R_scope.
Notation "x <=? y" := (Rleb x y) : R_scope.
Notation "x >=? y" := (Rleb y x) : R_scope.
Notation "x =? y" := (Reqb x y) : R_scope.
Notation "x !=? y" := (negb (Reqb x y)) (at level 70) : R_scope.

(** ** Module-level constants (lines 19-28) *)

Definition ROCKY_AREAS : R := 0.02.
Definition AGE_T : R := 0.005.
Definition GRASS_REGROW : R := 2.
Definition BABIES_PER_TIGER_PREGS : R := 2.
Definition BABIES_PER_PREY_PREGS : R := 3.5.
Definition FOOD_PER_TICK : R := 0.3.
Definition LIFESPAN_TIGER : R := 17.
Definition LIFESPAN_PREY : R := 9.
Definition RADIUS_PREY : R := 2.
Definition RADIUS_TIGER : R := 9.

(** ** Pure functions *)

(** [get_speed] (lines 35-48).  The division [cur_age / max_age] raises
    [ZeroDivisionError] when [max_age] is zero. *)
Definition get_speed (cur_age max_age max_speed : R) : Result R :=
  if max_age =? 0 then Raise ZeroDivisionError else
  let x := cur_age / max_age in
  let x := if x >? 1 then 1 else x in
  let y := if x <? 0.5
           then - (2 * x - 1) ^ 4 + 1
           else (let x := x - 0.5 in
                 5.1 * x ^ 3 - 6.4 * x ^ 2 + 0.6 * x + 1) in
  let y := if y <=? 0.1 then 0.1 else y in
  Ok (y * max_speed).

(** [norm_distro] (lines 51-53); [noise] is the value drawn by
    [random.normalvariate(0, 0.2)]. *)
Definition norm_distro (noise center : R) : R := (noise + 1) * center.

Definition Pos : Type := (R * R)%type.

(** [get_distance] (lines 66-70). *)
Definition get_distance (pos1 pos2 : Pos) : R :=
  let '(x_1, y_1) := pos1 in
  let '(x_2, y_2) := pos2 in
  sqrt ((y_2 - y_1) ^ 2 + (x_2 - x_1) ^ 2).

(** The factor [(-1 if d < 0 else 1)]. *)
Definition sign_of (d : R) : R := if d <? 0 then -1 else 1.

(** [calc_move] (lines 307-325): the new position and the two deltas. *)
Definition calc_move (x_1 y_1 x_2 y_2 distance : R) : Pos * R * R :=
  let delta_y := y_2 - y_1 in
  let delta_x := x_2 - x_1 in
  let '(delta_x, delta_y) :=
    if delta_y !=? 0
    then
      let ratio := delta_x / delta_y in
      let delta_y' := sqrt (distance ^ 2 / (ratio ^ 2 + 1)) * sign_of delta_y in
      let delta_x' := Rabs (ratio * delta_y') * sign_of delta_x in
      (delta_x', delta_y')
    else (distance * sign_of delta_x, 0) in
  if (Rabs delta_x >? Rabs (x_2 - x_1)) || (Rabs delta_y >? Rabs (y_2 - y_1))
  then ((x_2, y_2), delta_x, delta_y)
  else ((x_1 + delta_x, y_1 + delta_y), delta_x, delta_y).

(** The new position alone: the first component of what [calc_move]
    returns, which is the one [Animal.step] hands to the space. *)
Definition advance (pos target_pos : Pos) (max_distance : R) : Pos :=
  fst (fst (calc_move (fst pos) (snd pos) (fst target_pos) (snd target_pos)
                      max_distance)).

(** [int(round(x, 0))] (line 192): rounding to the nearest integer, ties to
    the even one. *)
Definition Rfloor (x : R) : Z := (up x - 1)%Z.

Definition py_round (x : R) : Z :=
  let f := Rfloor x in
  let r := x - IZR f in
  if r <? 0.5 then f
  else if r >? 0.5 then (f + 1)%Z
  else if Z.even f then f else (f + 1)%Z.

(** [random.shuffle]: the list is rebuilt by drawing its elements one by one,
    [choices] giving the index drawn at each round; every result is a
    permutation of the list. *)
Fixpoint remove_nth {A} (i : nat) (l : list A) : list A :=
  match l, i with
  | [], _ => []
  | _ :: l', O => l'
  | x :: l', S i' => x :: remove_nth i' l'
  end.

Fixpoint shuffle {A} (choices : list nat) (l : list A) : list A :=
  match choices with
  | [] => l
  | c :: cs =>
      let i := (c mod length l)%nat in
      match nth_error l i with
      | Some x => x :: shuffle cs (remove_nth i l)
      | None => l
      end
  end.

(** ** Data model *)

Definition uid : Type := nat.

(** The [type] attribute: ['Grass'] or ['Rock'] for a [Patch], ['Prey'] or
    ['Tiger'] for an [Animal]. *)
Inductive Terrain : Type := Grass | Rock.
Inductive Species : Type := Prey | Tiger.
Inductive TypeTag : Type :=
  | OfPatch (t : Terrain)
  | OfAnimal (s : Species).
Coercion OfPatch : Terrain >-> TypeTag.
Coercion OfAnimal : Species >-> TypeTag.

Global Instance Terrain_eq_dec : EqDecision Terrain.
Proof. solve_decision. Defined.
Global Instance Species_eq_dec : EqDecision Species.
Proof. solve_decision. Defined.
Global Instance TypeTag_eq_dec : EqDecision TypeTag.
Proof. solve_decision. Defined.

(** [s == t] on type strings. *)
Definition type_eqb (s t : TypeTag) : bool := bool_decide (s = t).

(** [gender]: 0 is [Female], 1 is [Male] (line 121). *)
Inductive Gender : Type := Female | Male.

Global Instance Gender_eq_dec : EqDecision Gender.
Proof. solve_decision. Defined.

(** A [Patch] object (lines 73-110). *)
Record Patch : Type := mkPatch {
  patch_type : Terrain;
  grass : R;
  patch_pos : option Pos
}.

(** An [Animal] object (lines 116-133, 284-304). *)
Record Animal : Type := mkAnimal {
  gender : Gender;
  pregs : R;
  target : option uid;
  age : R;
  pos : option Pos;
  alive : bool;
  food : R;
  type : Species;
  max_age : R;
  max_speed : R;
  speed : R
}.

Inductive Obj : Type :=
  | OPatch (p : Patch)
  | OAnimal (a : Animal).

Definition obj_type (o : Obj) : TypeTag :=
  match o with OPatch p => OfPatch (patch_type p) | OAnimal a => OfAnimal (type a) end.

Definition obj_pos (o : Obj) : option Pos :=
  match o with OPatch p => patch_pos p | OAnimal a => pos a end.

(** The fill colours of a patch (lines 93-99). *)
Inductive Color : Type :=
  | Green      (* "#00FF00" *)
  | Grey       (* "#908F8A" *)
  | Yellow.    (* "#CAA800" *)

Definition get_color (p : Patch) : Color :=
  if grass p >=? 1 then Green
  else if bool_decide (patch_type p = Rock) then Grey
  else Yellow.

(** What the program prints, and what it asks of the canvas. *)
Inductive Event : Type :=
  | Print_starved (a : uid)
  | Print_aged_out (a : uid)
  | Print_birth (a : uid) (babies : Z)
  | Print_no_position (a t : uid)
  | Print_out_of_bounds (a t : uid) (old new : Pos)
  | Print_ate (a t : uid)
  | Print_mated (a t : uid)
  | Print_poem (step : Z)
  | Canvas_patch_update (p : uid) (fill : Color)
  | Canvas_animal_update (a : uid)
  | Canvas_draw (a : uid)
  | Canvas_coords (a : uid) (new : Pos)
  | Canvas_delete (a : uid)
  | Canvas_create_text (a : uid).

(** mesa's [ContinuousSpace(x_max, y_max, torus=False)]: the agents it holds,
    in the order of their indices; the position of an agent is its [pos]
    attribute. *)
Record ContinuousSpace : Type := mkSpace {
  x_max : Z;
  y_max : Z;
  agents : list uid
}.

(** [Prey_model] (lines 328-338), with the objects it has created
    ([objects]) and what it has printed and drawn ([out], latest first). *)
Record Prey_model : Type := mkModel {
  count : Z;
  schedule : list uid;
  space : ContinuousSpace;
  step_num : Z;
  last_uid : uid;
  grass_ticks : gmap Z (list uid);
  Prey_count : Z;
  Tiger_count : Z;
  objects : gmap uid Obj;
  out : list Event
}.

(** Field updates. *)
Definition set_grass (v : R) (p : Patch) : Patch :=
  mkPatch (patch_type p) v (patch_pos p).
Definition set_patch_pos (v : option Pos) (p : Patch) : Patch :=
  mkPatch (patch_type p) (grass p) v.

Definition set_pregs (v : R) (a : Animal) : Animal :=
  mkAnimal (gender a) v (target a) (age a) (pos a) (alive a) (food a)
           (type a) (max_age a) (max_speed a) (speed a).
Definition set_target (v : option uid) (a : Animal) : Animal :=
  mkAnimal (gender a) (pregs a) v (age a) (pos a) (alive a) (food a)
           (type a) (max_age a) (max_speed a) (speed a).
Definition set_age (v : R) (a : Animal) : Animal :=
  mkAnimal (gender a) (pregs a) (target a) v (pos a) (alive a) (food a)
           (type a) (max_age a) (max_speed a) (speed a).
Definition set_pos (v : option Pos) (a : Animal) : Animal :=
  mkAnimal (gender a) (pregs a) (target a) (age a) v (alive a) (food a)
           (type a) (max_age a) (max_speed a) (speed a).
Definition set_alive (v : bool) (a : Animal) : Animal :=
  mkAnimal (gender a) (pregs a) (target a) (age a) (pos a) v (food a)
           (type a) (max_age a) (max_speed a) (speed a).
Definition set_food (v : R) (a : Animal) : Animal :=
  mkAnimal (gender a) (pregs a) (target a) (age a) (pos a) (alive a) v
           (type a) (max_age a) (max_speed a) (speed a).
Definition set_speed_field (v : R) (a : Animal) : Animal :=
  mkAnimal (gender a) (pregs a) (target a) (age a) (pos a) (alive a) (food a)
           (type a) (max_age a) (max_speed a) v.

Definition set_obj_pos (v : option Pos) (o : Obj) : Obj :=
  match o with
  | OPatch p => OPatch (set_patch_pos v p)
  | OAnimal a => OAnimal (set_pos v a)
  end.

Definition set_count (v : Z) (m : Prey_model) : Prey_model :=
  mkModel v (schedule m) (space m) (step_num m) (last_uid m) (grass_ticks m)
          (Prey_count m) (Tiger_count m) (objects m) (out m).
Definition set_schedule (v : list uid) (m : Prey_model) : Prey_model :=
  mkModel (count m) v (space m) (step_num m) (last_uid m) (grass_ticks m)
          (Prey_count m) (Tiger_count m) (objects m) (out m).
Definition set_agents (v : list uid) (m : Prey_model) : Prey_model :=
  mkModel (count m) (schedule m)
          (mkSpace (x_max (space m)) (y_max (space m)) v)
          (step_num m) (last_uid m) (grass_ticks m)
          (Prey_count m) (Tiger_count m) (objects m) (out m).
Definition set_step_num (v : Z) (m : Prey_model) : Prey_model :=
  mkModel (count m) (schedule m) (space m) v (last_uid m) (grass_ticks m)
          (Prey_count m) (Tiger_count m) (objects m) (out m).
Definition set_last_uid (v : uid) (m : Prey_model) : Prey_model :=
  mkModel (count m) (schedule m) (space m) (step_num m) v (grass_ticks m)
          (Prey_count m) (Tiger_count m) (objects m) (out m).
Definition set_grass_ticks (v : gmap Z (list uid)) (m : Prey_model) : Prey_model :=
  mkModel (count m) (schedule m) (space m) (step_num m) (last_uid m) v
          (Prey_count m) (Tiger_count m) (objects m) (out m).
Definition set_Prey_count (v : Z) (m : Prey_model) : Prey_model :=
  mkModel (count m) (schedule m) (space m) (step_num m) (last_uid m)
          (grass_ticks m) v (Tiger_count m) (objects m) (out m).
Definition set_Tiger_count (v : Z) (m : Prey_model) : Prey_model :=
  mkModel (count m) (schedule m) (space m) (step_num m) (last_uid m)
          (grass_ticks m) (Prey_count m) v (objects m) (out m).
Definition set_objects (v : gmap uid Obj) (m : Prey_model) : Prey_model :=
  mkModel (count m) (schedule m) (space m) (step_num m) (last_uid m)
          (grass_ticks m) (Prey_count m) (Tiger_count m) v (out m).
Definition set_out (v : list Event) (m : Prey_model) : Prey_model :=
  mkModel (count m) (schedule m) (space m) (step_num m) (last_uid m)
          (grass_ticks m) (Prey_count m) (Tiger_count m) (objects m) v.

(** ** The monad of the program: a state, and an exception or a value *)

Definition M (A : Type) : Type := Prey_model -> Result (A * Prey_model).

Definition ret {A} (a : A) : M A := fun m => Ok (a, m).

Definition bind {A B} (c : M A) (f : A -> M B) : M B :=
  fun m => match c m with
           | Ok (a, m') => f a m'
           | Raise e => Raise e
           end.

Definition raise {A} (e : Exn) : M A := fun _ => Raise e.

Definition get : M Prey_model := fun m => Ok (m, m).

Definition modify (f : Prey_model -> Prey_model) : M unit :=
  fun m => Ok (tt, f m).

Definition lift {A} (r : Result A) : M A :=
  fun m => match r with Ok a => Ok (a, m) | Raise e => Raise e end.

Notation "'do' x <- c ; k" := (bind c (fun x => k))
  (at level 10, x name, c at level 100, k at level 200,
   format "'[v' 'do'  x  <-  c ; '/' k ']'").
Notation "'do_' c ; k" := (bind c (fun _ => k))
  (at level 10, c at level 100, k at level 200,
   format "'[v' 'do_'  c ; '/' k ']'").

Definition when (b : bool) (c : M unit) : M unit := if b then c else ret tt.

Fixpoint for_each {A} (l : list A) (body : A -> M unit) : M unit :=
  match l with
  | [] => ret tt
  | x :: l' => do_ body x; for_each l' body
  end.

(** [range(n)] *)
Definition range (n : Z) : list Z := map Z.of_nat (seq 0 (Z.to_nat n)).

Definition emit (e : Event) : M unit := modify (fun m => set_out (e :: out m) m).

(** ** Objects *)

Definition the_obj (u : uid) : M Obj :=
  fun m => match objects m !! u with
           | Some o => Ok (o, m)
           | None => Raise AttributeError
           end.

Definition the_animal (u : uid) : M Animal :=
  do o <- the_obj u;
  match o with OAnimal a => ret a | OPatch _ => raise AttributeError end.

Definition the_patch (u : uid) : M Patch :=
  do o <- the_obj u;
  match o with OPatch p => ret p | OAnimal _ => raise AttributeError end.

Definition with_obj (u : uid) (o : Obj) (m : Prey_model) : Prey_model :=
  set_objects (<[u := o]> (objects m)) m.

Definition put_obj (u : uid) (o : Obj) : M unit := modify (with_obj u o).

(** An assignment to attributes of the animal [u]. *)
Definition update_animal (u : uid) (f : Animal -> Animal) : M unit :=
  do a <- the_animal u;
  put_obj u (OAnimal (f a)).

Definition update_patch (u : uid) (f : Patch -> Patch) : M unit :=
  do p <- the_patch u;
  put_obj u (OPatch (f p)).

(** [self.pos], to be unpacked. *)
Definition the_pos (u : uid) : M Pos :=
  do o <- the_obj u;
  match obj_pos o with Some p => ret p | None => raise AttributeError end.

(** ** mesa's [ContinuousSpace] and [RandomActivation], as the program uses them *)

(** [out_of_bounds]: [x < x_min or x >= x_max or y < y_min or y >= y_max],
    the minima being 0. *)
Definition out_of_bounds (s : ContinuousSpace) (p : Pos) : bool :=
  let '(x, y) := p in
  (x <? 0) || (x >=? IZR (x_max s)) || (y <? 0) || (y >=? IZR (y_max s)).

(** [torus_adj] of a space that is not a torus. *)
Definition torus_adj (p : Pos) : M Pos :=
  do m <- get;
  if out_of_bounds (space m) p then raise PointOutOfBounds else ret p.

Definition place_agent (u : uid) (p : Pos) : M unit :=
  do p <- torus_adj p;
  do_ modify (fun m => set_agents (agents (space m) ++ [u]) m);
  do o <- the_obj u;
  put_obj u (set_obj_pos (Some p) o).

Definition in_list (u : uid) (l : list uid) : bool := bool_decide (u ∈ l).

Definition move_agent (u : uid) (p : Pos) : M unit :=
  do p <- torus_adj p;
  do m <- get;
  if in_list u (agents (space m)) then
    do o <- the_obj u;
    put_obj u (set_obj_pos (Some p) o)
  else raise AgentNotInSpace.

Definition remove_uid (u : uid) (l : list uid) : list uid :=
  filter (fun v => v <> u) l.

Definition remove_agent (u : uid) : M unit :=
  do m <- get;
  if in_list u (agents (space m)) then
    do_ modify (fun m => set_agents (remove_uid u (agents (space m))) m);
    do o <- the_obj u;
    put_obj u (set_obj_pos None o)
  else raise AgentNotInSpace.

(** [get_neighbors(pos, radius)]: the agents whose squared distance to [pos]
    is at most [radius**2], by increasing index. *)
Definition within (m : Prey_model) (p : Pos) (radius : R) (u : uid) : bool :=
  match objects m !! u with
  | Some o =>
      match obj_pos o with
      | Some (x, y) =>
          Rabs (x - fst p) ^ 2 + Rabs (y - snd p) ^ 2 <=? radius ^ 2
      | None => false
      end
  | None => false
  end.

Definition get_neighbors (p : Pos) (radius : R) : M (list uid) :=
  do m <- get;
  ret (List.filter (within m p radius) (agents (space m))).

Definition schedule_add (u : uid) : M unit :=
  modify (fun m => set_schedule (schedule m ++ [u]) m).

Definition schedule_remove (u : uid) : M unit :=
  do m <- get;
  if in_list u (schedule m)
  then modify (fun m => set_schedule (remove_uid u (schedule m)) m)
  else raise KeyError.

(** ** [Patch] (lines 73-110) *)

(** [GRASS_REGROW // AGE_T] *)
Definition regrow_delay : Z := Rfloor (GRASS_REGROW / AGE_T).

Definition Patch_update (u : uid) : M unit :=
  do p <- the_patch u;
  emit (Canvas_patch_update u (get_color p)).

Definition Patch_regrow (u : uid) : M unit :=
  do_ update_patch u (set_grass 1);
  Patch_update u.

Definition Patch_munch (u : uid) : M unit :=
  do_ update_patch u (set_grass 0);
  do_ Patch_update u;
  do m <- get;
  let step := (step_num m + regrow_delay)%Z in
  let g := default [] (grass_ticks m !! step) in
  let g := g ++ [u] in
  modify (fun m => set_grass_ticks (<[step := g]> (grass_ticks m)) m).

(** A new [Patch]; [r] is the value of [random.random()]. *)
Definition Patch_init (r : R) : Patch :=
  let type := if r <? ROCKY_AREAS then Rock else Grass in
  mkPatch type (if bool_decide (type = Grass) then 1 else 0) None.

(** ** [Animal] (lines 116-282) and its two species (lines 284-304) *)

(** [can_mate] (lines 135-140). *)
Definition can_mate (a : Animal) : bool :=
  bool_decide (gender a = Female) && (pregs a =? 0)
  && ((8 >? age a) && (age a >? 1)) && (food a >? 50).

(** [set_speed] (lines 142-146), on the attributes of one animal. *)
Definition set_speed (a : Animal) : Result Animal :=
  match get_speed (age a) (max_age a) (max_speed a) with
  | Ok s =>
      let a := set_speed_field s a in
      Ok (if pregs a !=? 0 then set_speed_field (speed a - pregs a) a else a)
  | Raise e => Raise e
  end.

(** [Tiger(uid, model, age)] and [Prey(uid, model, age)]; [g] is the value of
    [random.randint(0, 1)] and [noise] the one of [random.normalvariate]. *)
Definition Tiger_init (g : Gender) (noise : R) (age : R) : Result Animal :=
  set_speed (mkAnimal g 0 None age (Some (0, 0)) true 50 Tiger
                      (norm_distro noise LIFESPAN_TIGER) 2 0).

Definition Prey_init (g : Gender) (noise : R) (age : R) : Result Animal :=
  set_speed (mkAnimal g 0 None age (Some (0, 0)) true 10 Prey
                      (norm_distro noise LIFESPAN_PREY) 1 0).

(** The methods that are called on a target or on a neighbour, which may be
    a patch or an animal.  The program reads [grass] only from an object of
    type ['Grass'], and [food] and [can_mate] only from an object whose type
    is the one of an animal. *)
Definition obj_grass (o : Obj) : R :=
  match o with OPatch p => grass p | OAnimal _ => 0 end.
Definition obj_food (o : Obj) : R :=
  match o with OAnimal a => food a | OPatch _ => 0 end.
Definition obj_can_mate (o : Obj) : bool :=
  match o with OAnimal a => can_mate a | OPatch _ => false end.
Definition is_Patch (o : Obj) : bool :=
  match o with OPatch _ => true | OAnimal _ => false end.

(** ** [Prey_model]: uids, births and deaths (lines 358-388) *)

Definition new_uid : M uid :=
  do m <- get;
  let u := (last_uid m + 1)%nat in
  do_ modify (set_last_uid u);
  ret u.

(** [create_baby(x, y, age, type)], with the random values of the
    constructor. *)
Definition create_baby (x y : R) (age : R) (ty : Species)
    (g : Gender) (noise : R) : M unit :=
  do u <- (if bool_decide (ty = Prey) then
             do u <- new_uid;
             do a <- lift (Prey_init g noise age);
             do_ put_obj u (OAnimal a);
             do_ modify (fun m => set_Prey_count (Prey_count m + 1) m);
             ret u
           else
             do u <- new_uid;
             do a <- lift (Tiger_init g noise age);
             do_ put_obj u (OAnimal a);
             do_ modify (fun m => set_Tiger_count (Tiger_count m + 1) m);
             ret u);
  do_ schedule_add u;
  do_ place_agent u (x, y);
  do_ modify (fun m => set_count (count m + 1) m);
  emit (Canvas_draw u).

(** [Prey_model.kill(a)] *)
Definition kill (u : uid) : M unit :=
  do a <- the_animal u;
  do_ (if bool_decide (type a = Prey)
       then modify (fun m => set_Prey_count (Prey_count m - 1) m)
       else modify (fun m => set_Tiger_count (Tiger_count m - 1) m));
  do _p <- the_pos u;
  do_ emit (Canvas_delete u);
  do_ modify (fun m => set_count (count m - 1) m);
  do_ remove_agent u;
  do_ schedule_remove u;
  emit (Canvas_create_text u).

(** The random values one call of [Animal.step] may draw. *)
Record StepRandom : Type := mkStepRandom {
  babies_noise : R;                 (* normalvariate, line 189 *)
  newborn_gender : nat -> Gender;   (* randint of the i-th newborn *)
  newborn_noise : nat -> R;         (* normalvariate of the i-th newborn *)
  cellmates_choices : list nat;     (* shuffle, line 225 *)
  food_cells_choices : list nat     (* shuffle, line 258 *)
}.

(** The first object of a list that passes a test. *)
Definition first_where (m : Prey_model) (test : Obj -> bool) (l : list uid)
  : option uid :=
  List.find (fun u => match objects m !! u with
                      | Some o => test o
                      | None => false
                      end) l.

(** How the first part of [get_target] ends: with a [return], or with the
    local variable [target]. *)
Inductive Flow : Type :=
  | Return (r : option uid)
  | Continue (target : option uid).

(** [get_target], lines 229-248: what an animal does to a target it has
    reached. *)
Definition reach_target (self : uid) (a : Animal) (self_pos : Pos) : M Flow :=
  match target a with
  | None => ret (Continue None)
  | Some t =>
      do o <- the_obj t;
      match obj_pos o with
      | None => ret (Continue (Some t))
      | Some target_pos =>
          if get_distance self_pos target_pos <? 0.5 then
            if type_eqb (type a) Prey && type_eqb (obj_type o) Grass
               && (food a <? 80) && (obj_grass o >=? 1)
            then
              do_ Patch_munch t;
              do_ update_animal self (fun a => set_food (food a + 10) a);
              ret (Return None)
            else if type_eqb (type a) Tiger && type_eqb (obj_type o) Prey
                    && (food a <? 80)
            then
              do_ emit (Print_ate self t);
              do_ update_animal self
                    (fun a => set_food (food a + (40 + obj_food o / 4)) a);
              do_ update_animal t (set_alive false);
              ret (Return None)
            else if type_eqb (type a) (obj_type o) && obj_can_mate o
            then
              do_ emit (Print_mated self t);
              do_ update_animal t (set_pregs 0.1);
              do_ emit (Canvas_animal_update t);
              ret (Continue (Some t))
            else ret (Continue None)
          else ret (Continue (Some t))
      end
  end.

(** [get_target], lines 254-268: a nearby food object. *)
Definition find_food (rnd : StepRandom) (a : Animal) (self_pos : Pos)
  : M (option uid) :=
  if food a <? 80 then
    if type_eqb (type a) Prey then
      do food_cells <- get_neighbors self_pos RADIUS_PREY;
      let food_cells := shuffle (food_cells_choices rnd) food_cells in
      do m <- get;
      ret (first_where m (fun obj => type_eqb (obj_type obj) Grass
                                     && (obj_grass obj >=? 1)) food_cells)
    else
      do food_cells <- get_neighbors self_pos RADIUS_TIGER;
      do m <- get;
      ret (first_where m (fun obj => type_eqb (obj_type obj) Prey) food_cells)
  else ret None.

(** [get_target], lines 270-281: a mate for a male, or a patch to wander to. *)
Definition find_mate_or_wander (a : Animal) (cellmates : list uid)
  : M (option uid) :=
  do m <- get;
  let mate :=
    if bool_decide (gender a = Male) then
      first_where m (fun obj => type_eqb (type a) (obj_type obj)
                                && obj_can_mate obj) cellmates
    else None in
  match mate with
  | Some obj => ret (Some obj)
  | None =>
      ret (first_where m (fun obj => is_Patch obj
                                     && type_eqb (obj_type obj) Grass) cellmates)
  end.

(** [Animal.get_target] (lines 219-281). *)
Definition get_target (rnd : StepRandom) (self : uid) : M (option uid) :=
  do a <- the_animal self;
  do self_pos <- the_pos self;
  do cellmates <- get_neighbors self_pos 3;
  let cellmates := shuffle (cellmates_choices rnd) cellmates in
  do flow <- reach_target self a self_pos;
  match flow with
  | Return r => ret r
  | Continue (Some target) => ret (Some target)
  | Continue None =>
      do a <- the_animal self;
      do found <- find_food rnd a self_pos;
      match found with
      | Some obj => ret (Some obj)
      | None => find_mate_or_wander a cellmates
      end
  end.

(** [Animal.step], lines 183-195: pregnancy and birth. *)
Definition carry_and_bear (rnd : StepRandom) (self : uid) : M unit :=
  do a <- the_animal self;
  when (pregs a !=? 0) (
    do_ update_animal self (fun a => set_food (food a - FOOD_PER_TICK / 3) a);
    do_ update_animal self (fun a => set_pregs (pregs a + AGE_T) a);
    do a <- the_animal self;
    when (pregs a >=? 1) (
      do_ update_animal self (set_pregs 0);
      do_ emit (Canvas_animal_update self);
      let babies := babies_noise rnd + 1 in
      let babies := babies * (if bool_decide (type a = Tiger)
                              then BABIES_PER_TIGER_PREGS
                              else BABIES_PER_PREY_PREGS) in
      let babies := py_round babies in
      do_ emit (Print_birth self babies);
      for_each (seq 0 (Z.to_nat babies)) (fun x =>
        do p <- the_pos self;
        create_baby (fst p) (snd p) 0 (type a)
                    (newborn_gender rnd x) (newborn_noise rnd x)))).

(** [Animal.step], lines 201-217: the new target, and the move towards it. *)
Definition seek_and_move (rnd : StepRandom) (self : uid) : M unit :=
  do t <- get_target rnd self;
  do_ update_animal self (set_target t);
  match t with
  | None => ret tt
  | Some target =>
      do o <- the_obj target;
      match obj_pos o with
      | None =>
          do_ emit (Print_no_position self target);
          update_animal self (set_target None)
      | Some (x_2, y_2) =>
          do a <- the_animal self;
          do p <- the_pos self;
          let '(new_pos, delta_x, delta_y) :=
            calc_move (fst p) (snd p) x_2 y_2 (speed a) in
          let '(x, y) := new_pos in
          do_ when ((0 >? x) && (x >? 80) || (0 >? y) && (y >? 80))
                   (emit (Print_out_of_bounds self target p new_pos));
          do_ move_agent self new_pos;
          emit (Canvas_coords self new_pos)
      end
  end.

(** [Animal.step] (lines 165-217). *)
Definition Animal_step (rnd : StepRandom) (self : uid) : M unit :=
  do a <- the_animal self;
  if negb (alive a) then kill self
  else
    do_ update_animal self (fun a => set_food (food a - FOOD_PER_TICK) a);
    do_ update_animal self (fun a => set_age (age a + AGE_T) a);
    do m <- get;
    let step := step_num m in
    do a <- the_animal self;
    if food a <=? 0 then
      do_ emit (Print_starved self);
      kill self
    else if age a >? max_age a then
      do_ emit (Print_aged_out self);
      kill self
    else
      do_ carry_and_bear rnd self;
      do_ when (bool_decide (step `mod` 10 = 0)%Z) (
            do a <- the_animal self;
            do a <- lift (set_speed a);
            put_obj self (OAnimal a));
      seek_and_move rnd self.

(** ** One tick (lines 390-417) *)

(** The random values of one tick: the shuffle of the scheduler, and the
    values for the step of each agent. *)
Record TickRandom : Type := mkTickRandom {
  order_choices : list nat;
  agent_random : uid -> StepRandom
}.

(** mesa's [RandomActivation.step]: the keys of the agents are copied and
    shuffled, and every agent that is still scheduled when its turn comes
    takes its step. *)
Definition schedule_step (rnd : TickRandom) : M unit :=
  do m <- get;
  let agent_keys := shuffle (order_choices rnd) (schedule m) in
  for_each agent_keys (fun key =>
    do m <- get;
    when (in_list key (schedule m)) (Animal_step (agent_random rnd key) key)).

(** [Prey_model.step] *)
Definition Prey_model_step (rnd : TickRandom) : M unit :=
  do_ modify (fun m => set_step_num (step_num m + 1) m);
  do m <- get;
  do_ match grass_ticks m !! step_num m with
      | Some due =>
          do_ for_each due Patch_regrow;
          modify (fun m => set_grass_ticks (delete (step_num m) (grass_ticks m)) m)
      | None => ret tt
      end;
  do_ schedule_step rnd;
  do m <- get;
  when (count m <=? 0)%Z (emit (Print_poem (step_num m))).

(** ** The construction of the model (lines 329-356) *)

(** The random values of the constructor: for the i-th patch, the value of
    [random.random()]; for the i-th animal, the values drawn for its place,
    its age, its gender and its lifespan. *)
Record InitRandom : Type := mkInitRandom {
  patch_random : nat -> R;
  animal_x : nat -> nat;
  animal_y : nat -> nat;
  animal_age : nat -> nat;
  animal_gender : nat -> Gender;
  animal_noise : nat -> R
}.

(** [random.randrange(n)] and [random.randint(a, b)], from a drawn number. *)
Definition randrange (n : Z) (drawn : nat) : M Z :=
  if (n <=? 0)%Z then raise ValueError else ret (Z.of_nat drawn `mod` n)%Z.

Definition randint (a b : Z) (drawn : nat) : Z :=
  (a + Z.of_nat drawn `mod` (b - a + 1))%Z.

(** [itertools.product(range(width), range(height))] *)
Definition grid (width height : Z) : list (Z * Z) :=
  flat_map (fun x => map (fun y => (x, y)) (range height)) (range width).

Definition empty_model (width height : Z) : Prey_model :=
  mkModel 0 [] (mkSpace (width + 1) (height + 1) []) 0 0%nat ∅ 0 0 ∅ [].

Definition create_patch (rnd : InitRandom) (i : nat) (xy : Z * Z) : M unit :=
  do u <- new_uid;
  do_ put_obj u (OPatch (Patch_init (patch_random rnd i)));
  do_ place_agent u (IZR (fst xy), IZR (snd xy));
  emit (Canvas_draw u).

Definition create_animal (rnd : InitRandom) (ty : Species) (i : nat) : M unit :=
  do m <- get;
  do x <- randrange (x_max (space m)) (animal_x rnd i);
  do y <- randrange (x_max (space m)) (animal_y rnd i);
  create_baby (IZR x) (IZR y) (IZR (randint 1 5 (animal_age rnd i))) ty
              (animal_gender rnd i) (animal_noise rnd i).

Fixpoint for_each_indexed {A} (i : nat) (l : list A) (body : nat -> A -> M unit)
  : M unit :=
  match l with
  | [] => ret tt
  | x :: l' => do_ body i x; for_each_indexed (S i) l' body
  end.

(** [Prey_model(Prey_count, Tiger_count, width, height, CANVAS)] *)
Definition Prey_model_init (rnd : InitRandom)
    (Prey_count Tiger_count width height : Z) : Result Prey_model :=
  match
    (do_ for_each_indexed 0 (grid width height) (create_patch rnd);
     do_ for_each (seq 0 (Z.to_nat Prey_count)) (create_animal rnd Prey);
     for_each (seq (Z.to_nat Prey_count) (Z.to_nat Tiger_count))
              (create_animal rnd Tiger))
      (empty_model width height)
  with
  | Ok (_, m) => Ok m
  | Raise e => Raise e
  end.

(** The states the program can be in between two ticks. *)
Inductive reachable : Prey_model -> Prop :=
  | reachable_init rnd Prey_count Tiger_count width height m :
      Prey_model_init rnd Prey_count Tiger_count width height = Ok m ->
      reachable m
  | reachable_step rnd m m' :
      reachable m ->
      Prey_model_step rnd m = Ok (tt, m') ->
      reachable m'.

(** ** States along a run *)

(** [run rnds m]: the ticks of [rnds], one after the other. *)
Fixpoint run (rnds : list TickRandom) (m : Prey_model) : Result Prey_model :=
  match rnds with
  | [] => Ok m
  | rnd :: rnds' =>
      match Prey_model_step rnd m with
      | Ok (_, m') => run rnds' m'
      | Raise e => Raise e
      end
  end.

(** ** The elementary changes of state

    Every change the program makes to its state is one of the following;
    each carries what is known where the program makes it.  [self] is the
    animal whose step is running. *)

(** Attributes that change freely: [food], [age], [speed], [target]. *)
Definition same_vital (a a' : Animal) : Prop :=
  gender a' = gender a /\ pregs a' = pregs a /\ pos a' = pos a /\
  alive a' = alive a /\ type a' = type a.

(** The state after [create_baby]: [a] is the new animal, [p] its place. *)
Definition after_birth (a : Animal) (p : Pos) (m : Prey_model) : Prey_model :=
  let u := (last_uid m + 1)%nat in
  let m := with_obj u (OAnimal a) (set_last_uid u m) in
  let m := if bool_decide (type a = Prey)
           then set_Prey_count (Prey_count m + 1) m
           else set_Tiger_count (Tiger_count m + 1) m in
  let m := set_schedule (schedule m ++ [u]) m in
  let m := with_obj u (OAnimal (set_pos (Some p) a))
             (set_agents (agents (space m) ++ [u]) m) in
  let m := set_count (count m + 1) m in
  set_out (Canvas_draw u :: out m) m.

(** The state after the constructor has made the patch [pt] and put it at
    [p]. *)
Definition after_patch (pt : Patch) (p : Pos) (m : Prey_model) : Prey_model :=
  let u := (last_uid m + 1)%nat in
  let m := with_obj u (OPatch pt) (set_last_uid u m) in
  let m := with_obj u (OPatch (set_patch_pos (Some p) pt))
             (set_agents (agents (space m) ++ [u]) m) in
  set_out (Canvas_draw u :: out m) m.

Definition is_patch_update (e : Event) : bool :=
  match e with Canvas_patch_update _ _ => true | _ => false end.

Inductive mutation (self : uid) : Prey_model -> Prey_model -> Prop :=
  | M_attr m u a a' :
      objects m !! u = Some (OAnimal a) -> same_vital a a' ->
      mutation self m (with_obj u (OAnimal a') m)
  | M_pregs m u a v :
      objects m !! u = Some (OAnimal a) ->
      pregs a <> 0 \/ gender a = Female ->
      mutation self m (with_obj u (OAnimal (set_pregs v a)) m)
  | M_dead m u a :
      objects m !! u = Some (OAnimal a) ->
      mutation self m (with_obj u (OAnimal (set_alive false a)) m)
  | M_move m u o p :
      objects m !! u = Some o -> u ∈ agents (space m) ->
      out_of_bounds (space m) p = false ->
      mutation self m (with_obj u (set_obj_pos (Some p) o) m)
  | M_birth m a p :
      pregs a = 0 -> alive a = true ->
      out_of_bounds (space m) p = false ->
      mutation self m (after_birth a p m)
  | M_patch m pt p :
      out_of_bounds (space m) p = false ->
      mutation self m (after_patch pt p m)
  | M_remove m o :
      objects m !! self = Some o ->
      mutation self m (with_obj self (set_obj_pos None o)
                         (set_agents (remove_uid self (agents (space m))) m))
  | M_unschedule m :
      mutation self m (set_schedule (remove_uid self (schedule m)) m)
  | M_count m v : mutation self m (set_count v m)
  | M_Prey_count m v : mutation self m (set_Prey_count v m)
  | M_Tiger_count m v : mutation self m (set_Tiger_count v m)
  | M_emit m e :
      is_patch_update e = false ->
      mutation self m (set_out (e :: out m) m)
  | M_munch m u p :
      objects m !! u = Some (OPatch p) ->
      let p' := set_grass 0 p in
      let m' := with_obj u (OPatch p') m in
      mutation self m (set_out (Canvas_patch_update u (get_color p') :: out m') m')
  | M_regrow m u p :
      objects m !! u = Some (OPatch p) ->
      let p' := set_grass 1 p in
      let m' := with_obj u (OPatch p') m in
      mutation self m (set_out (Canvas_patch_update u (get_color p') :: out m') m')
  | M_calendar m u :
      let step := (step_num m + regrow_delay)%Z in
      let g := default [] (grass_ticks m !! step) ++ [u] in
      mutation self m (set_grass_ticks (<[step := g]> (grass_ticks m)) m).

(** The changes [self] makes, one after the other. *)
Definition mutations (self : uid) : relation Prey_model := rtc (mutation self).

(** ** An example run

    A world of one cell with a rock on it, one prey and two tigers, all on
    the same spot; every shuffle leaves its list as it is. *)
Definition example_init : InitRandom :=
  mkInitRandom (fun _ => 0) (fun _ => 0%nat) (fun _ => 0%nat) (fun _ => 0%nat)
               (fun _ => Male) (fun _ => 0).

Definition example_step : StepRandom :=
  mkStepRandom 0 (fun _ => Male) (fun _ => 0) [] [].

Definition example_tick : TickRandom :=
  mkTickRandom [] (fun _ => example_step).

(** ** What the proofs speak about: states after a call, invariants, and
    the worlds of the examples *)

(** The state after a tiger [self] has eaten the prey [t]. *)
Definition after_eating (self : uid) (a : Animal) (t : uid) (b : Animal)
    (m : Prey_model) : Prey_model :=
  with_obj t (OAnimal (set_alive false b))
    (with_obj self (OAnimal (set_food (food a + (40 + food b / 4)) a))
       (set_out (Print_ate self t :: out m) m)).

(** The state after [kill(a)]. *)
Definition after_kill (u : uid) (a : Animal) (m : Prey_model) : Prey_model :=
  let m := if bool_decide (type a = Prey)
           then set_Prey_count (Prey_count m - 1) m
           else set_Tiger_count (Tiger_count m - 1) m in
  let m := set_out (Canvas_delete u :: out m) m in
  let m := set_count (count m - 1) m in
  let m := set_agents (remove_uid u (agents (space m))) m in
  let m := with_obj u (OAnimal (set_pos None a)) m in
  let m := set_schedule (remove_uid u (schedule m)) m in
  set_out (Canvas_create_text u :: out m) m.

(** The state after [self] has mated with [t]. *)
Definition after_mating (self t : uid) (b : Animal) (m : Prey_model) : Prey_model :=
  let m := set_out (Print_mated self t :: out m) m in
  let m := with_obj t (OAnimal (set_pregs 0.1 b)) m in
  set_out (Canvas_animal_update t :: out m) m.

(** The state after a move to [new_pos], towards the target [t]. *)
Definition after_move (self : uid) (a : Animal) (t : uid) (new_pos : Pos)
    (m : Prey_model) : Prey_model :=
  let m := with_obj self (OAnimal (set_pos (Some new_pos) (set_target (Some t) a))) m in
  set_out (Canvas_coords self new_pos :: out m) m.

(** The attributes of an animal after lines 170-187 of a step in which it
    neither dies nor gives birth. *)
Definition lives_on (a : Animal) : Animal :=
  let a := set_food (food a - FOOD_PER_TICK) a in
  let a := set_age (age a + AGE_T) a in
  if pregs a !=? 0 then
    let a := set_food (food a - FOOD_PER_TICK / 3) a in
    set_pregs (pregs a + AGE_T) a
  else a.

Definition mutates_at (self : uid) {A} (c : M A) (m : Prey_model) : Prop :=
  forall a m', c m = Ok (a, m') -> mutations self m m'.

Definition species_init (ty : Species) (g : Gender) (noise age : R) : Result Animal :=
  if bool_decide (ty = Prey) then Prey_init g noise age else Tiger_init g noise age.

(** What a change may do to an object that exists. *)
Inductive obj_step : Obj -> Obj -> Prop :=
  | step_animal a a' :
      gender a' = gender a -> type a' = type a ->
      (alive a = false -> alive a' = false) ->
      (pregs a' = pregs a \/ pregs a <> 0 \/ gender a = Female) ->
      obj_step (OAnimal a) (OAnimal a')
  | step_patch p p' :
      patch_type p' = patch_type p ->
      obj_step (OPatch p) (OPatch p').

Definition is_newborn (o : Obj) : Prop :=
  match o with OAnimal a => pregs a = 0 | OPatch _ => True end.

(** No object has a uid beyond the last one handed out. *)
Definition bounded (m : Prey_model) : Prop :=
  forall u, is_Some (objects m !! u) -> (u <= last_uid m)%nat.

(** The invariant of claim C9. *)
Definition males_not_pregnant (m : Prey_model) : Prop :=
  forall u a, objects m !! u = Some (OAnimal a) -> gender a = Male -> pregs a = 0.

(** An animal that has left the schedule and the space. *)
Definition gone (d : uid) (m : Prey_model) : Prop :=
  (d ∉ schedule m) /\ (d ∉ agents (space m)) /\ (d <= last_uid m)%nat.

(** An animal that is marked dead and waits for its turn. *)
Definition dead_waiting (d : uid) (m : Prey_model) : Prop :=
  d ∈ schedule m /\
  exists a, objects m !! d = Some (OAnimal a) /\ alive a = false.

(** The state at the start of the scheduler's round: the tick is counted,
    the due patches have regrown and their entry is deleted. *)
Definition tick_prefix (m m1 : Prey_model) : Prop :=
  let m0 := set_step_num (step_num m + 1) m in
  match grass_ticks m !! (step_num m + 1)%Z with
  | Some due =>
      exists mr, for_each due Patch_regrow m0 = Ok (tt, mr) /\
        m1 = set_grass_ticks (delete (step_num mr) (grass_ticks mr)) mr
  | None => m1 = m0
  end.

(** The canvas is asked to show the patch [p] without grass: this is what
    [munch], and nothing else, does. *)
Definition is_munch (p : uid) (e : Event) : bool :=
  match e with
  | Canvas_patch_update q Green => false
  | Canvas_patch_update q _ => bool_decide (q = p)
  | _ => false
  end.

Definition munches (p : uid) (log : list Event) : nat :=
  length (List.filter (is_munch p) log).

(** The patch [p] waits for the tick [T], or has regrown. *)
Definition regrows_at (p : uid) (T : Z) (m : Prey_model) : Prop :=
  exists pt, objects m !! p = Some (OPatch pt) /\
    (((step_num m < T)%Z /\ exists l, grass_ticks m !! T = Some l /\ p ∈ l) \/
     ((T <= step_num m)%Z /\ grass pt = 1)).

(** ... as long as it has not been munched again. *)
Definition unmunched (p : uid) (T : Z) (n : nat) (m : Prey_model) : Prop :=
  (n <= munches p (out m))%nat /\
  (munches p (out m) = n -> regrows_at p T m).

(** The example world: the rock has uid 1, the prey uid 2, the tigers the
    uids 3 and 4. *)
Definition example_rock : Patch := mkPatch Rock 0 (Some (0, 0)).

Definition example_world (step : Z) (prey tiger1 tiger2 : Animal)
    (log : list Event) : Prey_model :=
  mkModel 3 [2; 3; 4]%nat (mkSpace 2 2 [1; 2; 3; 4]%nat) step 4%nat ∅ 1 2
    (<[4%nat := OAnimal tiger2]>
       (<[3%nat := OAnimal tiger1]>
          (<[2%nat := OAnimal prey]>
             (<[1%nat := OPatch example_rock]> ∅))))
    log.

Definition example_prey (v food age : R) (alive : bool) : Animal :=
  mkAnimal Male 0 None age (Some (0, 0)) alive food Prey
           (norm_distro 0 LIFESPAN_PREY) 1 v.

Definition example_tiger (v food age : R) (target : option uid) : Animal :=
  mkAnimal Male 0 target age (Some (0, 0)) true food Tiger
           (norm_distro 0 LIFESPAN_TIGER) 2 v.

Definition example_log : list Event :=
  [Canvas_draw 4%nat; Canvas_draw 3%nat; Canvas_draw 2%nat; Canvas_draw 1%nat].

(** *** The first two ticks of the example *)
Definition example_m0 (vp vt : R) : Prey_model :=
  example_world 0 (example_prey vp 10 1 true) (example_tiger vt 50 1 None)
    (example_tiger vt 50 1 None) example_log.

Definition example_m1 (vp vt : R) : Prey_model :=
  example_world 1
    (example_prey vp (10 - FOOD_PER_TICK) (1 + AGE_T) true)
    (example_tiger vt (50 - FOOD_PER_TICK) (1 + AGE_T) (Some 2%nat))
    (example_tiger vt (50 - FOOD_PER_TICK) (1 + AGE_T) (Some 2%nat))
    (Canvas_coords 4%nat (0, 0) :: Canvas_coords 3%nat (0, 0) :: example_log).

Definition example_meal : R := 40 + (10 - FOOD_PER_TICK - FOOD_PER_TICK) / 4.

Definition example_m2 (vp vt : R) : Prey_model :=
  example_world 2
    (example_prey vp (10 - FOOD_PER_TICK - FOOD_PER_TICK) (1 + AGE_T + AGE_T) false)
    (example_tiger vt (50 - FOOD_PER_TICK - FOOD_PER_TICK + example_meal)
       (1 + AGE_T + AGE_T) None)
    (example_tiger vt (50 - FOOD_PER_TICK - FOOD_PER_TICK + example_meal)
       (1 + AGE_T + AGE_T) None)
    (Print_ate 4%nat 2%nat :: Print_ate 3%nat 2%nat ::
     Canvas_coords 4%nat (0, 0) :: Canvas_coords 3%nat (0, 0) :: example_log).

(** ** A pregnant prey at the edge of the world

    The world is 2 wide and 1 high; two grass patches lie at (0,0) and
    (1,0).  A prey that has been pregnant for 80 ticks stands at [(x, 0)]
    and has the second patch as its target.  The next tick is the 30th. *)
Definition escape_prey (x : R) : Animal :=
  mkAnimal Female 0.5 (Some 2%nat) 4.995 (Some (x, 0)) true 60 Prey 5 1 0.3.

Definition escape_world (x : R) : Prey_model :=
  mkModel 1 [3%nat] (mkSpace 3 2 [1; 2; 3]%nat) 29 3%nat ∅ 1 0
    (<[3%nat := OAnimal (escape_prey x)]>
       (<[2%nat := OPatch (mkPatch Grass 1 (Some (1, 0)))]>
          (<[1%nat := OPatch (mkPatch Grass 1 (Some (0, 0)))]> ∅)))
    [].

(** The prey as the step leaves it when it is not moved: older, hungrier,
    and with the speed that [set_speed] gives it. *)
Definition escape_prey_aged (x : R) : Animal :=
  mkAnimal Female (0.5 + AGE_T) (Some 2%nat) (4.995 + AGE_T) (Some (x, 0)) true
           (60 - FOOD_PER_TICK - FOOD_PER_TICK / 3) Prey 5 1
           (0.3375 * 1 - (0.5 + AGE_T)).

(** The animals that are alive are inside the world: the space is one
    wider and one higher than the world. *)
Definition in_world (m : Prey_model) : Prop :=
  forall u a x y,
    objects m !! u = Some (OAnimal a) -> alive a = true -> pos a = Some (x, y) ->
    0 <= x <= IZR (x_max (space m) - 1) /\ 0 <= y <= IZR (y_max (space m) - 1).

Definition escape_world_after (x : R) (new_pos : Pos) : Prey_model :=
  mkModel 1 [3%nat] (mkSpace 3 2 [1; 2; 3]%nat) 30 3%nat ∅ 1 0
    (<[3%nat := OAnimal (set_pos (Some new_pos) (escape_prey_aged x))]>
       (<[2%nat := OPatch (mkPatch Grass 1 (Some (1, 0)))]>
          (<[1%nat := OPatch (mkPatch Grass 1 (Some (0, 0)))]> ∅)))
    [Canvas_coords 3%nat new_pos].

(** ** A pair of prey on a grass patch

    The male has the uid 2 and the female, which can mate, the uid 3; the
    patch has the uid 1.  The female is the target of the male. *)
Definition mating_male : Animal :=
  mkAnimal Male 0 (Some 3%nat) 2 (Some (0, 0)) true 60 Prey 9 1 1.

Definition mating_female (pregs : R) : Animal :=
  mkAnimal Female pregs None 2 (Some (0, 0)) true 60 Prey 9 1 1.

Definition mating_world (pregs : R) (log : list Event) : Prey_model :=
  mkModel 2 [2; 3]%nat (mkSpace 2 2 [1; 2; 3]%nat) 1 3%nat ∅ 2 0
    (<[3%nat := OAnimal (mating_female pregs)]>
       (<[2%nat := OAnimal mating_male]>
          (<[1%nat := OPatch (mkPatch Grass 1 (Some (0, 0)))]> ∅)))
    log.

(** ** A dead prey, alone *)
Definition lone_prey (alive : bool) (pos : option Pos) : Animal :=
  mkAnimal Male 0 None 2 pos alive 10 Prey 9 1 1.

Definition lone_world : Prey_model :=
  mkModel 1 [1%nat] (mkSpace 2 2 [1%nat]) 0 1%nat ∅ 1 0
    (<[1%nat := OAnimal (lone_prey false (Some (0, 0)))]> ∅) [].

Definition lone_world_after : Prey_model :=
  mkModel 0 [] (mkSpace 2 2 []) 1 1%nat ∅ 0 0
    (<[1%nat := OAnimal (lone_prey false None)]> ∅)
    [Print_poem 1; Canvas_create_text 1%nat; Canvas_delete 1%nat].

(** ** A patch that waits for its grass *)
Definition pending_patch (grass : R) : Patch := mkPatch Grass grass (Some (0, 0)).

Definition pending_world : Prey_model :=
  mkModel 0 [] (mkSpace 2 2 [1%nat]) 0 1%nat (<[1%Z := [1%nat]]> ∅) 0 0
    (<[1%nat := OPatch (pending_patch 0)]> ∅) [].

Definition pending_world_after : Prey_model :=
  mkModel 0 [] (mkSpace 2 2 [1%nat]) 1 1%nat ∅ 0 0
    (<[1%nat := OPatch (pending_patch 1)]> ∅)
    [Print_poem 1; Canvas_patch_update 1%nat Green].

(** Every object that has a position is inside of the space. *)
Definition in_space (m : Prey_model) : Prop :=
  forall u o x y,
    objects m !! u = Some o -> obj_pos o = Some (x, y) ->
    0 <= x < IZR (x_max (space m)) /\ 0 <= y < IZR (y_max (space m)).

(** The schedule and the space hold uids that have been handed out. *)
Definition listed (m : Prey_model) : Prop :=
  forall u, u ∈ schedule m \/ u ∈ agents (space m) -> (u <= last_uid m)%nat.

(** The animal [u] is scheduled and of the species [ty]. *)
Definition has_type (m : Prey_model) (ty : Species) (u : uid) : bool :=
  match objects m !! u with
  | Some (OAnimal a) => bool_decide (type a = ty)
  | _ => false
  end.

(** The number of the scheduled animals of the species [ty]. *)
Definition census (m : Prey_model) (ty : Species) : Z :=
  Z.of_nat (length (List.filter (has_type m ty) (schedule m))).

Definition is_oob_print (e : Event) : bool :=
  match e with Print_out_of_bounds _ _ _ _ => true | _ => false end.

(** The grass of a patch: none, or 1 on a patch of the type ['Grass']. *)
Definition grass_ok (p : Patch) : Prop :=
  grass p = 0 \/ (grass p = 1 /\ patch_type p = Grass).

Record WF (m : Prey_model) : Prop := mkWF {
  wf_sched_nodup : NoDup (schedule m);
  wf_agents_nodup : NoDup (agents (space m));
  wf_sched : forall u, u ∈ schedule m ->
    exists a p, objects m !! u = Some (OAnimal a) /\ pos a = Some p /\
                u ∈ agents (space m);
  wf_agents : forall u, u ∈ agents (space m) ->
    exists o p, objects m !! u = Some o /\ obj_pos o = Some p;
  wf_space : in_space m;
  wf_uids : forall u, is_Some (objects m !! u) -> (u <= last_uid m)%nat;
  wf_lifespan : forall u a, objects m !! u = Some (OAnimal a) -> max_age a <> 0;
  wf_target : forall u a t,
    objects m !! u = Some (OAnimal a) -> target a = Some t ->
    is_Some (objects m !! t);
  wf_calendar : forall T l u,
    grass_ticks m !! T = Some l -> u ∈ l ->
    exists pt, objects m !! u = Some (OPatch pt) /\ patch_type pt = Grass;
  wf_grass : forall u pt, objects m !! u = Some (OPatch pt) -> grass_ok pt;
  wf_count : count m = Z.of_nat (length (schedule m));
  wf_Prey_count : Prey_count m = census m Prey;
  wf_Tiger_count : Tiger_count m = census m Tiger;
  wf_log : Forall (fun e => is_oob_print e = false) (out m)
}.

(** What a change of an object that exists has to respect. *)
Definition compat (m : Prey_model) (o o' : Obj) : Prop :=
  match o, o' with
  | OAnimal a, OAnimal a' =>
      type a' = type a /\ max_age a' = max_age a /\
      (forall t, target a' = Some t -> is_Some (objects m !! t))
  | OPatch p, OPatch p' => patch_type p' = patch_type p /\ grass_ok p'
  | _, _ => False
  end /\
  (obj_pos o' = obj_pos o \/
   exists q x y, obj_pos o = Some q /\ obj_pos o' = Some (x, y) /\
     0 <= x < IZR (x_max (space m)) /\ 0 <= y < IZR (y_max (space m))).

(** The exceptions a step may end with: the one of the space, and, when a
    lifespan of exactly 0 is drawn for a newborn (which [ok] excludes), the
    division by zero of [get_speed]. *)
Definition allowed (ok : Prop) (e : Exn) : Prop :=
  e = PointOutOfBounds \/ (e = ZeroDivisionError /\ ~ ok).

(** [c] ends in [m] with a result and a state that satisfy [Q], or with an
    allowed exception. *)
Definition safe (ok : Prop) {A} (c : M A) (m : Prey_model)
    (Q : A -> Prey_model -> Prop) : Prop :=
  match c m with
  | Ok (a, m') => Q a m'
  | Raise e => allowed ok e
  end.

(** The state after [munch]. *)
Definition munched (t : uid) (pt : Patch) (m : Prey_model) : Prey_model :=
  let T := (step_num m + regrow_delay)%Z in
  set_grass_ticks (<[T := default [] (grass_ticks m !! T) ++ [t]]> (grass_ticks m))
    (set_out (Canvas_patch_update t (get_color (set_grass 0 pt)) :: out m)
       (with_obj t (OPatch (set_grass 0 pt)) m)).

(** Where [self] is, after it has looked at its target. *)
Definition still_there (self : uid) (m' : Prey_model) : Prop :=
  WF m' /\ self ∈ schedule m'.

Definition known (m' : Prey_model) (r : option uid) : Prop :=
  forall t, r = Some t -> is_Some (objects m' !! t).

(** The size of the space, which no call changes. *)
Definition sized (w h : Z) (m : Prey_model) : Prop :=
  x_max (space m) = (w + 1)%Z /\ y_max (space m) = (h + 1)%Z.

(** The counters of the state [m'], [n] prey and [k] tigers after [m]. *)
Definition tally (n k : Z) (m m' : Prey_model) : Prop :=
  Prey_count m' = (Prey_count m + n)%Z /\
  Tiger_count m' = (Tiger_count m + k)%Z /\
  count m' = (count m + n + k)%Z /\
  step_num m' = step_num m /\ grass_ticks m' = grass_ticks m.

(** What the constructor gives to an animal. *)
Definition fresh_animal (w : Z) (a : Animal) : Prop :=
  alive a = true /\ pregs a = 0 /\ target a = None /\
  (exists k, age a = IZR k /\ (1 <= k <= 5)%Z) /\
  exists x y, pos a = Some (IZR x, IZR y) /\ (0 <= x <= w)%Z /\ (0 <= y <= w)%Z.

(** The state [m'] after [n] animals of the species [ty] have been born at
    [p], in the state [m]. *)
Definition born (ty : Species) (p : Pos) (n : nat) (m m' : Prey_model) : Prop :=
  last_uid m' = (last_uid m + n)%nat /\
  count m' = (count m + Z.of_nat n)%Z /\
  schedule m' = schedule m ++ seq (S (last_uid m)) n /\
  x_max (space m') = x_max (space m) /\ y_max (space m') = y_max (space m) /\
  (forall u, (u <= last_uid m)%nat -> objects m' !! u = objects m !! u) /\
  forall u, (last_uid m < u <= last_uid m + n)%nat ->
    exists b, objects m' !! u = Some (OAnimal b) /\ type b = ty /\
              pos b = Some p /\ age b = 0 /\ pregs b = 0 /\ alive b = true.

(** The number of the babies of a birth (lines 189-192). *)
Definition litter (rnd : StepRandom) (ty : Species) : nat :=
  Z.to_nat (py_round ((babies_noise rnd + 1) *
                      (if bool_decide (ty = Tiger) then BABIES_PER_TIGER_PREGS
                       else BABIES_PER_PREY_PREGS))).

(** A prey that is about to give birth, alone in a world of one cell. *)
Definition birth_mother : Animal :=
  mkAnimal Female 1 None 3 (Some (0, 0)) true 60 Prey 9 1 1.

Definition birth_world : Prey_model :=
  mkModel 1 [1%nat] (mkSpace 2 2 [1%nat]) 0 1%nat ∅ 1 0
          (<[1%nat := OAnimal birth_mother]> ∅) [].

(** * Proofs *)

(** ** Comparisons *)

Lemma Rltb_true x y : x < y -> (x <? y) = true.
Proof. intros H. unfold Rltb. destruct (Rlt_dec x y); [reflexivity | contradiction]. Qed.
Lemma Rltb_false x y : ~ x < y -> (x <? y) = false.
Proof. intros H. unfold Rltb. destruct (Rlt_dec x y); [contradiction | reflexivity]. Qed.
Lemma Rleb_true x y : x <= y -> (x <=? y) = true.
Proof. intros H. unfold Rleb. destruct (Rle_dec x y); [reflexivity | contradiction]. Qed.
Lemma Rleb_false x y : ~ x <= y -> (x <=? y) = false.
Proof. intros H. unfold Rleb. destruct (Rle_dec x y); [contradiction | reflexivity]. Qed.
Lemma Reqb_true x y : x = y -> (x =? y) = true.
Proof. intros H. unfold Reqb. destruct (Req_dec_T x y); [reflexivity | contradiction]. Qed.
Lemma Reqb_false x y : x <> y -> (x =? y) = false.
Proof. intros H. unfold Reqb. destruct (Req_dec_T x y); [contradiction | reflexivity]. Qed.

Lemma Rltb_spec x y : reflect (x < y) (x <? y).
Proof. unfold Rltb. destruct (Rlt_dec x y); constructor; assumption. Qed.
Lemma Rleb_spec x y : reflect (x <= y) (x <=? y).
Proof. unfold Rleb. destruct (Rle_dec x y); constructor; assumption. Qed.
Lemma Reqb_spec x y : reflect (x = y) (x =? y).
Proof. unfold Reqb. destruct (Req_dec_T x y); constructor; assumption. Qed.

(** Decide the comparisons of a goal whose outcome [lra] can tell. *)
Ltac Rcompare :=
  repeat match goal with
  | |- context [Rltb ?x ?y] =>
      first [ rewrite (Rltb_true x y) by lra | rewrite (Rltb_false x y) by lra ]
  | |- context [Rleb ?x ?y] =>
      first [ rewrite (Rleb_true x y) by lra | rewrite (Rleb_false x y) by lra ]
  | |- context [Reqb ?x ?y] =>
      first [ rewrite (Reqb_true x y) by lra | rewrite (Reqb_false x y) by lra ]
  end.

Lemma get_speed_newborn max_age max_speed :
  max_age <> 0 -> get_speed 0 max_age max_speed = Ok (0.1 * max_speed).
Proof.
  intros H. unfold get_speed.
  rewrite (Reqb_false _ _ H).
  replace (0 / max_age) with 0 by (unfold Rdiv; ring).
  cbv zeta. Rcompare. reflexivity.
Qed.

Lemma get_speed_at_max_age max_age max_speed :
  max_age <> 0 -> get_speed max_age max_age max_speed = Ok (0.3375 * max_speed).
Proof.
  intros H. unfold get_speed.
  rewrite (Reqb_false _ _ H).
  replace (max_age / max_age) with 1 by (field; assumption).
  cbv zeta. Rcompare. f_equal. lra.
Qed.

Lemma get_speed_at_half max_age max_speed :
  max_age <> 0 -> get_speed (max_age / 2) max_age max_speed = Ok max_speed.
Proof.
  intros H. unfold get_speed.
  rewrite (Reqb_false _ _ H).
  replace (max_age / 2 / max_age) with (1 / 2) by (field; assumption).
  cbv zeta. Rcompare. f_equal. lra.
Qed.


(** ** Movement geometry *)

Lemma sign_of_cases d : (d < 0 /\ sign_of d = -1) \/ (0 <= d /\ sign_of d = 1).
Proof.
  unfold sign_of. destruct (Rltb_spec d 0); [left | right]; split; lra.
Qed.

Lemma Rabs_sign_of d : Rabs (sign_of d) = 1.
Proof.
  destruct (sign_of_cases d) as [[_ ->]|[_ ->]];
    unfold Rabs; destruct (Rcase_abs _); lra.
Qed.

Lemma Rabs_times_sign_of d : Rabs d * sign_of d = d.
Proof.
  destruct (sign_of_cases d) as [[? ->]|[? ->]].
  - rewrite Rabs_left by lra. ring.
  - rewrite Rabs_pos_eq by lra. ring.
Qed.

Lemma get_distance_sqr p q :
  0 <= get_distance p q /\
  get_distance p q * get_distance p q = (snd q - snd p) ^ 2 + (fst q - fst p) ^ 2.
Proof.
  destruct p as [x1 y1], q as [x2 y2]. unfold get_distance. cbn [fst snd].
  split; [apply sqrt_pos|]. apply sqrt_sqrt.
  pose proof (pow2_ge_0 (y2 - y1)). pose proof (pow2_ge_0 (x2 - x1)). lra.
Qed.

(** The step along the line, when the target is not on the same row. *)
Lemma calc_move_slanted x1 y1 x2 y2 d :
  0 <= d -> y2 - y1 <> 0 ->
  let D := get_distance (x1, y1) (x2, y2) in
  exists s, 0 <= s /\ s * D = d * Rabs (y2 - y1) /\
    calc_move x1 y1 x2 y2 d =
      (if (s >? Rabs (y2 - y1)) then (x2, y2)
       else (x1 + s / Rabs (y2 - y1) * (x2 - x1), y1 + s / Rabs (y2 - y1) * (y2 - y1)),
       Rabs ((x2 - x1) / (y2 - y1) * (s * sign_of (y2 - y1))) * sign_of (x2 - x1),
       s * sign_of (y2 - y1)).
Proof.
  intros Hd Hy D.
  set (dx := x2 - x1) in *. set (dy := y2 - y1) in *.
  set (r := dx / dy).
  assert (Hr : 0 < r ^ 2 + 1) by (pose proof (pow2_ge_0 r); lra).
  set (s := sqrt (d ^ 2 / (r ^ 2 + 1))).
  assert (Hs0 : 0 <= s) by apply sqrt_pos.
  assert (Hss : s * s = d ^ 2 / (r ^ 2 + 1)).
  { apply sqrt_sqrt. apply Rmult_le_pos; [apply pow2_ge_0 | left; apply Rinv_0_lt_compat; lra]. }
  destruct (get_distance_sqr (x1, y1) (x2, y2)) as [HD0 HDD]. cbn [fst snd] in HDD.
  fold D dx dy in HD0, HDD.
  assert (Hrdy : r * dy = dx) by (unfold r; field; assumption).
  assert (Hady : 0 < Rabs dy) by (apply Rabs_pos_lt; assumption).
  assert (Hady2 : Rabs dy * Rabs dy = dy * dy).
  { unfold Rabs. destruct (Rcase_abs dy); ring. }
  assert (HsD : s * D = d * Rabs dy).
  { assert (E : (s * D) * (s * D) = (d * Rabs dy) * (d * Rabs dy)).
    { replace (s * D * (s * D)) with ((s * s) * (D * D)) by ring.
      rewrite Hss, HDD.
      replace (d * Rabs dy * (d * Rabs dy)) with (d * d * (Rabs dy * Rabs dy)) by ring.
      rewrite Hady2. rewrite <- Hrdy. field. lra. }
    assert (0 <= s * D) by (apply Rmult_le_pos; assumption).
    assert (0 <= d * Rabs dy) by (apply Rmult_le_pos; lra).
    nra. }
  exists s. split; [assumption|]. split; [assumption|].
  unfold calc_move. fold dx dy. rewrite (Reqb_false dy 0 Hy). cbn [negb].
  fold r. fold s.
  assert (HA : Rabs (r * (s * sign_of dy)) = Rabs r * s).
  { rewrite !Rabs_mult, Rabs_sign_of, (Rabs_pos_eq s Hs0). ring. }
  assert (Hdx' : Rabs (Rabs (r * (s * sign_of dy)) * sign_of dx) = Rabs r * s).
  { rewrite Rabs_mult, Rabs_Rabsolu, Rabs_sign_of, HA. ring. }
  assert (Hdy' : Rabs (s * sign_of dy) = s).
  { rewrite Rabs_mult, Rabs_sign_of, (Rabs_pos_eq s Hs0). ring. }
  rewrite Hdx', Hdy'.
  assert (Hadx : Rabs dx = Rabs r * Rabs dy) by (rewrite <- Rabs_mult, Hrdy; reflexivity).
  destruct (Rltb_spec (Rabs dy) s) as [Hgt|Hle].
  - rewrite orb_true_r. reflexivity.
  - rewrite orb_false_r.
    assert (Hno : ~ Rabs dx < Rabs r * s).
    { rewrite Hadx. pose proof (Rabs_pos r). nra. }
    rewrite (Rltb_false _ _ Hno).
    f_equal. f_equal. f_equal.
    + f_equal. rewrite HA.
      rewrite <- (Rabs_times_sign_of dx) at 2. rewrite Hadx. field. lra.
    + f_equal.
      rewrite <- (Rabs_times_sign_of dy) at 3. field. lra.
Qed.

Lemma get_distance_eq p q v :
  0 <= v -> v * v = (snd q - snd p) ^ 2 + (fst q - fst p) ^ 2 ->
  get_distance p q = v.
Proof.
  intros Hv E. destruct p as [x1 y1], q as [x2 y2]. unfold get_distance.
  cbn [fst snd] in E. rewrite <- E. apply sqrt_square. assumption.
Qed.

Lemma calc_move_level x1 y x2 d :
  calc_move x1 y x2 y d =
    (if Rabs d >? Rabs (x2 - x1) then (x2, y)
     else (x1 + d * sign_of (x2 - x1), y + 0),
     d * sign_of (x2 - x1), 0).
Proof.
  unfold calc_move. replace (y - y) with 0 by ring.
  rewrite (Reqb_true 0 0 eq_refl). cbn [negb].
  rewrite Rabs_mult, Rabs_sign_of, Rmult_1_r.
  rewrite (Rltb_false (Rabs 0) (Rabs 0)) by lra. rewrite orb_false_r.
  destruct (Rltb _ _); reflexivity.
Qed.

Lemma advance_general x1 y1 x2 y2 d :
    0 <= d ->
    let D := get_distance (x1, y1) (x2, y2) in
    let p := advance (x1, y1) (x2, y2) d in
    (d <= D ->
       get_distance (x1, y1) p = d /\
       exists t, 0 <= t <= 1 /\ p = (x1 + t * (x2 - x1), y1 + t * (y2 - y1)))
    /\ (D < d -> p = (x2, y2)).
Proof.
  intros Hd D p.
  destruct (get_distance_sqr (x1, y1) (x2, y2)) as [HD0 HDD]. cbn [fst snd] in HDD.
  fold D in HD0, HDD.
  destruct (Req_dec_T (y2 - y1) 0) as [Hy|Hy].
  - assert (y2 = y1) by lra. subst y2.
    assert (HDx : D = Rabs (x2 - x1)).
    { unfold D. apply get_distance_eq; [apply Rabs_pos|]. cbn [fst snd].
      unfold Rabs. destruct (Rcase_abs _); ring. }
    unfold p, advance. cbn [fst snd]. rewrite calc_move_level.
    rewrite (Rabs_pos_eq d Hd). rewrite <- HDx. cbn [fst snd].
    split.
    + intros Hle. rewrite (Rltb_false D d) by lra.
      split.
      * apply get_distance_eq; [assumption|]. cbn [fst snd].
        destruct (sign_of_cases (x2 - x1)) as [[_ ->]|[_ ->]]; ring.
      * destruct (Req_dec_T D 0) as [HD|HD].
        -- exists 0. split; [lra|]. assert (d = 0) by lra. subst d. f_equal; ring.
        -- exists (d / D). split.
           ++ split; [apply Rmult_le_pos; [assumption | left; apply Rinv_0_lt_compat; lra]|].
              apply Rmult_le_reg_r with D; [lra|]. unfold Rdiv.
              rewrite Rmult_assoc, Rinv_l by assumption. lra.
           ++ f_equal; [|ring]. f_equal. rewrite HDx.
              rewrite <- (Rabs_times_sign_of (x2 - x1)) at 3. field.
              rewrite <- HDx. assumption.
    + intros Hlt. rewrite (Rltb_true D d) by lra. reflexivity.
  - destruct (calc_move_slanted x1 y1 x2 y2 d Hd Hy) as (s & Hs0 & HsD & Hcm).
    fold D in HsD.
    assert (Hady : 0 < Rabs (y2 - y1)) by (apply Rabs_pos_lt; assumption).
    assert (Hady2 : Rabs (y2 - y1) * Rabs (y2 - y1) = (y2 - y1) ^ 2).
    { unfold Rabs. destruct (Rcase_abs _); ring. }
    assert (HDpos : 0 < D).
    { pose proof (pow2_ge_0 (x2 - x1)). nra. }
    unfold p, advance. cbn [fst snd]. rewrite Hcm. cbn [fst snd].
    split.
    + intros Hle.
      assert (Hs : s <= Rabs (y2 - y1)) by nra.
      rewrite (Rltb_false _ s) by lra.
      set (t := s / Rabs (y2 - y1)).
      assert (Ht0 : 0 <= t).
      { apply Rmult_le_pos; [assumption | left; apply Rinv_0_lt_compat; lra]. }
      assert (HtD : t * D = d).
      { unfold t. unfold Rdiv. rewrite Rmult_assoc, (Rmult_comm (/ _)), <- Rmult_assoc.
        rewrite HsD. field. lra. }
      split.
      * apply get_distance_eq; [assumption|]. cbn [fst snd].
        rewrite <- HtD.
        replace (t * D * (t * D)) with (t * t * (D * D)) by ring. rewrite HDD. ring.
      * exists t. split; [|reflexivity]. split; [assumption|].
        unfold t. apply Rmult_le_reg_r with (Rabs (y2 - y1)); [assumption|].
        unfold Rdiv. rewrite Rmult_assoc, Rinv_l by lra. lra.
    + intros Hlt.
      assert (Hs : Rabs (y2 - y1) < s) by nra.
      rewrite (Rltb_true _ s Hs). reflexivity.
Qed.

Lemma advance_example_1 : advance (0, 0) (10, 0) 5 = (5, 0).
Proof.
  unfold advance. cbn [fst snd]. rewrite calc_move_level. cbn [fst snd].
  replace (10 - 0) with 10 by ring.
  rewrite (Rabs_pos_eq 5), (Rabs_pos_eq 10) by lra.
  unfold sign_of. Rcompare. f_equal; lra.
Qed.

Lemma advance_example_2 : advance (0, 0) (3, 0) 5 = (3, 0).
Proof.
  unfold advance. cbn [fst snd]. rewrite calc_move_level. cbn [fst snd].
  replace (3 - 0) with 3 by ring.
  rewrite (Rabs_pos_eq 5), (Rabs_pos_eq 3) by lra.
  Rcompare. reflexivity.
Qed.

(** ** Running the monad forwards *)

Lemma bind_ok {A B} (c : M A) (f : A -> M B) m a m1 :
  c m = Ok (a, m1) -> bind c f m = f a m1.
Proof. intros H. unfold bind. rewrite H. reflexivity. Qed.

Lemma bind_raise {A B} (c : M A) (f : A -> M B) m e :
  c m = Raise e -> bind c f m = Raise e.
Proof. intros H. unfold bind. rewrite H. reflexivity. Qed.

Lemma the_obj_ok u o m : objects m !! u = Some o -> the_obj u m = Ok (o, m).
Proof. intros H. unfold the_obj. rewrite H. reflexivity. Qed.

Lemma the_animal_ok u a m :
  objects m !! u = Some (OAnimal a) -> the_animal u m = Ok (a, m).
Proof. intros H. unfold the_animal. rewrite (bind_ok _ _ _ _ _ (the_obj_ok _ _ _ H)). reflexivity. Qed.

Lemma the_patch_ok u p m :
  objects m !! u = Some (OPatch p) -> the_patch u m = Ok (p, m).
Proof. intros H. unfold the_patch. rewrite (bind_ok _ _ _ _ _ (the_obj_ok _ _ _ H)). reflexivity. Qed.

Lemma the_pos_ok u o p m :
  objects m !! u = Some o -> obj_pos o = Some p -> the_pos u m = Ok (p, m).
Proof.
  intros H Hp. unfold the_pos. rewrite (bind_ok _ _ _ _ _ (the_obj_ok _ _ _ H)).
  rewrite Hp. reflexivity.
Qed.

Lemma update_animal_ok u a f m :
  objects m !! u = Some (OAnimal a) ->
  update_animal u f m = Ok (tt, with_obj u (OAnimal (f a)) m).
Proof.
  intros H. unfold update_animal.
  rewrite (bind_ok _ _ _ _ _ (the_animal_ok _ _ _ H)). reflexivity.
Qed.

Lemma update_patch_ok u p f m :
  objects m !! u = Some (OPatch p) ->
  update_patch u f m = Ok (tt, with_obj u (OPatch (f p)) m).
Proof.
  intros H. unfold update_patch.
  rewrite (bind_ok _ _ _ _ _ (the_patch_ok _ _ _ H)). reflexivity.
Qed.

Lemma objects_with_obj u o m : objects (with_obj u o m) = <[u := o]> (objects m).
Proof. reflexivity. Qed.

Lemma lookup_with_obj u o m : objects (with_obj u o m) !! u = Some o.
Proof. rewrite objects_with_obj. apply lookup_insert_eq. Qed.

Lemma lookup_with_obj_ne u v o m :
  u <> v -> objects (with_obj u o m) !! v = objects m !! v.
Proof. intros H. rewrite objects_with_obj. apply lookup_insert_ne. assumption. Qed.

Ltac model_simpl :=
  cbn [objects set_out set_count set_schedule set_agents set_step_num
       set_last_uid set_grass_ticks set_Prey_count set_Tiger_count set_objects
       schedule space agents x_max y_max step_num last_uid grass_ticks
       Prey_count Tiger_count count out with_obj].

Ltac model_simpl_in H :=
  cbn [objects set_out set_count set_schedule set_agents set_step_num
       set_last_uid set_grass_ticks set_Prey_count set_Tiger_count set_objects
       schedule space agents x_max y_max step_num last_uid grass_ticks
       Prey_count Tiger_count count out with_obj] in H.

(** Look an object up in a state that is given by its updates. *)
Ltac find_obj :=
  model_simpl;
  repeat first [ rewrite lookup_insert_eq
               | rewrite lookup_insert_ne by (assumption || congruence || lia) ];
  first [ eassumption | reflexivity ].

(** Run the first command of a sequence, [tac] proving what it returns. *)
Ltac run tac := cbv beta iota; erewrite bind_ok; [| solve [tac]]; cbv beta iota.

Lemma emit_ok e m : emit e m = Ok (tt, set_out (e :: out m) m).
Proof. reflexivity. Qed.

Ltac run_emit := run ltac:(apply emit_ok).
Ltac run_update := run ltac:(apply update_animal_ok; find_obj).
Ltac run_the_obj := run ltac:(apply the_obj_ok; find_obj).
Ltac run_the_animal := run ltac:(apply the_animal_ok; find_obj).

(** Compute the comparisons of known type strings. *)
Ltac type_compare :=
  repeat match goal with
  | |- context [type_eqb (?f ?s) (?g ?t)] =>
      let b := eval vm_compute in (type_eqb (f s) (g t)) in
      change (type_eqb (f s) (g t)) with b
  end.

Lemma tiger_is_not_its_prey self t a b (m : Prey_model) :
  objects m !! self = Some (OAnimal a) -> objects m !! t = Some (OAnimal b) ->
  type a = Tiger -> type b = Prey -> self <> t.
Proof. intros Ha Hb Ta Tb ->. rewrite Ha in Hb. injection Hb as ->. congruence. Qed.

Lemma reach_target_eat self a self_pos t b target_pos m :
  objects m !! self = Some (OAnimal a) ->
  objects m !! t = Some (OAnimal b) ->
  target a = Some t -> type a = Tiger -> type b = Prey ->
  pos b = Some target_pos ->
  get_distance self_pos target_pos < 0.5 ->
  food a < 80 ->
  reach_target self a self_pos m = Ok (Return None, after_eating self a t b m).
Proof.
  intros Ha Hb Ht Ta Tb Hp Hd Hf.
  pose proof (tiger_is_not_its_prey _ _ _ _ _ Ha Hb Ta Tb) as Hne.
  unfold reach_target. rewrite Ht.
  run_the_obj.
  cbn [obj_pos obj_type obj_food]. rewrite Hp, (Rltb_true _ _ Hd), Ta, Tb, (Rltb_true _ _ Hf).
  type_compare. cbn [andb].
  run_emit. run_update. run_update. reflexivity.
Qed.

Lemma get_neighbors_ok p radius m :
  get_neighbors p radius m =
  Ok (List.filter (within m p radius) (agents (space m)), m).
Proof. reflexivity. Qed.

Ltac run_the_pos :=
  run ltac:(eapply the_pos_ok; [find_obj | cbn [obj_pos]; eassumption]).
Ltac run_neighbors := run ltac:(apply get_neighbors_ok).

Lemma get_target_eat rnd self a self_pos t b target_pos m :
  objects m !! self = Some (OAnimal a) ->
  objects m !! t = Some (OAnimal b) ->
  target a = Some t -> type a = Tiger -> type b = Prey ->
  pos a = Some self_pos -> pos b = Some target_pos ->
  get_distance self_pos target_pos < 0.5 ->
  food a < 80 ->
  get_target rnd self m = Ok (None, after_eating self a t b m).
Proof.
  intros Ha Hb Ht Ta Tb Hsp Hp Hd Hf. unfold get_target.
  run_the_animal. run_the_pos. run_neighbors.
  run ltac:(eapply reach_target_eat; eassumption).
  reflexivity.
Qed.

Lemma seek_and_move_eat rnd self a self_pos t b target_pos m :
  objects m !! self = Some (OAnimal a) ->
  objects m !! t = Some (OAnimal b) ->
  target a = Some t -> type a = Tiger -> type b = Prey ->
  pos a = Some self_pos -> pos b = Some target_pos ->
  get_distance self_pos target_pos < 0.5 ->
  food a < 80 ->
  seek_and_move rnd self m =
  Ok (tt, with_obj self
            (OAnimal (set_target None (set_food (food a + (40 + food b / 4)) a)))
            (after_eating self a t b m)).
Proof.
  intros Ha Hb Ht Ta Tb Hsp Hp Hd Hf.
  pose proof (tiger_is_not_its_prey _ _ _ _ _ Ha Hb Ta Tb) as Hne.
  unfold seek_and_move.
  run ltac:(eapply get_target_eat; eassumption).
  unfold after_eating. run_update. reflexivity.
Qed.

Lemma in_list_true u l : u ∈ l -> in_list u l = true.
Proof. intros H. unfold in_list. apply bool_decide_eq_true. assumption. Qed.

Lemma in_list_false u l : u ∉ l -> in_list u l = false.
Proof. intros H. unfold in_list. apply bool_decide_eq_false. assumption. Qed.

Lemma not_in_remove_uid u l : u ∉ remove_uid u l.
Proof. unfold remove_uid. rewrite (list_elem_of_filter (fun w => w <> u)). tauto. Qed.

Lemma in_remove_uid u v l : v ∈ remove_uid u l <-> v <> u /\ v ∈ l.
Proof. unfold remove_uid. apply (list_elem_of_filter (fun w => w <> u)). Qed.

Lemma remove_agent_ok u o m :
  u ∈ agents (space m) -> objects m !! u = Some o ->
  remove_agent u m =
  Ok (tt, with_obj u (set_obj_pos None o)
            (set_agents (remove_uid u (agents (space m))) m)).
Proof.
  intros Hs Ho. unfold remove_agent.
  run ltac:(reflexivity). rewrite (in_list_true _ _ Hs).
  run ltac:(reflexivity). run_the_obj. reflexivity.
Qed.

Lemma schedule_remove_ok u m :
  u ∈ schedule m ->
  schedule_remove u m = Ok (tt, set_schedule (remove_uid u (schedule m)) m).
Proof.
  intros Hs. unfold schedule_remove.
  run ltac:(reflexivity). rewrite (in_list_true _ _ Hs). reflexivity.
Qed.

Lemma kill_ok u a p m :
  objects m !! u = Some (OAnimal a) -> pos a = Some p ->
  u ∈ agents (space m) -> u ∈ schedule m ->
  kill u m = Ok (tt, after_kill u a m).
Proof.
  intros Ha Hp Hs Hsch. unfold kill, after_kill.
  run_the_animal.
  destruct (bool_decide (type a = Prey)).
  all: run ltac:(reflexivity).
  all: run ltac:(eapply the_pos_ok; [find_obj | cbn [obj_pos]; eassumption]).
  all: run_emit.
  all: run ltac:(reflexivity).
  all: run ltac:(apply remove_agent_ok; [exact Hs | find_obj]).
  all: run ltac:(apply schedule_remove_ok; exact Hsch).
  all: reflexivity.
Qed.

Lemma after_kill_gone u a m :
  let m' := after_kill u a m in
  (u ∉ schedule m') /\ (u ∉ agents (space m')) /\
  objects m' !! u = Some (OAnimal (set_pos None a)).
Proof.
  cbv zeta. unfold after_kill.
  destruct (bool_decide (type a = Prey)); model_simpl;
    (split; [apply not_in_remove_uid | split; [apply not_in_remove_uid | apply lookup_insert_eq]]).
Qed.

Lemma Animal_step_dead rnd self a p m :
  objects m !! self = Some (OAnimal a) -> alive a = false -> pos a = Some p ->
  self ∈ agents (space m) -> self ∈ schedule m ->
  Animal_step rnd self m = Ok (tt, after_kill self a m).
Proof.
  intros Ha Hd Hp Hs Hsch. unfold Animal_step.
  run_the_animal. rewrite Hd. cbn [negb].
  eapply kill_ok; eassumption.
Qed.

Lemma type_eqb_refl t : type_eqb t t = true.
Proof. unfold type_eqb. apply bool_decide_eq_true. reflexivity. Qed.

Lemma type_eqb_animal_patch (s : Species) (t : Terrain) : type_eqb s t = false.
Proof. unfold type_eqb. apply bool_decide_eq_false. discriminate. Qed.

Lemma type_eqb_species (s t : Species) :
  type_eqb s t = bool_decide (s = t).
Proof.
  unfold type_eqb. apply bool_decide_ext. split; [intros [= ->]; reflexivity | intros ->; reflexivity].
Qed.

Lemma reach_target_mate self a self_pos t b target_pos m :
  objects m !! t = Some (OAnimal b) ->
  target a = Some t -> type a = type b -> can_mate b = true ->
  pos b = Some target_pos ->
  get_distance self_pos target_pos < 0.5 ->
  reach_target self a self_pos m = Ok (Continue (Some t), after_mating self t b m).
Proof.
  intros Hb Ht Tab Hc Hp Hd.
  unfold reach_target. rewrite Ht. run_the_obj.
  cbn [obj_pos obj_type obj_food obj_can_mate]. rewrite Hp, (Rltb_true _ _ Hd), Tab, Hc.
  rewrite type_eqb_refl, type_eqb_animal_patch, !type_eqb_species.
  replace (bool_decide (type b = Tiger) && bool_decide (type b = Prey)) with false
    by (destruct (type b); reflexivity).
  rewrite andb_false_r. cbn [andb].
  run_emit. run_update. run_emit. reflexivity.
Qed.

Lemma get_target_mate rnd self a self_pos t b target_pos m :
  objects m !! self = Some (OAnimal a) ->
  objects m !! t = Some (OAnimal b) ->
  target a = Some t -> type a = type b -> can_mate b = true ->
  pos a = Some self_pos -> pos b = Some target_pos ->
  get_distance self_pos target_pos < 0.5 ->
  get_target rnd self m = Ok (Some t, after_mating self t b m).
Proof.
  intros Ha Hb Ht Tab Hc Hsp Hp Hd. unfold get_target.
  run_the_animal. run_the_pos. run_neighbors.
  run ltac:(eapply reach_target_mate; eassumption).
  reflexivity.
Qed.

(** A target that is not reached is kept. *)
Lemma reach_target_far self a self_pos t o target_pos m :
  objects m !! t = Some o ->
  target a = Some t -> obj_pos o = Some target_pos ->
  ~ get_distance self_pos target_pos < 0.5 ->
  reach_target self a self_pos m = Ok (Continue (Some t), m).
Proof.
  intros Ho Ht Hp Hd. unfold reach_target. rewrite Ht. run_the_obj.
  rewrite Hp, (Rltb_false _ _ Hd). reflexivity.
Qed.

Lemma get_target_far rnd self a self_pos t o target_pos m :
  objects m !! self = Some (OAnimal a) ->
  objects m !! t = Some o ->
  target a = Some t -> pos a = Some self_pos -> obj_pos o = Some target_pos ->
  ~ get_distance self_pos target_pos < 0.5 ->
  get_target rnd self m = Ok (Some t, m).
Proof.
  intros Ha Ho Ht Hsp Hp Hd. unfold get_target.
  run_the_animal. run_the_pos. run_neighbors.
  run ltac:(eapply reach_target_far; eassumption).
  reflexivity.
Qed.

Lemma never_flagged x y :
  (0 >? x) && (x >? 80) || (0 >? y) && (y >? 80) = false.
Proof.
  destruct (Rltb_spec x 0), (Rltb_spec 80 x), (Rltb_spec y 0), (Rltb_spec 80 y);
    cbn; try reflexivity; lra.
Qed.

Lemma move_agent_ok u o p m :
  out_of_bounds (space m) p = false ->
  u ∈ agents (space m) -> objects m !! u = Some o ->
  move_agent u p m = Ok (tt, with_obj u (set_obj_pos (Some p) o) m).
Proof.
  intros Hb Hs Ho. unfold move_agent, torus_adj.
  run ltac:(run ltac:(reflexivity); rewrite Hb; reflexivity).
  run ltac:(reflexivity). rewrite (in_list_true _ _ Hs).
  run_the_obj. reflexivity.
Qed.

Lemma move_agent_out u p m :
  out_of_bounds (space m) p = true ->
  move_agent u p m = Raise PointOutOfBounds.
Proof.
  intros Hb. unfold move_agent, torus_adj.
  apply bind_raise. run ltac:(reflexivity). rewrite Hb. reflexivity.
Qed.

(** [Animal.step], lines 201-217, once [get_target] has returned [t]. *)
Lemma seek_and_move_towards rnd self a p t o target_pos m m1 :
  get_target rnd self m = Ok (Some t, m1) ->
  objects m1 !! self = Some (OAnimal a) -> pos a = Some p ->
  objects m1 !! t = Some o -> obj_pos o = Some target_pos -> t <> self ->
  let new_pos := advance p target_pos (speed a) in
  seek_and_move rnd self m =
    if out_of_bounds (space m1) new_pos then Raise PointOutOfBounds
    else if in_list self (agents (space m1))
         then Ok (tt, after_move self a t new_pos m1)
         else Raise AgentNotInSpace.
Proof.
  intros Hg Ha Hp Ho Hop Hne new_pos. unfold seek_and_move.
  run ltac:(exact Hg). run_update. run_the_obj. rewrite Hop.
  destruct target_pos as [x_2 y_2].
  run_the_animal.
  run ltac:(eapply the_pos_ok; [find_obj | cbn [obj_pos set_target pos]; eassumption]).
  cbn [speed set_target].
  unfold new_pos, advance. cbn [fst snd].
  destruct (calc_move (fst p) (snd p) x_2 y_2 (speed a)) as [[[x y] dx] dy].
  cbn [fst snd]. rewrite never_flagged. unfold when.
  run ltac:(reflexivity).
  destruct (out_of_bounds (space m1) (x, y)) eqn:Hb.
  - apply bind_raise. apply move_agent_out. exact Hb.
  - destruct (in_list self (agents (space m1))) eqn:Hin.
    + apply bool_decide_eq_true in Hin.
      run ltac:(eapply move_agent_ok; [exact Hb | exact Hin | find_obj]).
      unfold after_move. cbn [set_obj_pos]. unfold emit, modify. f_equal. f_equal.
      unfold with_obj. model_simpl. rewrite insert_insert_eq. reflexivity.
    + apply bind_raise. unfold move_agent.
      cbv beta; erewrite bind_ok.
      2:{ unfold torus_adj. run ltac:(reflexivity). model_simpl. rewrite Hb. reflexivity. }
      cbv beta.
      run ltac:(reflexivity). model_simpl. rewrite Hin. reflexivity.
Qed.

Lemma with_obj_with_obj u o1 o2 m :
  with_obj u o2 (with_obj u o1 m) = with_obj u o2 m.
Proof. unfold with_obj. model_simpl. rewrite insert_insert_eq. reflexivity. Qed.

Lemma carry_and_bear_no_birth rnd self a m :
  objects m !! self = Some (OAnimal a) ->
  pregs a + AGE_T < 1 ->
  carry_and_bear rnd self m =
  Ok (tt, if pregs a !=? 0
          then with_obj self
                 (OAnimal (set_pregs (pregs a + AGE_T)
                             (set_food (food a - FOOD_PER_TICK / 3) a))) m
          else m).
Proof.
  intros Ha Hp. unfold carry_and_bear. run_the_animal.
  destruct (Reqb_spec (pregs a) 0) as [Hz|Hnz]; cbn [negb when]; [reflexivity|].
  run_update. run_update. run_the_animal.
  cbn [pregs set_pregs set_food]. rewrite (Rleb_false 1) by lra. cbn [when].
  rewrite with_obj_with_obj. reflexivity.
Qed.

Lemma Animal_step_lives_on rnd self a m :
  objects m !! self = Some (OAnimal a) ->
  alive a = true ->
  0 < food a - FOOD_PER_TICK ->
  age a + AGE_T <= max_age a ->
  pregs a + AGE_T < 1 ->
  (step_num m `mod` 10 <> 0)%Z ->
  Animal_step rnd self m =
  seek_and_move rnd self (with_obj self (OAnimal (lives_on a)) m).
Proof.
  intros Ha Hal Hf Hage Hp Hstep. unfold Animal_step.
  run_the_animal. rewrite Hal. cbn [negb].
  run_update. run_update. run ltac:(reflexivity). run_the_animal.
  cbn [food age max_age set_age set_food].
  rewrite (Rleb_false _ 0) by lra. rewrite (Rltb_false (max_age a)) by lra.
  rewrite with_obj_with_obj. model_simpl.
  rewrite (bool_decide_eq_false_2 _ Hstep). cbn [when].
  run ltac:(apply carry_and_bear_no_birth; [find_obj | cbn [pregs set_age set_food]; lra]).
  run ltac:(reflexivity).
  unfold lives_on. cbn [pregs set_age set_food food age].
  destruct (negb (pregs a =? 0)); [rewrite with_obj_with_obj|]; reflexivity.
Qed.

(** ** Every step is a sequence of elementary changes *)

Lemma bind_inv {A B} (c : M A) (f : A -> M B) m b m' :
  bind c f m = Ok (b, m') ->
  exists a m1, c m = Ok (a, m1) /\ f a m1 = Ok (b, m').
Proof.
  unfold bind. destruct (c m) as [[a m1]|e]; [|discriminate].
  intros H. exists a, m1. split; [reflexivity | assumption].
Qed.

Lemma mutates_bind self {A B} (c : M A) (f : A -> M B) m :
  mutates_at self c m ->
  (forall a m1, c m = Ok (a, m1) -> mutates_at self (f a) m1) ->
  mutates_at self (bind c f) m.
Proof.
  intros Hc Hf b m' H. apply bind_inv in H as (a & m1 & H1 & H2).
  eapply rtc_trans; [apply (Hc _ _ H1) | apply (Hf _ _ H1 _ _ H2)].
Qed.

Lemma mutates_ret self {A} (a : A) m : mutates_at self (ret a) m.
Proof. intros b m' [= _ <-]. apply rtc_refl. Qed.

Lemma mutates_raise self {A} e m : mutates_at self (@raise A e) m.
Proof. intros b m' [=]. Qed.

Lemma mutates_lift self {A} (r : Result A) m : mutates_at self (lift r) m.
Proof. intros b m'. unfold lift. destruct r; intros [=]. subst. apply rtc_refl. Qed.

Lemma mutates_one self (f : Prey_model -> Prey_model) m :
  mutation self m (f m) -> mutates_at self (modify f) m.
Proof. intros H b m' [= _ <-]. apply rtc_once. assumption. Qed.

Lemma mutates_when self (b : bool) c m :
  (b = true -> mutates_at self c m) -> mutates_at self (when b c) m.
Proof. destruct b; intros H; [apply H; reflexivity | apply mutates_ret]. Qed.

Lemma mutates_for_each self {A} (l : list A) body :
  (forall x m, mutates_at self (body x) m) ->
  forall m, mutates_at self (for_each l body) m.
Proof.
  intros Hb. induction l as [|x l IH]; intros m; cbn [for_each].
  - apply mutates_ret.
  - apply mutates_bind; [apply Hb | intros; apply IH].
Qed.

(** What a command that only reads tells. *)
Lemma get_inv m a m' : get m = Ok (a, m') -> a = m /\ m' = m.
Proof. intros [= <- <-]. split; reflexivity. Qed.

Lemma the_obj_inv u m o m' :
  the_obj u m = Ok (o, m') -> m' = m /\ objects m !! u = Some o.
Proof.
  unfold the_obj. destruct (objects m !! u); intros [=]. subst. split; reflexivity.
Qed.

Lemma the_animal_inv u m a m' :
  the_animal u m = Ok (a, m') -> m' = m /\ objects m !! u = Some (OAnimal a).
Proof.
  unfold the_animal. intros H. apply bind_inv in H as (o & m1 & H1 & H2).
  apply the_obj_inv in H1 as [-> H1]. destruct o; [discriminate|].
  injection H2 as <- <-. split; [reflexivity | assumption].
Qed.

Lemma the_patch_inv u m p m' :
  the_patch u m = Ok (p, m') -> m' = m /\ objects m !! u = Some (OPatch p).
Proof.
  unfold the_patch. intros H. apply bind_inv in H as (o & m1 & H1 & H2).
  apply the_obj_inv in H1 as [-> H1]. destruct o; [|discriminate].
  injection H2 as <- <-. split; [reflexivity | assumption].
Qed.

Lemma the_pos_inv u m p m' :
  the_pos u m = Ok (p, m') ->
  m' = m /\ exists o, objects m !! u = Some o /\ obj_pos o = Some p.
Proof.
  unfold the_pos. intros H. apply bind_inv in H as (o & m1 & H1 & H2).
  apply the_obj_inv in H1 as [-> H1]. destruct (obj_pos o) eqn:E; [|discriminate].
  injection H2 as <- <-. split; [reflexivity | eauto].
Qed.

Lemma get_neighbors_inv p r m l m' : get_neighbors p r m = Ok (l, m') -> m' = m.
Proof. intros [= _ <-]. reflexivity. Qed.

(** Reading leaves the state as it is. *)
Ltac mut_read H :=
  first [ apply get_inv in H as [-> ->]
        | apply the_animal_inv in H as [-> H]
        | apply the_patch_inv in H as [-> H]
        | apply the_pos_inv in H as [-> H]
        | apply the_obj_inv in H as [-> H]
        | apply get_neighbors_inv in H as -> ].

Lemma mutates_read self {A B} (c : M A) (f : A -> M B) m :
  (forall a m1, c m = Ok (a, m1) -> m1 = m) ->
  (forall a, c m = Ok (a, m) -> mutates_at self (f a) m) ->
  mutates_at self (bind c f) m.
Proof.
  intros Hc Hf. apply mutates_bind.
  - intros a m1 H. rewrite (Hc _ _ H). apply rtc_refl.
  - intros a m1 H. pose proof (Hc _ _ H) as ->. apply Hf. assumption.
Qed.

Lemma mutates_emit self e m :
  is_patch_update e = false -> mutates_at self (emit e) m.
Proof. intros H. apply mutates_one. apply M_emit. assumption. Qed.

Lemma mutates_update_animal self u f m :
  (forall a, objects m !! u = Some (OAnimal a) ->
     mutation self m (with_obj u (OAnimal (f a)) m)) ->
  mutates_at self (update_animal u f) m.
Proof.
  intros Hf b m' H. unfold update_animal in H.
  apply bind_inv in H as (a & m1 & H1 & H2). apply the_animal_inv in H1 as [-> H1].
  injection H2 as _ <-. apply rtc_once. apply Hf. assumption.
Qed.

Lemma same_vital_refl a : same_vital a a.
Proof. repeat split. Qed.

Lemma mutates_update_attr self u f m :
  (forall a, same_vital a (f a)) -> mutates_at self (update_animal u f) m.
Proof.
  intros Hf. apply mutates_update_animal. intros a Ha. apply M_attr with a; auto.
Qed.

Ltac mut_known H :=
  first [ apply get_inv in H as [-> _]
        | apply the_animal_inv in H as [_ H]
        | apply the_patch_inv in H as [_ H]
        | apply the_pos_inv in H as [_ H]
        | apply the_obj_inv in H as [_ H]
        | clear H ].

Ltac mut_reading :=
  apply mutates_read;
  [ let H := fresh in intros ? ? H; mut_read H; reflexivity
  | let H := fresh "Hread" in intros ? H; mut_known H ].

Lemma mutates_emit_then self {B} e (k : unit -> M B) m :
  is_patch_update e = false ->
  mutates_at self (k tt) (set_out (e :: out m) m) ->
  mutates_at self (bind (emit e) k) m.
Proof.
  intros He Hk. apply mutates_bind.
  - apply mutates_emit. assumption.
  - intros [] m1 [= <-]. exact Hk.
Qed.

Lemma mutates_lift_then self {A B} (r : Result A) (k : A -> M B) m :
  (forall a, r = Ok a -> mutates_at self (k a) m) ->
  mutates_at self (bind (lift r) k) m.
Proof.
  intros H. apply mutates_bind; [apply mutates_lift|].
  intros a m1 H1. unfold lift in H1. destruct r as [a'|]; [|discriminate].
  injection H1 as <- <-. apply H. reflexivity.
Qed.

Create HintDb mutates.

Ltac mut_auto :=
  repeat lazymatch goal with
    | |- mutates_at _ (ret _) _ => apply mutates_ret
    | |- mutates_at _ (raise _) _ => apply mutates_raise
    | |- mutates_at _ (lift _) _ => apply mutates_lift
    | |- mutates_at _ (emit _) _ => apply mutates_emit; reflexivity
    | |- mutates_at _ (when _ _) _ => apply mutates_when; intros ?
    | |- mutates_at _ (bind (emit _) _) _ =>
        apply mutates_emit_then; [reflexivity|]
    | |- mutates_at _ (bind (lift _) _) _ =>
        apply mutates_lift_then; intros ? ?
    | |- mutates_at _ (bind get _) _ => mut_reading
    | |- mutates_at _ (bind (the_obj _) _) _ => mut_reading
    | |- mutates_at _ (bind (the_animal _) _) _ => mut_reading
    | |- mutates_at _ (bind (the_patch _) _) _ => mut_reading
    | |- mutates_at _ (bind (the_pos _) _) _ => mut_reading
    | |- mutates_at _ (bind (get_neighbors _ _) _) _ => mut_reading
    | |- mutates_at _ (bind _ _) _ => apply mutates_bind; [| intros ? ? _]
    | |- mutates_at _ (if ?b then _ else _) _ => destruct b eqn:?
    | |- mutates_at _ (match ?x with _ => _ end) _ => destruct x eqn:?
    | |- mutates_at _ (update_animal _ _) _ =>
        solve [ apply mutates_update_attr; intros ?; repeat split; reflexivity ]
    | |- mutates_at _ (modify _) _ =>
        apply mutates_one;
        solve [ apply M_count | apply M_Prey_count | apply M_Tiger_count
              | apply M_unschedule | apply M_calendar ]
    | |- mutates_at _ _ _ => solve [ auto with mutates ]
    end.

Lemma mutates_remove_agent self m : mutates_at self (remove_agent self) m.
Proof.
  intros b m' H. unfold remove_agent in H.
  apply bind_inv in H as (m0 & m1 & H1 & H2). apply get_inv in H1 as [-> ->].
  destruct (in_list self (agents (space m))); [|discriminate].
  apply bind_inv in H2 as (? & m1 & H1 & H2). injection H1 as _ <-.
  apply bind_inv in H2 as (o & m1 & H1 & H2). apply the_obj_inv in H1 as [-> H1].
  injection H2 as _ <-. apply rtc_once. apply M_remove. exact H1.
Qed.

Lemma mutates_schedule_remove self m : mutates_at self (schedule_remove self) m.
Proof. unfold schedule_remove. mut_auto. Qed.

#[export] Hint Resolve mutates_remove_agent mutates_schedule_remove : mutates.

Lemma mutates_kill self m : mutates_at self (kill self) m.
Proof.
  unfold kill. mut_auto.
Qed.

#[export] Hint Resolve mutates_kill : mutates.

Lemma set_speed_inv a a' :
  set_speed a = Ok a' ->
  exists v, a' = set_speed_field v a.
Proof.
  unfold set_speed. destruct (get_speed _ _ _) as [s|]; [|discriminate].
  intros [= <-]. cbn [pregs set_speed_field].
  destruct (negb (pregs a =? 0)); eexists; reflexivity.
Qed.

Lemma species_init_inv ty g noise age0 a :
  species_init ty g noise age0 = Ok a ->
  type a = ty /\ pregs a = 0 /\ alive a = true /\ gender a = g /\
  target a = None /\ age a = age0.
Proof.
  unfold species_init, Prey_init, Tiger_init.
  destruct ty; cbn [bool_decide decide_rel]; intros H;
    apply set_speed_inv in H as [v ->]; cbn; repeat split; reflexivity.
Qed.

Lemma place_agent_inv u p m b m' :
  place_agent u p m = Ok (b, m') ->
  out_of_bounds (space m) p = false /\
  exists o, objects m !! u = Some o /\
    m' = with_obj u (set_obj_pos (Some p) o)
           (set_agents (agents (space m) ++ [u]) m).
Proof.
  unfold place_agent, torus_adj. intros H.
  apply bind_inv in H as (p' & m1 & H1 & H).
  apply bind_inv in H1 as (m0 & m2 & H0 & H1). apply get_inv in H0 as [-> ->].
  destruct (out_of_bounds (space m) p) eqn:Hb; [discriminate|].
  injection H1 as <- <-. split; [reflexivity|].
  apply bind_inv in H as ([] & m1 & H1 & H). injection H1 as <-.
  apply bind_inv in H as (o & m1 & H1 & H). apply the_obj_inv in H1 as [-> H1].
  injection H as _ <-. exists o. split; [exact H1 | reflexivity].
Qed.

Lemma emit_inv e m b m' :
  emit e m = Ok (b, m') -> m' = set_out (e :: out m) m.
Proof. unfold emit, modify. intros H. injection H as _ <-. reflexivity. Qed.

Lemma create_baby_inv x y age ty g noise m b m' :
  create_baby x y age ty g noise m = Ok (b, m') ->
  exists a, species_init ty g noise age = Ok a /\
    out_of_bounds (space m) (x, y) = false /\
    m' = after_birth a (x, y) m.
Proof.
  unfold create_baby, species_init. intros H.
  apply bind_inv in H as (u & m1 & H1 & H).
  assert (exists a, (if bool_decide (ty = Prey) then Prey_init g noise age
                     else Tiger_init g noise age) = Ok a /\
            u = (last_uid m + 1)%nat /\
            m1 = (let m := with_obj u (OAnimal a) (set_last_uid u m) in
                  if bool_decide (type a = Prey)
                  then set_Prey_count (Prey_count m + 1) m
                  else set_Tiger_count (Tiger_count m + 1) m)) as (a & Ha & -> & ->).
  { destruct (bool_decide (ty = Prey)) eqn:Ety.
    - apply bool_decide_eq_true in Ety. subst ty.
      apply bind_inv in H1 as (u' & m2 & H2 & H1). injection H2 as <- <-.
      apply bind_inv in H1 as (a & m2 & H2 & H1). unfold lift in H2.
      destruct (Prey_init g noise age) as [a'|] eqn:Ei; [|discriminate].
      injection H2 as <- <-.
      pose proof (species_init_inv Prey g noise age a') as Hs.
      unfold species_init in Hs. cbn [bool_decide decide_rel] in Hs.
      destruct (Hs Ei) as (Ht & _). fold (bool_decide (Prey = Prey)) in Hs.
      injection H1 as <- <-. exists a'. rewrite Ht. repeat split; reflexivity.
    - apply bool_decide_eq_false in Ety.
      apply bind_inv in H1 as (u' & m2 & H2 & H1). injection H2 as <- <-.
      apply bind_inv in H1 as (a & m2 & H2 & H1). unfold lift in H2.
      destruct (Tiger_init g noise age) as [a'|] eqn:Ei; [|discriminate].
      injection H2 as <- <-.
      assert (Ht : type a' = Tiger).
      { unfold Tiger_init in Ei. apply set_speed_inv in Ei as [v ->]. reflexivity. }
      injection H1 as <- <-. exists a'. rewrite Ht. repeat split; reflexivity. }
  exists a. split; [exact Ha|]. clear H1.
  unfold after_birth. cbv zeta in *.
  destruct (bool_decide (type a = Prey)).
  all: apply bind_inv in H as ([] & m1 & H1 & H); injection H1 as <-.
  all: apply bind_inv in H as ([] & m1 & H1 & H).
  all: apply place_agent_inv in H1 as (Hb & o & Ho & ->).
  all: split; [exact Hb|].
  all: apply bind_inv in H as ([] & m1 & H1 & H); injection H1 as <-.
  all: apply emit_inv in H.
  all: model_simpl_in Ho; rewrite lookup_insert_eq in Ho; injection Ho as <-.
  all: exact H.
Qed.

Lemma mutates_create_baby self x y age ty g noise m :
  mutates_at self (create_baby x y age ty g noise) m.
Proof.
  intros b m' H. apply create_baby_inv in H as (a & Hi & Hb & ->).
  apply species_init_inv in Hi as (_ & Hp & Hal & _).
  apply rtc_once. apply M_birth; assumption.
Qed.

#[export] Hint Resolve mutates_create_baby : mutates.

Lemma mutates_Patch_munch self u m : mutates_at self (Patch_munch u) m.
Proof.
  intros b m' H. unfold Patch_munch in H.
  apply bind_inv in H as ([] & m1 & H1 & H).
  unfold update_patch in H1. apply bind_inv in H1 as (p & m2 & H2 & H1).
  apply the_patch_inv in H2 as [-> H2]. injection H1 as <-.
  apply bind_inv in H as ([] & m1 & H1 & H).
  unfold Patch_update in H1. apply bind_inv in H1 as (p' & m2 & H3 & H1).
  apply the_patch_inv in H3 as [-> H3]. model_simpl_in H3.
  rewrite lookup_insert_eq in H3. injection H3 as <-. injection H1 as <-.
  apply bind_inv in H as (m0 & m1 & H1 & H). apply get_inv in H1 as [-> ->].
  injection H as _ <-.
  eapply rtc_l. { apply (M_munch self m u p). exact H2. }
  match goal with |- rtc _ ?m1 _ => apply rtc_once; exact (M_calendar self m1 u) end.
Qed.

#[export] Hint Resolve mutates_Patch_munch : mutates.

Lemma mutates_Patch_regrow self u m : mutates_at self (Patch_regrow u) m.
Proof.
  intros b m' H. unfold Patch_regrow in H.
  apply bind_inv in H as ([] & m1 & H1 & H).
  unfold update_patch in H1. apply bind_inv in H1 as (p & m2 & H2 & H1).
  apply the_patch_inv in H2 as [-> H2]. injection H1 as <-.
  unfold Patch_update in H. apply bind_inv in H as (p' & m2 & H3 & H).
  apply the_patch_inv in H3 as [-> H3]. model_simpl_in H3.
  rewrite lookup_insert_eq in H3. injection H3 as <-. injection H as _ <-.
  apply rtc_once. apply (M_regrow self m u p). exact H2.
Qed.

#[export] Hint Resolve mutates_Patch_regrow : mutates.

Lemma mutates_update_then self {B} u f (k : unit -> M B) m :
  (forall a, objects m !! u = Some (OAnimal a) ->
     mutation self m (with_obj u (OAnimal (f a)) m) /\
     mutates_at self (k tt) (with_obj u (OAnimal (f a)) m)) ->
  mutates_at self (bind (update_animal u f) k) m.
Proof.
  intros H. apply mutates_bind.
  - apply mutates_update_animal. intros a Ha. apply (H a Ha).
  - intros [] m1 H1. unfold update_animal in H1.
    apply bind_inv in H1 as (a & m2 & H2 & H1). apply the_animal_inv in H2 as [-> H2].
    injection H1 as <-. apply (H a H2).
Qed.

Lemma can_mate_female a : can_mate a = true -> gender a = Female.
Proof.
  unfold can_mate. rewrite !andb_true_iff. intros [[[H _] _] _].
  apply bool_decide_eq_true in H. exact H.
Qed.

Lemma mutates_reach_target self a self_pos m :
  mutates_at self (reach_target self a self_pos) m.
Proof.
  unfold reach_target. mut_auto.
  - (* eaten: the target is marked dead *)
    apply mutates_update_animal. intros b Hb. apply M_dead. exact Hb.
  - (* mated *)
    apply mutates_update_animal. intros b Hb. model_simpl_in Hb.
    apply M_pregs; [exact Hb|]. right.
    match goal with H : _ && obj_can_mate ?o = true |- _ =>
      apply andb_true_iff in H as [_ H] end.
    rewrite Hread in Hb. injection Hb as ->. apply can_mate_female. assumption.
Qed.

#[export] Hint Resolve mutates_reach_target : mutates.

Lemma mutates_find_food self rnd a p m : mutates_at self (find_food rnd a p) m.
Proof. unfold find_food. mut_auto. Qed.

Lemma mutates_find_mate_or_wander self a l m :
  mutates_at self (find_mate_or_wander a l) m.
Proof. unfold find_mate_or_wander. mut_auto. Qed.

#[export] Hint Resolve mutates_find_food mutates_find_mate_or_wander : mutates.

Lemma mutates_get_target self rnd m : mutates_at self (get_target rnd self) m.
Proof. unfold get_target. mut_auto. Qed.

#[export] Hint Resolve mutates_get_target : mutates.

Lemma mutates_move_agent self u p m : mutates_at self (move_agent u p) m.
Proof.
  intros b m' H. unfold move_agent, torus_adj in H.
  apply bind_inv in H as (p' & m1 & H1 & H).
  apply bind_inv in H1 as (m0 & m2 & H0 & H1). apply get_inv in H0 as [-> ->].
  destruct (out_of_bounds (space m) p) eqn:Hb; [discriminate|].
  injection H1 as <- <-.
  apply bind_inv in H as (m0 & m1 & H0 & H). apply get_inv in H0 as [-> ->].
  destruct (in_list u (agents (space m))) eqn:Hin; [|discriminate].
  apply bool_decide_eq_true in Hin.
  apply bind_inv in H as (o & m1 & H1 & H). apply the_obj_inv in H1 as [-> H1].
  injection H as _ <-. apply rtc_once. apply M_move; assumption.
Qed.

#[export] Hint Resolve mutates_move_agent : mutates.

Lemma mutates_seek_and_move self rnd m : mutates_at self (seek_and_move rnd self) m.
Proof. unfold seek_and_move. mut_auto. Qed.

Lemma mutates_carry_and_bear self rnd m : mutates_at self (carry_and_bear rnd self) m.
Proof.
  unfold carry_and_bear. mut_reading. apply mutates_when. intros Hp.
  apply negb_true_iff in Hp. destruct (Reqb_spec (pregs a) 0) as [|Hnz]; [discriminate|].
  apply mutates_update_then. intros a0 Ha0. rewrite Hread in Ha0. injection Ha0 as <-.
  split; [apply M_attr with a; [assumption | repeat split]|].
  apply mutates_update_then. intros a1 Ha1. model_simpl_in Ha1.
  rewrite lookup_insert_eq in Ha1. injection Ha1 as <-.
  split; [apply M_pregs; [find_obj | left; exact Hnz]|].
  mut_reading. apply mutates_when. intros Hge.
  apply mutates_update_then. intros a2 Ha2. rewrite Hread0 in Ha2. injection Ha2 as <-.
  split.
  { apply M_pregs; [exact Hread0|]. left.
    destruct (Rleb_spec 1 (pregs a0)); [lra | discriminate]. }
  mut_auto. apply mutates_for_each. intros x m1. mut_auto.
Qed.

#[export] Hint Resolve mutates_seek_and_move mutates_carry_and_bear : mutates.

Lemma mutates_Animal_step self rnd m : mutates_at self (Animal_step rnd self) m.
Proof.
  unfold Animal_step. mut_auto.
  match goal with H : set_speed _ = Ok _ |- _ => apply set_speed_inv in H as [v ->] end.
  apply mutates_one. eapply M_attr; [eassumption | repeat split].
Qed.

(** ** Invariants of the elementary changes *)

(** A change leaves the objects alone, or changes one that exists, or adds
    one under the next uid. *)
Lemma mutation_cases self m m' :
  mutation self m m' ->
  (objects m' = objects m /\ last_uid m' = last_uid m) \/
  (exists u o o', objects m !! u = Some o /\ obj_step o o' /\
     objects m' = <[u := o']> (objects m) /\ last_uid m' = last_uid m) \/
  (exists o', is_newborn o' /\
     objects m' = <[(last_uid m + 1)%nat := o']> (objects m) /\
     last_uid m' = (last_uid m + 1)%nat).
Proof.
  intros H. destruct H.
  - right; left. exists u, (OAnimal a), (OAnimal a'). split; [assumption|].
    split; [|split; reflexivity].
    destruct H0 as (Hg & Hp & _ & Hal & Hty).
    constructor; [assumption | assumption | congruence | left; assumption].
  - right; left. exists u, (OAnimal a), (OAnimal (set_pregs v a)). split; [assumption|].
    split; [|split; reflexivity]. constructor; auto.
  - right; left. exists u, (OAnimal a), (OAnimal (set_alive false a)). split; [assumption|].
    split; [|split; reflexivity]. constructor; auto.
  - right; left. exists u, o, (set_obj_pos (Some p) o). split; [assumption|].
    split; [|split; reflexivity]. destruct o; constructor; auto.
  - right; right. exists (OAnimal (set_pos (Some p) a)). split; [exact H|].
    unfold after_birth. cbv zeta. destruct (bool_decide (type a = Prey)); model_simpl.
    all: rewrite insert_insert_eq; split; reflexivity.
  - right; right. exists (OPatch (set_patch_pos (Some p) pt)). split; [exact I|].
    unfold after_patch. cbv zeta. model_simpl.
    rewrite insert_insert_eq; split; reflexivity.
  - right; left. exists self, o, (set_obj_pos None o). split; [assumption|].
    split; [|split; reflexivity]. destruct o; constructor; auto.
  - left; split; reflexivity.
  - left; split; reflexivity.
  - left; split; reflexivity.
  - left; split; reflexivity.
  - left; split; reflexivity.
  - right; left. exists u, (OPatch p), (OPatch (set_grass 0 p)). split; [assumption|].
    split; [|split; reflexivity]. constructor. reflexivity.
  - right; left. exists u, (OPatch p), (OPatch (set_grass 1 p)). split; [assumption|].
    split; [|split; reflexivity]. constructor. reflexivity.
  - left; split; reflexivity.
Qed.

Lemma mutation_bounded self m m' : mutation self m m' -> bounded m -> bounded m'.
Proof.
  intros H Hb u Hu.
  destruct (mutation_cases _ _ _ H)
    as [[Ho Hl] | [(v & o & o' & Hv & _ & Ho & Hl) | (o' & _ & Ho & Hl)]];
    rewrite Ho in Hu; rewrite Hl.
  - apply Hb. exact Hu.
  - destruct (decide (u = v)) as [->|Hne].
    + apply Hb. eauto.
    + rewrite lookup_insert_ne in Hu by congruence. apply Hb. exact Hu.
  - destruct (decide (u = (last_uid m + 1)%nat)) as [->|Hne]; [lia|].
    rewrite lookup_insert_ne in Hu by congruence. apply Hb in Hu. lia.
Qed.

(** An object that exists goes on existing, as [obj_step] allows. *)
Lemma mutation_obj self m m' u o :
  mutation self m m' -> bounded m -> objects m !! u = Some o ->
  exists o', objects m' !! u = Some o' /\ (o' = o \/ obj_step o o').
Proof.
  intros H Hb Hu.
  destruct (mutation_cases _ _ _ H)
    as [[Ho Hl] | [(v & o1 & o' & Hv & Hs & Ho & Hl) | (o' & _ & Ho & Hl)]];
    rewrite Ho.
  - eauto.
  - destruct (decide (u = v)) as [->|Hne].
    + rewrite lookup_insert_eq. rewrite Hv in Hu. injection Hu as ->. eauto.
    + rewrite lookup_insert_ne by congruence. eauto.
  - assert (u <= last_uid m)%nat by (apply Hb; eauto).
    rewrite lookup_insert_ne by lia. eauto.
Qed.

Lemma mutation_males self m m' :
  mutation self m m' -> males_not_pregnant m -> males_not_pregnant m'.
Proof.
  intros H Hm u a Hu Hg.
  destruct (mutation_cases _ _ _ H)
    as [[Ho Hl] | [(v & o1 & o' & Hv & Hs & Ho & Hl) | (o' & Hn & Ho & Hl)]];
    rewrite Ho in Hu.
  - eapply Hm; eassumption.
  - destruct (decide (u = v)) as [->|Hne].
    + rewrite lookup_insert_eq in Hu. injection Hu as ->.
      inversion Hs as [a0 a1 Hg' Hty Hal Hp |]; subst.
      rewrite Hg' in Hg. pose proof (Hm _ _ Hv Hg) as Hz.
      destruct Hp as [Hp | [Hp | Hp]]; [congruence | contradiction | congruence].
    + rewrite lookup_insert_ne in Hu by congruence. eapply Hm; eassumption.
  - destruct (decide (u = (last_uid m + 1)%nat)) as [->|Hne].
    + rewrite lookup_insert_eq in Hu. injection Hu as ->. exact Hn.
    + rewrite lookup_insert_ne in Hu by congruence. eapply Hm; eassumption.
Qed.

Lemma mutations_bounded self m m' : mutations self m m' -> bounded m -> bounded m'.
Proof. induction 1; eauto using mutation_bounded. Qed.

Lemma mutations_males self m m' :
  mutations self m m' -> males_not_pregnant m -> males_not_pregnant m'.
Proof. induction 1; eauto using mutation_males. Qed.

(** What a change may do to the schedule and to the space. *)
Lemma mutation_lists self m m' :
  mutation self m m' ->
  (last_uid m <= last_uid m')%nat /\
  (schedule m' = schedule m \/ schedule m' = remove_uid self (schedule m) \/
   schedule m' = schedule m ++ [(last_uid m + 1)%nat]) /\
  (agents (space m') = agents (space m) \/
   agents (space m') = remove_uid self (agents (space m)) \/
   agents (space m') = agents (space m) ++ [(last_uid m + 1)%nat]) /\
  step_num m' = step_num m /\
  x_max (space m') = x_max (space m) /\ y_max (space m') = y_max (space m).
Proof.
  intros H. destruct H; unfold after_birth, after_patch; cbv zeta;
    try (destruct (bool_decide (type a = Prey)));
    try subst m'; try subst p'; model_simpl;
    (split; [lia|]); repeat split; auto.
Qed.

Lemma mutation_gone self d m m' : mutation self m m' -> gone d m -> gone d m'.
Proof.
  intros H (Hs & Ha & Hl).
  destruct (mutation_lists _ _ _ H) as (Hl' & Hs' & Ha' & _).
  unfold gone. split; [|split; [|lia]].
  - destruct Hs' as [-> | [-> | ->]]; [assumption | |].
    + rewrite in_remove_uid. tauto.
    + rewrite elem_of_app, list_elem_of_singleton. intros [?|?]; [tauto | lia].
  - destruct Ha' as [-> | [-> | ->]]; [assumption | |].
    + rewrite in_remove_uid. tauto.
    + rewrite elem_of_app, list_elem_of_singleton. intros [?|?]; [tauto | lia].
Qed.

Lemma mutation_dead_waiting self d m m' :
  mutation self m m' -> self <> d -> bounded m ->
  dead_waiting d m -> dead_waiting d m'.
Proof.
  intros H Hne Hb (Hs & a & Ha & Hal).
  destruct (mutation_lists _ _ _ H) as (_ & Hs' & _).
  split.
  - destruct Hs' as [-> | [-> | ->]]; [assumption | |].
    + rewrite in_remove_uid. split; [congruence | assumption].
    + rewrite elem_of_app. left. assumption.
  - destruct (mutation_obj _ _ _ _ _ H Hb Ha) as (o' & Ho' & [-> | Hstep]).
    + eauto.
    + inversion Hstep; subst. eauto.
Qed.

Lemma mutations_gone self d m m' : mutations self m m' -> gone d m -> gone d m'.
Proof. induction 1; eauto using mutation_gone. Qed.

Lemma mutations_dead_waiting self d m m' :
  mutations self m m' -> self <> d -> bounded m ->
  dead_waiting d m -> dead_waiting d m'.
Proof.
  induction 1; [auto|]. intros Hne Hb Hd.
  apply IHrtc; eauto using mutation_bounded, mutation_dead_waiting.
Qed.

(** ** The structure of one tick *)

Lemma remove_nth_Permutation {A} (l : list A) i x :
  nth_error l i = Some x -> Permutation l (x :: remove_nth i l).
Proof.
  revert i. induction l as [|y l IH]; intros [|i] H; cbn in *; try discriminate.
  - injection H as ->. reflexivity.
  - rewrite (IH _ H) at 1. apply perm_swap.
Qed.

Lemma shuffle_Permutation {A} choices (l : list A) : Permutation l (shuffle choices l).
Proof.
  revert l. induction choices as [|c cs IH]; intros l; cbn [shuffle]; [reflexivity|].
  destruct (nth_error l (c mod length l)) as [x|] eqn:E; [|reflexivity].
  rewrite (remove_nth_Permutation _ _ _ E) at 1. constructor. apply IH.
Qed.

Lemma elem_of_shuffle {A} choices (l : list A) x : x ∈ shuffle choices l <-> x ∈ l.
Proof. rewrite <- (shuffle_Permutation choices l). reflexivity. Qed.

Lemma Prey_model_step_inv rnd m m' :
  Prey_model_step rnd m = Ok (tt, m') ->
  exists m1 m2, tick_prefix m m1 /\ schedule_step rnd m1 = Ok (tt, m2) /\
    (m' = m2 \/ m' = set_out (Print_poem (step_num m2) :: out m2) m2).
Proof.
  unfold Prey_model_step, tick_prefix. intros H.
  apply bind_inv in H as ([] & m0 & H0 & H). injection H0 as <-.
  apply bind_inv in H as (mx & m0' & H0 & H). apply get_inv in H0 as [-> ->].
  apply bind_inv in H as ([] & m1 & H1 & H).
  apply bind_inv in H as ([] & m2 & H2 & H).
  apply bind_inv in H as (mx & m2' & H0 & H). apply get_inv in H0 as [-> ->].
  exists m1, m2. model_simpl_in H1. cbv zeta. split; [|split; [exact H2|]].
  - destruct (grass_ticks m !! (step_num m + 1)%Z) as [due|].
    + apply bind_inv in H1 as ([] & mr & Hr & H1). injection H1 as <-.
      exists mr. split; [exact Hr | reflexivity].
    + injection H1 as <-. reflexivity.
  - unfold when in H. destruct (count m2 <=? 0)%Z; injection H as <-; auto.
Qed.

(** Any property that the elementary changes keep, and that does not depend
    on the tick counter or on the calendar, is kept by a tick. *)
Section Preserved.
Variable I : Prey_model -> Prop.
Hypothesis I_mutation : forall self m m', mutation self m m' -> I m -> I m'.
Hypothesis I_step_num : forall m v, I m -> I (set_step_num v m).
Hypothesis I_grass_ticks : forall m v, I m -> I (set_grass_ticks v m).

Lemma mutations_preserve self m m' : mutations self m m' -> I m -> I m'.
Proof using I_mutation. induction 1; eauto. Qed.

Lemma mutates_preserve self {A} (c : M A) m a m' :
  mutates_at self c m -> c m = Ok (a, m') -> I m -> I m'.
Proof using I_mutation. intros Hc H. eapply mutations_preserve, Hc, H. Qed.

Lemma schedule_loop_preserves rnd keys m m' :
  for_each keys (fun key =>
    do m <- get;
    when (in_list key (schedule m)) (Animal_step (agent_random rnd key) key)) m
  = Ok (tt, m') ->
  I m -> I m'.
Proof using I_mutation.
  revert m. induction keys as [|k ks IH]; intros m H Hm.
  - injection H as <-. exact Hm.
  - cbn [for_each] in H. apply bind_inv in H as ([] & m1 & H1 & H).
    apply (IH m1 H).
    apply bind_inv in H1 as (mx & m0' & H0 & H1). apply get_inv in H0 as [-> ->].
    unfold when in H1. destruct (in_list k (schedule m)).
    + eapply mutates_preserve; [apply mutates_Animal_step | exact H1 | exact Hm].
    + injection H1 as <-. exact Hm.
Qed.

Lemma schedule_step_preserves rnd m m' :
  schedule_step rnd m = Ok (tt, m') -> I m -> I m'.
Proof using I_mutation.
  unfold schedule_step. intros H.
  apply bind_inv in H as (mx & m0 & H0 & H). apply get_inv in H0 as [-> ->].
  eapply schedule_loop_preserves. exact H.
Qed.

Lemma tick_prefix_preserves m m1 : tick_prefix m m1 -> I m -> I m1.
Proof using I_mutation I_step_num I_grass_ticks.
  unfold tick_prefix. cbv zeta. intros H Hm.
  destruct (grass_ticks m !! (step_num m + 1)%Z) as [due|].
  - destruct H as (mr & Hr & ->). apply I_grass_ticks.
    eapply (mutates_preserve 0%nat); [| exact Hr | apply I_step_num, Hm].
    apply mutates_for_each. intros; apply mutates_Patch_regrow.
  - subst m1. apply I_step_num, Hm.
Qed.

Lemma Prey_model_step_preserves rnd m m' :
  Prey_model_step rnd m = Ok (tt, m') -> I m -> I m'.
Proof using I_mutation I_step_num I_grass_ticks.
  intros H Hm. apply Prey_model_step_inv in H as (m1 & m2 & Hp & Hs & Hm').
  assert (I m2).
  { eapply schedule_step_preserves; [exact Hs|]. eapply tick_prefix_preserves; eassumption. }
  destruct Hm' as [-> | ->]; [assumption|].
  eapply (I_mutation 0%nat); [|eassumption]. apply M_emit. reflexivity.
Qed.
End Preserved.

(** ** The construction, as elementary changes *)

Lemma new_uid_inv m u m' :
  new_uid m = Ok (u, m') ->
  u = (last_uid m + 1)%nat /\ m' = set_last_uid u m.
Proof.
  unfold new_uid. intros H.
  apply bind_inv in H as (mx & m0 & H0 & H). apply get_inv in H0 as [-> ->].
  apply bind_inv in H as ([] & m1 & H1 & H). injection H1 as <-.
  injection H as <- <-. split; reflexivity.
Qed.

Lemma create_patch_inv rnd i xy m b m' :
  create_patch rnd i xy m = Ok (b, m') ->
  let p := (IZR (fst xy), IZR (snd xy)) in
  out_of_bounds (space m) p = false /\
  m' = after_patch (Patch_init (patch_random rnd i)) p m.
Proof.
  unfold create_patch. intros H.
  apply bind_inv in H as (u & m1 & H1 & H). apply new_uid_inv in H1 as [-> ->].
  apply bind_inv in H as ([] & m1 & H1 & H). injection H1 as <-.
  apply bind_inv in H as ([] & m1 & H1 & H).
  apply place_agent_inv in H1 as (Hb & o & Ho & ->).
  model_simpl_in Ho. rewrite lookup_insert_eq in Ho. injection Ho as <-.
  injection H as _ <-. split; [exact Hb | reflexivity].
Qed.

Lemma mutates_create_patch self rnd i xy m : mutates_at self (create_patch rnd i xy) m.
Proof.
  intros b m' H. apply create_patch_inv in H as [Hb ->].
  apply rtc_once. apply M_patch. exact Hb.
Qed.

Lemma mutates_create_animal self rnd ty i m :
  mutates_at self (create_animal rnd ty i) m.
Proof.
  unfold create_animal, randrange. mut_auto.
  all: apply mutates_bind; [mut_auto | intros ? ? _; mut_auto].
  all: apply mutates_bind; [mut_auto | intros ? ? _; mut_auto].
Qed.

Lemma mutates_for_each_indexed self {A} (l : list A) body :
  (forall i x m, mutates_at self (body i x) m) ->
  forall i m, mutates_at self (for_each_indexed i l body) m.
Proof.
  intros Hb. induction l as [|x l IH]; intros i m; cbn [for_each_indexed].
  - apply mutates_ret.
  - apply mutates_bind; [apply Hb | intros; apply IH].
Qed.

Lemma Prey_model_init_mutations rnd Prey_count Tiger_count width height m :
  Prey_model_init rnd Prey_count Tiger_count width height = Ok m ->
  mutations 0%nat (empty_model width height) m.
Proof.
  unfold Prey_model_init. intros H.
  match type of H with
  | match ?c with _ => _ end = _ => destruct c as [[[] m']|e] eqn:E
  end; [|discriminate].
  injection H as <-.
  revert E. generalize (empty_model width height). intros m0 E.
  eapply (mutates_bind 0%nat); [| | exact E].
  - apply mutates_for_each_indexed. intros. apply mutates_create_patch.
  - intros ? m1 _. apply mutates_bind.
    + apply mutates_for_each. intros. apply mutates_create_animal.
    + intros ? m2 _. apply mutates_for_each. intros. apply mutates_create_animal.
Qed.

(** ** Invariants of the reachable states *)

Lemma bounded_empty width height : bounded (empty_model width height).
Proof. intros u [o Ho]. cbn in Ho. rewrite lookup_empty in Ho. discriminate. Qed.

Lemma males_empty width height : males_not_pregnant (empty_model width height).
Proof. intros u a Ho. cbn in Ho. rewrite lookup_empty in Ho. discriminate. Qed.

Lemma reachable_bounded m : reachable m -> bounded m.
Proof.
  induction 1 as [rnd pc tc w h m H | rnd m m' _ IH H].
  - eapply mutations_bounded; [eapply Prey_model_init_mutations; exact H|].
    apply bounded_empty.
  - eapply (Prey_model_step_preserves bounded); try exact H; try exact IH.
    + intros self m1 m2. apply mutation_bounded.
    + intros m1 v Hb. exact Hb.
    + intros m1 v Hb. exact Hb.
Qed.

Lemma reachable_males m : reachable m -> males_not_pregnant m.
Proof.
  induction 1 as [rnd pc tc w h m H | rnd m m' _ IH H].
  - eapply mutations_males; [eapply Prey_model_init_mutations; exact H|].
    apply males_empty.
  - eapply (Prey_model_step_preserves males_not_pregnant); try exact H; try exact IH.
    + intros self m1 m2. apply mutation_males.
    + intros m1 v Hb. exact Hb.
    + intros m1 v Hb. exact Hb.
Qed.

(** ** Dead animals leave at their own turn *)

Lemma remove_agent_inv u m b m' :
  remove_agent u m = Ok (b, m') ->
  exists o, objects m !! u = Some o /\
    m' = with_obj u (set_obj_pos None o)
           (set_agents (remove_uid u (agents (space m))) m).
Proof.
  unfold remove_agent. intros H.
  apply bind_inv in H as (m0 & m1 & H1 & H2). apply get_inv in H1 as [-> ->].
  destruct (in_list u (agents (space m))); [|discriminate].
  apply bind_inv in H2 as (? & m1 & H1 & H2). injection H1 as _ <-.
  apply bind_inv in H2 as (o & m1 & H1 & H2). apply the_obj_inv in H1 as [-> H1].
  injection H2 as _ <-. eauto.
Qed.

Lemma schedule_remove_inv u m b m' :
  schedule_remove u m = Ok (b, m') ->
  m' = set_schedule (remove_uid u (schedule m)) m.
Proof.
  unfold schedule_remove. intros H.
  apply bind_inv in H as (m0 & m1 & H1 & H2). apply get_inv in H1 as [-> ->].
  destruct (in_list u (schedule m)); [|discriminate].
  injection H2 as _ <-. reflexivity.
Qed.

Lemma kill_inv u m b m' :
  kill u m = Ok (b, m') ->
  exists a, objects m !! u = Some (OAnimal a) /\ m' = after_kill u a m.
Proof.
  unfold kill, after_kill. intros H.
  apply bind_inv in H as (a & m0 & H0 & H). apply the_animal_inv in H0 as [-> Ha].
  exists a. split; [exact Ha|].
  destruct (bool_decide (type a = Prey)).
  all: apply bind_inv in H as ([] & m1 & H1 & H); injection H1 as <-.
  all: apply bind_inv in H as (p & m1 & H1 & H); apply the_pos_inv in H1 as [-> _].
  all: apply bind_inv in H as ([] & m1 & H1 & H); injection H1 as <-.
  all: apply bind_inv in H as ([] & m1 & H1 & H); injection H1 as <-.
  all: apply bind_inv in H as ([] & m1 & H1 & H).
  all: apply remove_agent_inv in H1 as (o & Ho & ->).
  all: model_simpl_in Ho; rewrite Ha in Ho; injection Ho as <-.
  all: apply bind_inv in H as ([] & m1 & H1 & H).
  all: apply schedule_remove_inv in H1 as ->.
  all: injection H as _ <-; reflexivity.
Qed.

Lemma after_kill_last_uid u a m : last_uid (after_kill u a m) = last_uid m.
Proof. unfold after_kill. destruct (bool_decide (type a = Prey)); reflexivity. Qed.

(** The step of an animal that is marked dead removes it. *)
Lemma Animal_step_removes_dead rnd d m m' :
  bounded m -> dead_waiting d m ->
  Animal_step rnd d m = Ok (tt, m') -> gone d m'.
Proof.
  intros Hb (_ & a & Ha & Hal) H. unfold Animal_step in H.
  apply bind_inv in H as (a' & m0 & H0 & H). apply the_animal_inv in H0 as [-> Ha'].
  rewrite Ha in Ha'. injection Ha' as <-. rewrite Hal in H. cbn [negb] in H.
  apply kill_inv in H as (a' & Ha' & ->).
  destruct (after_kill_gone d a' m) as (H1 & H2 & _).
  split; [exact H1 | split; [exact H2|]].
  rewrite after_kill_last_uid. apply Hb. eauto.
Qed.

Lemma schedule_loop_removes_dead rnd d keys m m' :
  for_each keys (fun key =>
    do m <- get;
    when (in_list key (schedule m)) (Animal_step (agent_random rnd key) key)) m
  = Ok (tt, m') ->
  bounded m ->
  gone d m \/ (dead_waiting d m /\ d ∈ keys) ->
  gone d m'.
Proof.
  revert m. induction keys as [|k ks IH]; intros m H Hb Hd.
  - injection H as <-. destruct Hd as [Hd | [_ Hd]]; [exact Hd|].
    inversion Hd.
  - cbn [for_each] in H. apply bind_inv in H as ([] & m1 & H1 & H).
    apply bind_inv in H1 as (mx & m0' & H0 & H1). apply get_inv in H0 as [-> ->].
    unfold when in H1.
    assert (Hb1 : bounded m1).
    { destruct (in_list k (schedule m)); [|injection H1 as <-; exact Hb].
      eapply mutations_bounded; [eapply mutates_Animal_step; exact H1 | exact Hb]. }
    apply (IH m1 H Hb1).
    destruct Hd as [Hd | [Hd Hin]].
    + left. destruct (in_list k (schedule m)); [|injection H1 as <-; exact Hd].
      eapply mutations_gone; [eapply mutates_Animal_step; exact H1 | exact Hd].
    + destruct (decide (k = d)) as [->|Hne].
      * left. rewrite (in_list_true _ _ (proj1 Hd)) in H1.
        eapply Animal_step_removes_dead; [exact Hb | exact Hd | exact H1].
      * right. split.
        -- destruct (in_list k (schedule m)); [|injection H1 as <-; exact Hd].
           eapply mutations_dead_waiting;
             [eapply mutates_Animal_step; exact H1 | exact Hne | exact Hb | exact Hd].
        -- inversion Hin; subst; [congruence | assumption].
Qed.

Lemma tick_prefix_dead_waiting d m m1 :
  tick_prefix m m1 -> bounded m -> dead_waiting d m ->
  bounded m1 /\ dead_waiting d m1.
Proof.
  unfold tick_prefix. cbv zeta. intros H Hb Hd.
  destruct (grass_ticks m !! (step_num m + 1)%Z) as [due|].
  - destruct H as (mr & Hr & ->).
    assert (Hmut : mutations (S d) (set_step_num (step_num m + 1) m) mr).
    { eapply (mutates_for_each (S d)); [|exact Hr]. intros; apply mutates_Patch_regrow. }
    split.
    + apply (mutations_bounded _ _ _ Hmut). exact Hb.
    + apply (mutations_dead_waiting _ _ _ _ Hmut); [lia | exact Hb | exact Hd].
  - subst m1. auto.
Qed.

(** An animal that is marked dead when a tick starts has left the schedule
    and the space when the tick ends. *)
Lemma dead_removed_within_tick rnd d m m' :
  bounded m -> dead_waiting d m ->
  Prey_model_step rnd m = Ok (tt, m') ->
  gone d m'.
Proof.
  intros Hb Hd H. apply Prey_model_step_inv in H as (m1 & m2 & Hp & Hs & Hm').
  destruct (tick_prefix_dead_waiting _ _ _ Hp Hb Hd) as [Hb1 Hd1].
  assert (gone d m2).
  { unfold schedule_step in Hs.
    apply bind_inv in Hs as (mx & m0 & H0 & Hs). apply get_inv in H0 as [-> ->].
    eapply schedule_loop_removes_dead; [exact Hs | exact Hb1 |].
    right. split; [exact Hd1|]. apply elem_of_shuffle. apply Hd1. }
  destruct Hm' as [-> | ->]; assumption.
Qed.

(** ** Regrowth *)

Lemma regrow_delay_value : regrow_delay = 400%Z.
Proof.
  unfold regrow_delay, Rfloor, GRASS_REGROW, AGE_T.
  replace (2 / 0.005) with (IZR 400) by lra.
  rewrite <- (tech_up (IZR 400) 401); [reflexivity | |]; rewrite ?plus_IZR; lra.
Qed.

Lemma regrow_delay_pos : (0 < regrow_delay)%Z.
Proof. rewrite regrow_delay_value. lia. Qed.

Lemma get_color_regrown pt : get_color (set_grass 1 pt) = Green.
Proof. unfold get_color. cbn [grass set_grass]. rewrite Rleb_true by lra. reflexivity. Qed.

Lemma get_color_munched pt : get_color (set_grass 0 pt) <> Green.
Proof.
  unfold get_color. cbn [grass set_grass]. rewrite Rleb_false by lra.
  destruct (bool_decide _); discriminate.
Qed.

Lemma munches_cons p e log :
  munches p (e :: log) = ((if is_munch p e then 1 else 0) + munches p log)%nat.
Proof. unfold munches. cbn [List.filter]. destruct (is_munch p e); reflexivity. Qed.

Lemma is_munch_not_update p e : is_patch_update e = false -> is_munch p e = false.
Proof. destruct e; try reflexivity. discriminate. Qed.

Lemma is_munch_other p q c : q <> p -> is_munch p (Canvas_patch_update q c) = false.
Proof. intros H. destruct c; cbn; try reflexivity; apply bool_decide_eq_false; exact H. Qed.

Lemma is_munch_munched p pt :
  is_munch p (Canvas_patch_update p (get_color (set_grass 0 pt))) = true.
Proof.
  pose proof (get_color_munched pt). destruct (get_color (set_grass 0 pt)); cbn;
    try contradiction; apply bool_decide_eq_true; reflexivity.
Qed.

Lemma mutation_munches self p m m' :
  mutation self m m' -> (munches p (out m) <= munches p (out m'))%nat.
Proof.
  intros H. destruct H; unfold after_birth, after_patch; cbv zeta;
    try (destruct (bool_decide (type a = Prey)));
    try subst m'; try subst p'; model_simpl; rewrite ?munches_cons; lia.
Qed.

Lemma mutation_regrows_at self p T m m' :
  mutation self m m' -> bounded m ->
  munches p (out m') = munches p (out m) ->
  regrows_at p T m -> regrows_at p T m'.
Proof.
  intros H Hb Hn (pt & Hpt & Hcase).
  assert (Hfresh : p <> (last_uid m + 1)%nat).
  { intros ->. assert (last_uid m + 1 <= last_uid m)%nat by (apply Hb; eauto). lia. }
  assert (Hkeep : forall m', objects m' = objects m -> step_num m' = step_num m ->
            (forall l, grass_ticks m !! T = Some l -> p ∈ l ->
               exists l', grass_ticks m' !! T = Some l' /\ p ∈ l') ->
            regrows_at p T m').
  { intros m1 Ho Hs Hg. exists pt. rewrite Ho, Hs. split; [exact Hpt|].
    destruct Hcase as [(Hlt & l & Hl & Hin) | Hge]; [left | right; exact Hge].
    split; [exact Hlt|]. apply (Hg l Hl Hin). }
  assert (Hset : forall u o', step_num m' = step_num m ->
            grass_ticks m' = grass_ticks m ->
            objects m' = <[u := o']> (objects m) ->
            (u = p -> exists pt', o' = OPatch pt' /\ (grass pt' = grass pt \/ grass pt' = 1)) ->
            regrows_at p T m').
  { intros u o' Hs Hg Ho Hu. destruct (decide (u = p)) as [->|Hne].
    - destruct (Hu eq_refl) as (pt' & -> & Hgr). exists pt'.
      rewrite Ho, Hs, Hg, lookup_insert_eq. split; [reflexivity|].
      destruct Hcase as [Hlt | [Hge H1]]; [left; exact Hlt | right].
      split; [exact Hge|]. destruct Hgr as [-> | ->]; [exact H1 | reflexivity].
    - exists pt. rewrite Ho, Hs, Hg, lookup_insert_ne by exact Hne.
      split; [exact Hpt | exact Hcase]. }
  destruct H.
  - apply (Hset u (OAnimal a')); try reflexivity. intros ->. congruence.
  - apply (Hset u (OAnimal (set_pregs v a))); try reflexivity. intros ->. congruence.
  - apply (Hset u (OAnimal (set_alive false a))); try reflexivity. intros ->. congruence.
  - apply (Hset u (set_obj_pos (Some p0) o)); try reflexivity. intros ->.
    rewrite Hpt in H. injection H as <-. cbn. eauto.
  - apply (Hset (last_uid m + 1)%nat (OAnimal (set_pos (Some p0) a))).
    + unfold after_birth; cbv zeta; destruct (bool_decide _); reflexivity.
    + unfold after_birth; cbv zeta; destruct (bool_decide _); reflexivity.
    + unfold after_birth; cbv zeta; destruct (bool_decide _); model_simpl;
        rewrite insert_insert_eq; reflexivity.
    + intros E. symmetry in E. contradiction.
  - apply (Hset (last_uid m + 1)%nat (OPatch (set_patch_pos (Some p0) pt0))).
    + reflexivity.
    + reflexivity.
    + unfold after_patch; cbv zeta; model_simpl; rewrite insert_insert_eq; reflexivity.
    + intros E. symmetry in E. contradiction.
  - apply (Hset self (set_obj_pos None o)); try reflexivity. intros ->.
    rewrite Hpt in H. injection H as <-. cbn. eauto.
  - apply Hkeep; try reflexivity. eauto.
  - apply Hkeep; try reflexivity. eauto.
  - apply Hkeep; try reflexivity. eauto.
  - apply Hkeep; try reflexivity. eauto.
  - apply Hkeep; try reflexivity. eauto.
  - subst m' p'. model_simpl_in Hn. rewrite munches_cons in Hn.
    apply (Hset u (OPatch (set_grass 0 p0))); try reflexivity. intros ->.
    rewrite is_munch_munched in Hn. lia.
  - subst m' p'. apply (Hset u (OPatch (set_grass 1 p0))); try reflexivity. intros ->.
    eexists. split; [reflexivity|]. right. reflexivity.
  - subst step g. apply Hkeep; try reflexivity. intros l Hl Hin. model_simpl.
    destruct (decide ((step_num m + regrow_delay)%Z = T)) as [E|E].
    + rewrite E, lookup_insert_eq, Hl. cbn. eexists. split; [reflexivity|].
      apply elem_of_app. left. exact Hin.
    + rewrite lookup_insert_ne by exact E. eauto.
Qed.

Lemma mutation_unmunched self p T n m m' :
  mutation self m m' -> bounded m -> unmunched p T n m -> unmunched p T n m'.
Proof.
  intros H Hb [Hn Hr]. pose proof (mutation_munches self p _ _ H) as Hmono.
  split; [lia|]. intros E.
  eapply mutation_regrows_at; [exact H | exact Hb | lia | apply Hr; lia].
Qed.

Lemma Patch_regrow_inv u m b m' :
  Patch_regrow u m = Ok (b, m') ->
  exists pt, objects m !! u = Some (OPatch pt) /\
    m' = set_out (Canvas_patch_update u Green :: out m)
           (with_obj u (OPatch (set_grass 1 pt)) m).
Proof.
  intros H. unfold Patch_regrow in H.
  apply bind_inv in H as ([] & m1 & H1 & H).
  unfold update_patch in H1. apply bind_inv in H1 as (p & m2 & H2 & H1).
  apply the_patch_inv in H2 as [-> H2]. injection H1 as <-.
  unfold Patch_update in H. apply bind_inv in H as (p' & m2 & H3 & H).
  apply the_patch_inv in H3 as [-> H3]. model_simpl_in H3.
  rewrite lookup_insert_eq in H3. injection H3 as <-. injection H as _ <-.
  exists p. split; [exact H2|]. rewrite get_color_regrown. reflexivity.
Qed.

Lemma regrow_loop p due m mr :
  for_each due Patch_regrow m = Ok (tt, mr) ->
  step_num mr = step_num m /\ grass_ticks mr = grass_ticks m /\
  munches p (out mr) = munches p (out m) /\
  forall pt, objects m !! p = Some (OPatch pt) ->
    exists pt', objects mr !! p = Some (OPatch pt') /\
      (p ∈ due \/ grass pt = 1 -> grass pt' = 1).
Proof.
  revert m. induction due as [|u due IH]; intros m H.
  - injection H as <-. repeat split. intros pt Hpt. exists pt. split; [exact Hpt|].
    intros [Hin | Hg]; [inversion Hin | exact Hg].
  - cbn [for_each] in H. apply bind_inv in H as ([] & m1 & H1 & H).
    apply Patch_regrow_inv in H1 as (pu & Hu & ->).
    destruct (IH _ H) as (Hs & Hg & Hn & Ho). model_simpl_in Hs. model_simpl_in Hg.
    model_simpl_in Hn. rewrite munches_cons in Hn. cbn [is_munch] in Hn.
    repeat split; try assumption.
    intros pt Hpt. destruct (decide (u = p)) as [->|Hne].
    + rewrite Hpt in Hu. injection Hu as <-.
      destruct (Ho (set_grass 1 pt)) as (pt' & Hpt' & Hgr).
      { model_simpl. apply lookup_insert_eq. }
      exists pt'. split; [exact Hpt'|]. intros _. apply Hgr. right. reflexivity.
    + destruct (Ho pt) as (pt' & Hpt' & Hgr).
      { model_simpl. rewrite lookup_insert_ne by exact Hne. exact Hpt. }
      exists pt'. split; [exact Hpt'|]. intros [Hin | Hg1]; apply Hgr; [left | right; exact Hg1].
      inversion Hin; subst; [contradiction | assumption].
Qed.

Lemma tick_prefix_unmunched p T n m m1 :
  tick_prefix m m1 -> unmunched p T n m -> unmunched p T n m1.
Proof.
  unfold tick_prefix. cbv zeta. intros H [Hn Hr].
  assert (Hcase : forall mr due,
            grass_ticks m !! (step_num m + 1)%Z = due ->
            step_num mr = (step_num m + 1)%Z -> grass_ticks mr = grass_ticks m ->
            munches p (out mr) = munches p (out m) ->
            (forall pt, objects m !! p = Some (OPatch pt) ->
               exists pt', objects mr !! p = Some (OPatch pt') /\
                 ((exists l, due = Some l /\ p ∈ l) \/ grass pt = 1 -> grass pt' = 1)) ->
            forall gt, (forall l, gt !! T = Some l \/ T = (step_num m + 1)%Z <->
                                  grass_ticks m !! T = Some l \/ T = (step_num m + 1)%Z) ->
            unmunched p T n (set_grass_ticks gt mr)).
  { intros mr due Hdue Hs Hg Hm Ho gt Hgt. split; [model_simpl; lia|].
    model_simpl. intros E. destruct Hr as (pt & Hpt & Hc); [lia|].
    destruct (Ho pt Hpt) as (pt' & Hpt' & Hgr). exists pt'. model_simpl.
    split; [exact Hpt'|]. rewrite Hs.
    destruct Hc as [(Hlt & l & Hl & Hin) | (Hge & H1)].
    - destruct (decide (T = (step_num m + 1)%Z)) as [ET|ET].
      + right. split; [lia|]. apply Hgr. left. exists l. split; [|exact Hin].
        rewrite <- Hdue, <- ET. exact Hl.
      + left. split; [lia|]. exists l. split; [|exact Hin].
        destruct (proj2 (Hgt l) (or_introl Hl)) as [?|?]; [assumption | contradiction].
    - right. split; [lia|]. apply Hgr. right. exact H1. }
  destruct (grass_ticks m !! (step_num m + 1)%Z) as [due|] eqn:Edue.
  - destruct H as (mr & Hloop & ->).
    destruct (regrow_loop p _ _ _ Hloop) as (Hs & Hg & Hm & Ho).
    model_simpl_in Hs. model_simpl_in Hg. model_simpl_in Hm.
    apply (Hcase mr (Some due)); try assumption; try reflexivity.
    { intros pt Hpt. destruct (Ho pt Hpt) as (pt' & Hpt' & Hgr).
      exists pt'. split; [exact Hpt'|]. intros [(l & [= <-] & Hin) | H1]; apply Hgr; auto. }
    { intros l. rewrite Hs, Hg.
      destruct (decide (T = (step_num m + 1)%Z)) as [->|ET]; [tauto|].
      rewrite lookup_delete_ne by congruence. tauto. }
  - subst m1.
    change (set_step_num (step_num m + 1) m)
      with (set_grass_ticks (grass_ticks m) (set_step_num (step_num m + 1) m)).
    apply (Hcase _ None); try reflexivity.
    { intros pt Hpt. exists pt. split; [exact Hpt|].
      intros [(l & [=] & _) | H1]; exact H1. }
Qed.

Lemma Prey_model_step_unmunched rnd p T n m m' :
  Prey_model_step rnd m = Ok (tt, m') ->
  bounded m /\ unmunched p T n m -> bounded m' /\ unmunched p T n m'.
Proof.
  intros H [Hb Hu]. apply Prey_model_step_inv in H as (m1 & m2 & Hp & Hs & Hm').
  assert (H1 : bounded m1 /\ unmunched p T n m1).
  { split; [|eapply tick_prefix_unmunched; eassumption].
    eapply (tick_prefix_preserves bounded); try eassumption.
    - intros self ? ?. apply mutation_bounded.
    - intros ? ? Hx. exact Hx.
    - intros ? ? Hx. exact Hx. }
  assert (Hmut : forall self x y, mutation self x y ->
            bounded x /\ unmunched p T n x -> bounded y /\ unmunched p T n y).
  { intros self x y Hxy [Hbx Hux]. split.
    - eapply mutation_bounded; eassumption.
    - eapply mutation_unmunched; eassumption. }
  assert (H2 : bounded m2 /\ unmunched p T n m2).
  { eapply (schedule_step_preserves (fun x => bounded x /\ unmunched p T n x));
      [exact Hmut | exact Hs | exact H1]. }
  destruct Hm' as [-> | ->]; [exact H2|].
  eapply (Hmut 0%nat); [|exact H2]. apply M_emit. reflexivity.
Qed.

Lemma Prey_model_step_step_num rnd m m' :
  Prey_model_step rnd m = Ok (tt, m') -> step_num m' = (step_num m + 1)%Z.
Proof.
  intros H. apply Prey_model_step_inv in H as (m1 & m2 & Hp & Hs & Hm').
  assert (H1 : step_num m1 = (step_num m + 1)%Z).
  { unfold tick_prefix in Hp. cbv zeta in Hp.
    destruct (grass_ticks m !! (step_num m + 1)%Z) as [due|]; [|subst m1; reflexivity].
    destruct Hp as (mr & Hr & ->). model_simpl.
    destruct (regrow_loop 0%nat _ _ _ Hr) as (Hs' & _). exact Hs'. }
  assert (H2 : step_num m2 = step_num m1).
  { eapply (schedule_step_preserves (fun x => step_num x = step_num m1));
      [| exact Hs | reflexivity].
    intros self x y Hxy Hx. destruct (mutation_lists _ _ _ Hxy) as (_ & _ & _ & E & _).
    congruence. }
  destruct Hm' as [-> | ->]; model_simpl; congruence.
Qed.

Lemma run_unmunched rnds p T n m m' :
  run rnds m = Ok m' ->
  bounded m /\ unmunched p T n m -> bounded m' /\ unmunched p T n m'.
Proof.
  revert m. induction rnds as [|rnd rnds IH]; intros m H Hm; cbn [run] in H.
  - injection H as <-. exact Hm.
  - destruct (Prey_model_step rnd m) as [[[] m1]|] eqn:E; [|discriminate].
    apply (IH m1 H). eapply Prey_model_step_unmunched; eassumption.
Qed.

(** What [munch] leaves behind. *)
Lemma Patch_munch_ok p pt m :
  objects m !! p = Some (OPatch pt) ->
  let T := (step_num m + regrow_delay)%Z in
  exists m', Patch_munch p m = Ok (tt, m') /\
    objects m' !! p = Some (OPatch (set_grass 0 pt)) /\
    (exists l, grass_ticks m' !! T = Some l /\ p ∈ l) /\
    step_num m' = step_num m /\ (step_num m' < T)%Z.
Proof.
  intros Hp T. unfold Patch_munch.
  eexists. split.
  - run ltac:(apply update_patch_ok; find_obj).
    unfold Patch_update. run ltac:(run ltac:(apply the_patch_ok; find_obj); apply emit_ok).
    run ltac:(reflexivity). reflexivity.
  - model_simpl. rewrite !lookup_insert_eq. repeat split.
    + eexists. split; [reflexivity|]. apply elem_of_app. right. constructor.
    + pose proof regrow_delay_pos. unfold T. lia.
Qed.

(** ** More runs forwards: idling, hunting, being born *)

Lemma first_where_none m test l :
  (forall u o, objects m !! u = Some o -> test o = false) ->
  first_where m test l = None.
Proof.
  intros H. unfold first_where. induction l as [|u l IH]; [reflexivity|].
  cbn [List.find]. destruct (objects m !! u) as [o|] eqn:E; [rewrite (H _ _ E)|]; exact IH.
Qed.

(** An animal that finds nothing to go to. *)
Lemma get_target_idle rnd self a p m :
  objects m !! self = Some (OAnimal a) -> pos a = Some p -> target a = None ->
  type a = Prey \/ 80 <= food a ->
  (forall u o, objects m !! u = Some o -> type_eqb (obj_type o) Grass = false) ->
  (forall u o, objects m !! u = Some o ->
     type_eqb (type a) (obj_type o) && obj_can_mate o = false) ->
  get_target rnd self m = Ok (None, m).
Proof.
  intros Ha Hp Ht Hty Hgrass Hmate. unfold get_target.
  run_the_animal. run_the_pos. run_neighbors.
  unfold reach_target. rewrite Ht. run ltac:(reflexivity).
  run_the_animal.
  assert (Hfood : find_food rnd a p m = Ok (None, m)).
  { unfold find_food. destruct (Rltb_spec (food a) 80) as [Hlt|Hge]; [|reflexivity].
    destruct Hty as [-> | ?]; [|lra]. rewrite type_eqb_refl.
    run_neighbors. run ltac:(reflexivity).
    rewrite first_where_none; [reflexivity|].
    intros u o Ho. rewrite (Hgrass _ _ Ho). reflexivity. }
  run ltac:(exact Hfood).
  unfold find_mate_or_wander. run ltac:(reflexivity).
  rewrite (first_where_none m (fun obj => type_eqb (type a) (obj_type obj) && obj_can_mate obj))
    by exact Hmate.
  rewrite first_where_none.
  2:{ intros u o Ho. rewrite (Hgrass _ _ Ho). apply andb_false_r. }
  destruct (bool_decide (gender a = Male)); reflexivity.
Qed.

Lemma seek_and_move_idle rnd self a p m :
  objects m !! self = Some (OAnimal a) -> pos a = Some p -> target a = None ->
  type a = Prey \/ 80 <= food a ->
  (forall u o, objects m !! u = Some o -> type_eqb (obj_type o) Grass = false) ->
  (forall u o, objects m !! u = Some o ->
     type_eqb (type a) (obj_type o) && obj_can_mate o = false) ->
  seek_and_move rnd self m = Ok (tt, with_obj self (OAnimal (set_target None a)) m).
Proof.
  intros Ha Hp Ht Hty Hgrass Hmate. unfold seek_and_move.
  run ltac:(eapply get_target_idle; eassumption).
  run_update. reflexivity.
Qed.

(** A hungry tiger without a target takes the first prey the space
    returns. *)
Lemma get_target_hunt rnd self a p t m :
  objects m !! self = Some (OAnimal a) -> pos a = Some p -> target a = None ->
  type a = Tiger -> food a < 80 ->
  first_where m (fun obj => type_eqb (obj_type obj) Prey)
    (List.filter (within m p RADIUS_TIGER) (agents (space m))) = Some t ->
  get_target rnd self m = Ok (Some t, m).
Proof.
  intros Ha Hp Ht Hty Hf Hfirst. unfold get_target.
  run_the_animal. run_the_pos. run_neighbors.
  unfold reach_target. rewrite Ht. run ltac:(reflexivity).
  run_the_animal.
  assert (Hfood : find_food rnd a p m = Ok (Some t, m)).
  { unfold find_food. rewrite (Rltb_true _ _ Hf), Hty.
    change (type_eqb Tiger Prey) with false. cbv iota.
    run_neighbors. run ltac:(reflexivity). rewrite Hfirst. reflexivity. }
  run ltac:(exact Hfood). reflexivity.
Qed.

Lemma within_here m p radius u o :
  objects m !! u = Some o -> obj_pos o = Some p -> 0 <= radius ->
  within m p radius u = true.
Proof.
  intros Ho Hp Hr. unfold within. rewrite Ho, Hp. destruct p as [x y]. cbn [fst snd].
  replace (x - x) with 0 by ring. replace (y - y) with 0 by ring.
  rewrite Rabs_R0. apply Rleb_true. nra.
Qed.

Lemma get_distance_here p : get_distance p p = 0.
Proof.
  destruct p as [x y]. unfold get_distance.
  replace ((y - y) ^ 2 + (x - x) ^ 2) with 0 by ring. apply sqrt_0.
Qed.

Lemma get_distance_level x1 x2 y : get_distance (x1, y) (x2, y) = Rabs (x2 - x1).
Proof.
  apply get_distance_eq; [apply Rabs_pos|]. cbn [fst snd].
  unfold Rabs. destruct (Rcase_abs _); ring.
Qed.

Lemma advance_here p d : d <> 0 -> advance p p d = p.
Proof.
  intros Hd. destruct p as [x y]. unfold advance. cbn [fst snd].
  rewrite calc_move_level. replace (x - x) with 0 by ring. rewrite Rabs_R0.
  rewrite Rltb_true by (apply Rabs_pos_lt; exact Hd). reflexivity.
Qed.

(** [create_baby], forwards. *)
Lemma place_agent_ok u o p m :
  out_of_bounds (space m) p = false -> objects m !! u = Some o ->
  place_agent u p m =
  Ok (tt, with_obj u (set_obj_pos (Some p) o)
            (set_agents (agents (space m) ++ [u]) m)).
Proof.
  intros Hb Ho. unfold place_agent, torus_adj.
  run ltac:(run ltac:(reflexivity); rewrite Hb; reflexivity).
  run ltac:(reflexivity). run_the_obj. reflexivity.
Qed.

Lemma new_uid_ok m :
  new_uid m = Ok ((last_uid m + 1)%nat, set_last_uid (last_uid m + 1)%nat m).
Proof. reflexivity. Qed.

Lemma create_baby_ok x y age ty g noise a m :
  species_init ty g noise age = Ok a ->
  out_of_bounds (space m) (x, y) = false ->
  create_baby x y age ty g noise m = Ok (tt, after_birth a (x, y) m).
Proof.
  intros Hi Hb. pose proof (species_init_inv _ _ _ _ _ Hi) as (Hty & _).
  unfold create_baby, after_birth, species_init in *. cbv zeta. rewrite Hty.
  destruct (bool_decide (ty = Prey)).
  all: erewrite bind_ok;
    [| run ltac:(apply new_uid_ok); run ltac:(rewrite Hi; reflexivity);
       run ltac:(reflexivity); run ltac:(reflexivity); reflexivity ].
  all: cbv beta; run ltac:(reflexivity).
  all: run ltac:(apply place_agent_ok; [exact Hb | find_obj]).
  all: run ltac:(reflexivity); reflexivity.
Qed.

(** ** The example run *)

Lemma get_speed_positive age max_age max_speed :
  max_age <> 0 -> 0 < max_speed ->
  exists v, get_speed age max_age max_speed = Ok v /\ 0 < v.
Proof.
  intros Hm Hs. unfold get_speed. rewrite (Reqb_false _ _ Hm). cbv zeta.
  eexists. split; [reflexivity|].
  apply Rmult_lt_0_compat; [|exact Hs].
  match goal with |- 0 < (if ?y <=? 0.1 then _ else _) =>
    destruct (Rleb_spec y 0.1); lra end.
Qed.

(** The animals the constructor makes in the example. *)
Lemma species_init_example ty :
  exists v, 0 < v /\
    species_init ty Male 0 1 =
    Ok (mkAnimal Male 0 None 1 (Some (0, 0)) true
          (if bool_decide (ty = Prey) then 10 else 50) ty
          (norm_distro 0 (if bool_decide (ty = Prey) then LIFESPAN_PREY else LIFESPAN_TIGER))
          (if bool_decide (ty = Prey) then 1 else 2) v).
Proof.
  unfold species_init, Prey_init, Tiger_init, set_speed.
  destruct ty; cbn [bool_decide decide_rel Species_eq_dec Species_rec Species_rect
                    age max_age max_speed].
  - destruct (get_speed_positive 1 (norm_distro 0 LIFESPAN_PREY) 1) as (v & Hv & Hpos).
    { unfold norm_distro, LIFESPAN_PREY. lra. } { lra. }
    exists v. split; [exact Hpos|]. cbn. rewrite Hv. cbn [pregs set_speed_field].
    rewrite (Reqb_true 0 0 eq_refl). reflexivity.
  - destruct (get_speed_positive 1 (norm_distro 0 LIFESPAN_TIGER) 2) as (v & Hv & Hpos).
    { unfold norm_distro, LIFESPAN_TIGER. lra. } { lra. }
    exists v. split; [exact Hpos|]. cbn. rewrite Hv. cbn [pregs set_speed_field].
    rewrite (Reqb_true 0 0 eq_refl). reflexivity.
Qed.

Lemma species_init_prey :
  exists v, 0 < v /\ species_init Prey Male 0 1 = Ok (example_prey v 10 1 true).
Proof. destruct (species_init_example Prey) as (v & Hv & H). exists v. split; assumption. Qed.

Lemma species_init_tiger :
  exists v, 0 < v /\ species_init Tiger Male 0 1 = Ok (example_tiger v 50 1 None).
Proof. destruct (species_init_example Tiger) as (v & Hv & H). exists v. split; assumption. Qed.

Lemma in_bounds_origin m :
  (0 < x_max (space m))%Z -> (0 < y_max (space m))%Z ->
  out_of_bounds (space m) (0, 0) = false.
Proof.
  intros Hx Hy. unfold out_of_bounds.
  apply IZR_lt in Hx, Hy.
  rewrite (Rltb_false 0 0), !(Rleb_false _ 0) by lra. reflexivity.
Qed.

Lemma create_patch_ok rnd i xy m :
  out_of_bounds (space m) (IZR (fst xy), IZR (snd xy)) = false ->
  create_patch rnd i xy m =
  Ok (tt, after_patch (Patch_init (patch_random rnd i)) (IZR (fst xy), IZR (snd xy)) m).
Proof.
  intros Hb. unfold create_patch.
  run ltac:(apply new_uid_ok). run ltac:(reflexivity).
  run ltac:(apply place_agent_ok; [exact Hb | find_obj]).
  reflexivity.
Qed.

Lemma Patch_init_rock : Patch_init 0 = mkPatch Rock 0 None.
Proof.
  unfold Patch_init. rewrite Rltb_true by (unfold ROCKY_AREAS; lra). reflexivity.
Qed.

Lemma example_create_animal ty a m :
  species_init ty Male 0 1 = Ok a ->
  x_max (space m) = 2%Z -> y_max (space m) = 2%Z ->
  create_animal example_init ty 0 m = Ok (tt, after_birth a (0, 0) m) /\
  forall i, create_animal example_init ty i m = create_animal example_init ty 0 m.
Proof.
  intros Ha Hx Hy. split; [|reflexivity].
  unfold create_animal. run ltac:(reflexivity). rewrite Hx.
  run ltac:(reflexivity). run ltac:(reflexivity).
  apply (create_baby_ok _ _ _ _ _ _ a); [exact Ha|].
  apply in_bounds_origin; [rewrite Hx | rewrite Hy]; reflexivity.
Qed.

Lemma after_patch_mk pt p c s xm ym ag st lu gt pc tc ob lg :
  after_patch pt p (mkModel c s (mkSpace xm ym ag) st lu gt pc tc ob lg) =
  mkModel c s (mkSpace xm ym (ag ++ [S lu])) st (S lu) gt pc tc
    (<[S lu := OPatch (set_patch_pos (Some p) pt)]> ob) (Canvas_draw (S lu) :: lg).
Proof.
  unfold after_patch, with_obj. cbv zeta. model_simpl.
  rewrite insert_insert_eq. rewrite Nat.add_1_r. reflexivity.
Qed.

Lemma after_birth_mk a p c s xm ym ag st lu gt pc tc ob lg :
  after_birth a p (mkModel c s (mkSpace xm ym ag) st lu gt pc tc ob lg) =
  mkModel (c + 1) (s ++ [S lu]) (mkSpace xm ym (ag ++ [S lu])) st (S lu) gt
    (if bool_decide (type a = Prey) then pc + 1 else pc)%Z
    (if bool_decide (type a = Prey) then tc else tc + 1)%Z
    (<[S lu := OAnimal (set_pos (Some p) a)]> ob) (Canvas_draw (S lu) :: lg).
Proof.
  unfold after_birth, with_obj. cbv zeta. rewrite Nat.add_1_r.
  destruct (bool_decide (type a = Prey)); model_simpl;
    rewrite insert_insert_eq; reflexivity.
Qed.

Lemma example_constructed :
  exists vp vt, 0 < vp /\ 0 < vt /\
    Prey_model_init example_init 1 2 1 1 =
    Ok (example_world 0 (example_prey vp 10 1 true) (example_tiger vt 50 1 None)
          (example_tiger vt 50 1 None) example_log).
Proof.
  destruct species_init_prey as (vp & Hvp & Hp).
  destruct species_init_tiger as (vt & Hvt & Ht).
  exists vp, vt. split; [exact Hvp|]. split; [exact Hvt|].
  unfold Prey_model_init.
  change (grid 1 1) with [(0, 0)%Z].
  change (seq 0 (Z.to_nat 1)) with [0%nat].
  change (seq (Z.to_nat 1) (Z.to_nat 2)) with [1%nat; 2%nat].
  cbn [for_each_indexed for_each].
  erewrite bind_ok.
  2:{ run ltac:(apply create_patch_ok; apply in_bounds_origin; reflexivity).
      reflexivity. }
  cbn [example_init patch_random fst snd]. rewrite Patch_init_rock.
  unfold empty_model. rewrite after_patch_mk.
  erewrite bind_ok.
  2:{ run ltac:(eapply example_create_animal; [exact Hp | reflexivity..]).
      reflexivity. }
  rewrite after_birth_mk.
  run ltac:(eapply example_create_animal; [exact Ht | reflexivity..]).
  rewrite after_birth_mk.
  run ltac:(eapply example_create_animal; [exact Ht | reflexivity..]).
  rewrite after_birth_mk.
  reflexivity.
Qed.

(** ** The objects of the example world *)

Lemma world_rock s p t1 t2 log :
  objects (example_world s p t1 t2 log) !! 1%nat = Some (OPatch example_rock).
Proof. unfold example_world. find_obj. Qed.

Lemma world_prey s p t1 t2 log :
  objects (example_world s p t1 t2 log) !! 2%nat = Some (OAnimal p).
Proof. unfold example_world. find_obj. Qed.

Lemma world_tiger1 s p t1 t2 log :
  objects (example_world s p t1 t2 log) !! 3%nat = Some (OAnimal t1).
Proof. unfold example_world. find_obj. Qed.

Lemma world_tiger2 s p t1 t2 log :
  objects (example_world s p t1 t2 log) !! 4%nat = Some (OAnimal t2).
Proof. unfold example_world. find_obj. Qed.

Lemma world_objects s p t1 t2 log u o :
  objects (example_world s p t1 t2 log) !! u = Some o ->
  o = OPatch example_rock \/ o = OAnimal p \/ o = OAnimal t1 \/ o = OAnimal t2.
Proof.
  unfold example_world. model_simpl. intros H.
  destruct (decide (u = 4%nat)) as [->|N4];
    [rewrite lookup_insert_eq in H; injection H as <-; tauto|].
  rewrite lookup_insert_ne in H by congruence.
  destruct (decide (u = 3%nat)) as [->|N3];
    [rewrite lookup_insert_eq in H; injection H as <-; tauto|].
  rewrite lookup_insert_ne in H by congruence.
  destruct (decide (u = 2%nat)) as [->|N2];
    [rewrite lookup_insert_eq in H; injection H as <-; tauto|].
  rewrite lookup_insert_ne in H by congruence.
  destruct (decide (u = 1%nat)) as [->|N1];
    [rewrite lookup_insert_eq in H; injection H as <-; tauto|].
  rewrite lookup_insert_ne in H by congruence.
  rewrite lookup_empty in H. discriminate.
Qed.

Lemma world_with_prey s p t1 t2 log p' :
  with_obj 2%nat (OAnimal p') (example_world s p t1 t2 log) =
  example_world s p' t1 t2 log.
Proof. reflexivity. Qed.

Lemma world_with_tiger1 s p t1 t2 log t1' :
  with_obj 3%nat (OAnimal t1') (example_world s p t1 t2 log) =
  example_world s p t1' t2 log.
Proof. reflexivity. Qed.

Lemma world_with_tiger2 s p t1 t2 log t2' :
  with_obj 4%nat (OAnimal t2') (example_world s p t1 t2 log) =
  example_world s p t1 t2' log.
Proof. reflexivity. Qed.

Lemma world_set_out s p t1 t2 log log' :
  set_out log' (example_world s p t1 t2 log) = example_world s p t1 t2 log'.
Proof. reflexivity. Qed.

Lemma lives_on_not_pregnant a :
  pregs a = 0 ->
  lives_on a = set_age (age a + AGE_T) (set_food (food a - FOOD_PER_TICK) a).
Proof.
  intros H. unfold lives_on. cbn [pregs set_age set_food]. rewrite H.
  rewrite (Reqb_true 0 0 eq_refl). reflexivity.
Qed.

Lemma max_age_prey : norm_distro 0 LIFESPAN_PREY = 9.
Proof. unfold norm_distro, LIFESPAN_PREY. lra. Qed.

Lemma max_age_tiger : norm_distro 0 LIFESPAN_TIGER = 17.
Proof. unfold norm_distro, LIFESPAN_TIGER. lra. Qed.

(** Nothing in the example world is grass, and nothing can mate. *)
Lemma world_no_grass s v f a al t1 t2 f1 a1 g1 f2 a2 g2 log u o :
  objects (example_world s (example_prey v f a al) (example_tiger t1 f1 a1 g1)
             (example_tiger t2 f2 a2 g2) log) !! u = Some o ->
  type_eqb (obj_type o) Grass = false /\ obj_can_mate o = false.
Proof.
  intros H. apply world_objects in H as [-> | [-> | [-> | ->]]];
    split; reflexivity.
Qed.

(** *** The prey finds nothing to go to *)
Lemma example_prey_step s v f a t1 f1 a1 g1 t2 f2 a2 g2 log :
  0 < f - FOOD_PER_TICK -> a + AGE_T <= 9 -> (s `mod` 10 <> 0)%Z ->
  Animal_step example_step 2%nat
    (example_world s (example_prey v f a true) (example_tiger t1 f1 a1 g1)
       (example_tiger t2 f2 a2 g2) log) =
  Ok (tt, example_world s (example_prey v (f - FOOD_PER_TICK) (a + AGE_T) true)
            (example_tiger t1 f1 a1 g1) (example_tiger t2 f2 a2 g2) log).
Proof.
  intros Hf Ha Hs.
  rewrite (Animal_step_lives_on _ _ (example_prey v f a true)).
  2: apply world_prey. 2: reflexivity. 2: exact Hf.
  2: { cbn [age max_age example_prey]. rewrite max_age_prey. exact Ha. }
  2: { cbn [pregs example_prey]. unfold AGE_T. lra. }
  2: exact Hs.
  rewrite lives_on_not_pregnant by reflexivity.
  cbn [example_prey set_age set_food age food]. rewrite world_with_prey.
  rewrite (seek_and_move_idle _ _
             (example_prey v (f - FOOD_PER_TICK) (a + AGE_T) true) (0, 0)).
  - cbn [set_target]. rewrite world_with_prey. reflexivity.
  - apply world_prey.
  - reflexivity.
  - reflexivity.
  - left. reflexivity.
  - intros u o H. eapply world_no_grass. exact H.
  - intros u o H. apply (world_no_grass s _ _ _ _ _ _ _ _ _ _ _ _ log) in H as [_ ->].
    apply andb_false_r.
Qed.

(** *** A tiger takes the prey as its target, and goes to it *)
Lemma world_neighbors s p t1 t2 log radius :
  pos p = Some (0, 0) -> pos t1 = Some (0, 0) -> pos t2 = Some (0, 0) ->
  0 <= radius ->
  List.filter (within (example_world s p t1 t2 log) (0, 0) radius)
    (agents (space (example_world s p t1 t2 log))) = [1; 2; 3; 4]%nat.
Proof.
  intros Hp H1 H2 Hr.
  change (agents (space (example_world s p t1 t2 log))) with [1; 2; 3; 4]%nat.
  cbn [List.filter].
  rewrite (within_here _ _ _ 1%nat _ (world_rock _ _ _ _ _) eq_refl Hr).
  rewrite (within_here _ _ _ 2%nat _ (world_prey _ _ _ _ _) Hp Hr).
  rewrite (within_here _ _ _ 3%nat _ (world_tiger1 _ _ _ _ _) H1 Hr).
  rewrite (within_here _ _ _ 4%nat _ (world_tiger2 _ _ _ _ _) H2 Hr).
  reflexivity.
Qed.

Lemma world_first_prey s p t1 t2 log :
  type p = Prey ->
  first_where (example_world s p t1 t2 log)
    (fun obj => type_eqb (obj_type obj) Prey) [1; 2; 3; 4]%nat = Some 2%nat.
Proof.
  intros Hp. unfold first_where. cbn [List.find].
  rewrite world_rock, world_prey. cbn [obj_type]. rewrite Hp. reflexivity.
Qed.

Lemma example_get_target_hunt self s v f a al t1 f1 a1 g1 t2 f2 a2 g2 log t :
  objects (example_world s (example_prey v f a al) (example_tiger t1 f1 a1 g1)
             (example_tiger t2 f2 a2 g2) log) !! self = Some (OAnimal t) ->
  pos t = Some (0, 0) -> target t = None -> type t = Tiger -> food t < 80 ->
  get_target example_step self
    (example_world s (example_prey v f a al) (example_tiger t1 f1 a1 g1)
       (example_tiger t2 f2 a2 g2) log) =
  Ok (Some 2%nat,
      example_world s (example_prey v f a al) (example_tiger t1 f1 a1 g1)
        (example_tiger t2 f2 a2 g2) log).
Proof.
  intros Ho Hp Ht Hty Hf.
  apply (get_target_hunt _ _ t (0, 0)); try assumption.
  rewrite world_neighbors by (try reflexivity; unfold RADIUS_TIGER; lra).
  apply world_first_prey. reflexivity.
Qed.

Lemma example_tiger1_hunts s v f a al t1 f1 a1 t2 f2 a2 g2 log :
  0 < f1 - FOOD_PER_TICK -> f1 - FOOD_PER_TICK < 80 -> a1 + AGE_T <= 17 ->
  (s `mod` 10 <> 0)%Z -> t1 <> 0 ->
  Animal_step example_step 3%nat
    (example_world s (example_prey v f a al) (example_tiger t1 f1 a1 None)
       (example_tiger t2 f2 a2 g2) log) =
  Ok (tt, example_world s (example_prey v f a al)
            (example_tiger t1 (f1 - FOOD_PER_TICK) (a1 + AGE_T) (Some 2%nat))
            (example_tiger t2 f2 a2 g2) (Canvas_coords 3%nat (0, 0) :: log)).
Proof.
  intros Hf Hf80 Ha Hs Hv.
  rewrite (Animal_step_lives_on _ _ (example_tiger t1 f1 a1 None)).
  2: apply world_tiger1. 2: reflexivity. 2: exact Hf.
  2: { cbn [age max_age example_tiger]. rewrite max_age_tiger. exact Ha. }
  2: { cbn [pregs example_tiger]. unfold AGE_T. lra. }
  2: exact Hs.
  rewrite lives_on_not_pregnant by reflexivity.
  cbn [example_tiger set_age set_food age food]. rewrite world_with_tiger1.
  fold (example_tiger t1 (f1 - FOOD_PER_TICK) (a1 + AGE_T) None).
  erewrite seek_and_move_towards.
  2: { eapply example_get_target_hunt;
         [apply world_tiger1 | reflexivity | reflexivity | reflexivity | exact Hf80]. }
  2: apply world_tiger1. 2: reflexivity. 2: apply world_prey. 2: reflexivity.
  2: discriminate.
  cbv zeta. cbn [speed example_tiger]. rewrite (advance_here _ _ Hv).
  rewrite in_bounds_origin by reflexivity.
  change (in_list 3%nat _) with true. cbv iota.
  unfold after_move. cbv zeta. rewrite world_with_tiger1. reflexivity.
Qed.

Lemma example_tiger2_hunts s v f a al t1 f1 a1 g1 t2 f2 a2 log :
  0 < f2 - FOOD_PER_TICK -> f2 - FOOD_PER_TICK < 80 -> a2 + AGE_T <= 17 ->
  (s `mod` 10 <> 0)%Z -> t2 <> 0 ->
  Animal_step example_step 4%nat
    (example_world s (example_prey v f a al) (example_tiger t1 f1 a1 g1)
       (example_tiger t2 f2 a2 None) log) =
  Ok (tt, example_world s (example_prey v f a al) (example_tiger t1 f1 a1 g1)
            (example_tiger t2 (f2 - FOOD_PER_TICK) (a2 + AGE_T) (Some 2%nat))
            (Canvas_coords 4%nat (0, 0) :: log)).
Proof.
  intros Hf Hf80 Ha Hs Hv.
  rewrite (Animal_step_lives_on _ _ (example_tiger t2 f2 a2 None)).
  2: apply world_tiger2. 2: reflexivity. 2: exact Hf.
  2: { cbn [age max_age example_tiger]. rewrite max_age_tiger. exact Ha. }
  2: { cbn [pregs example_tiger]. unfold AGE_T. lra. }
  2: exact Hs.
  rewrite lives_on_not_pregnant by reflexivity.
  cbn [example_tiger set_age set_food age food]. rewrite world_with_tiger2.
  fold (example_tiger t2 (f2 - FOOD_PER_TICK) (a2 + AGE_T) None).
  erewrite seek_and_move_towards.
  2: { eapply example_get_target_hunt;
         [apply world_tiger2 | reflexivity | reflexivity | reflexivity | exact Hf80]. }
  2: apply world_tiger2. 2: reflexivity. 2: apply world_prey. 2: reflexivity.
  2: discriminate.
  cbv zeta. cbn [speed example_tiger]. rewrite (advance_here _ _ Hv).
  rewrite in_bounds_origin by reflexivity.
  change (in_list 4%nat _) with true. cbv iota.
  unfold after_move. cbv zeta. rewrite world_with_tiger2. reflexivity.
Qed.

(** *** A tiger eats the prey it has reached *)
Lemma example_tiger1_eats s v f a al t1 f1 a1 t2 f2 a2 g2 log :
  0 < f1 - FOOD_PER_TICK -> f1 - FOOD_PER_TICK < 80 -> a1 + AGE_T <= 17 ->
  (s `mod` 10 <> 0)%Z ->
  Animal_step example_step 3%nat
    (example_world s (example_prey v f a al)
       (example_tiger t1 f1 a1 (Some 2%nat)) (example_tiger t2 f2 a2 g2) log) =
  Ok (tt, example_world s (example_prey v f a false)
            (example_tiger t1 (f1 - FOOD_PER_TICK + (40 + f / 4)) (a1 + AGE_T) None)
            (example_tiger t2 f2 a2 g2) (Print_ate 3%nat 2%nat :: log)).
Proof.
  intros Hf Hf80 Ha Hs.
  rewrite (Animal_step_lives_on _ _ (example_tiger t1 f1 a1 (Some 2%nat))).
  2: apply world_tiger1. 2: reflexivity. 2: exact Hf.
  2: { cbn [age max_age example_tiger]. rewrite max_age_tiger. exact Ha. }
  2: { cbn [pregs example_tiger]. unfold AGE_T. lra. }
  2: exact Hs.
  rewrite lives_on_not_pregnant by reflexivity.
  cbn [example_tiger set_age set_food age food]. rewrite world_with_tiger1.
  fold (example_tiger t1 (f1 - FOOD_PER_TICK) (a1 + AGE_T) (Some 2%nat)).
  erewrite (seek_and_move_eat _ _ _ (0, 0) _ _ (0, 0)).
  2: apply world_tiger1. 2: apply world_prey.
  2-6: reflexivity.
  2: { rewrite get_distance_here. lra. }
  2: exact Hf80.
  unfold after_eating.
  change (out (example_world ?s ?p ?t1 ?t2 ?l)) with l.
  rewrite world_set_out, world_with_tiger1, world_with_prey, world_with_tiger1.
  reflexivity.
Qed.

Lemma example_tiger2_eats s v f a al t1 f1 a1 g1 t2 f2 a2 log :
  0 < f2 - FOOD_PER_TICK -> f2 - FOOD_PER_TICK < 80 -> a2 + AGE_T <= 17 ->
  (s `mod` 10 <> 0)%Z ->
  Animal_step example_step 4%nat
    (example_world s (example_prey v f a al) (example_tiger t1 f1 a1 g1)
       (example_tiger t2 f2 a2 (Some 2%nat)) log) =
  Ok (tt, example_world s (example_prey v f a false) (example_tiger t1 f1 a1 g1)
            (example_tiger t2 (f2 - FOOD_PER_TICK + (40 + f / 4)) (a2 + AGE_T) None)
            (Print_ate 4%nat 2%nat :: log)).
Proof.
  intros Hf Hf80 Ha Hs.
  rewrite (Animal_step_lives_on _ _ (example_tiger t2 f2 a2 (Some 2%nat))).
  2: apply world_tiger2. 2: reflexivity. 2: exact Hf.
  2: { cbn [age max_age example_tiger]. rewrite max_age_tiger. exact Ha. }
  2: { cbn [pregs example_tiger]. unfold AGE_T. lra. }
  2: exact Hs.
  rewrite lives_on_not_pregnant by reflexivity.
  cbn [example_tiger set_age set_food age food]. rewrite world_with_tiger2.
  fold (example_tiger t2 (f2 - FOOD_PER_TICK) (a2 + AGE_T) (Some 2%nat)).
  erewrite (seek_and_move_eat _ _ _ (0, 0) _ _ (0, 0)).
  2: apply world_tiger2. 2: apply world_prey.
  2-6: reflexivity.
  2: { rewrite get_distance_here. lra. }
  2: exact Hf80.
  unfold after_eating.
  change (out (example_world ?s ?p ?t1 ?t2 ?l)) with l.
  rewrite world_set_out, world_with_tiger2, world_with_prey, world_with_tiger2.
  reflexivity.
Qed.

(** *** One tick of the example world: the prey, then the two tigers *)
Lemma example_Prey_model_step s p t1 t2 log pa ta1 ta2 la pb tb1 tb2 lb
    pc tc1 tc2 lc :
  Animal_step example_step 2%nat (example_world (s + 1) p t1 t2 log) =
    Ok (tt, example_world (s + 1) pa ta1 ta2 la) ->
  Animal_step example_step 3%nat (example_world (s + 1) pa ta1 ta2 la) =
    Ok (tt, example_world (s + 1) pb tb1 tb2 lb) ->
  Animal_step example_step 4%nat (example_world (s + 1) pb tb1 tb2 lb) =
    Ok (tt, example_world (s + 1) pc tc1 tc2 lc) ->
  Prey_model_step example_tick (example_world s p t1 t2 log) =
    Ok (tt, example_world (s + 1) pc tc1 tc2 lc).
Proof.
  intros H2 H3 H4. unfold Prey_model_step.
  run ltac:(reflexivity). run ltac:(reflexivity).
  change (set_step_num _ (example_world s p t1 t2 log))
    with (example_world (s + 1) p t1 t2 log).
  change (grass_ticks (example_world (s + 1) p t1 t2 log)) with (∅ : gmap Z (list uid)).
  rewrite lookup_empty.
  run ltac:(reflexivity).
  erewrite bind_ok.
  2: { unfold schedule_step. run ltac:(reflexivity).
       change (schedule (example_world (s + 1) p t1 t2 log)) with [2; 3; 4]%nat.
       cbn [example_tick order_choices agent_random shuffle for_each].
       erewrite bind_ok; [| run ltac:(reflexivity); exact H2].
       erewrite bind_ok; [| run ltac:(reflexivity); exact H3].
       erewrite bind_ok; [| run ltac:(reflexivity); exact H4].
       reflexivity. }
  run ltac:(reflexivity). reflexivity.
Qed.

Ltac constants := unfold FOOD_PER_TICK, AGE_T; lra.

Lemma example_tick_1 vp vt :
  vt <> 0 ->
  Prey_model_step example_tick (example_m0 vp vt) = Ok (tt, example_m1 vp vt).
Proof.
  intros Hv. unfold example_m0, example_m1.
  eapply (example_Prey_model_step 0).
  - apply example_prey_step; [constants | constants | discriminate].
  - apply example_tiger1_hunts; [constants | constants | constants | discriminate | exact Hv].
  - apply example_tiger2_hunts; [constants | constants | constants | discriminate | exact Hv].
Qed.

Lemma example_tick_2 vp vt :
  Prey_model_step example_tick (example_m1 vp vt) = Ok (tt, example_m2 vp vt).
Proof.
  unfold example_m1, example_m2, example_meal.
  eapply (example_Prey_model_step 1).
  - apply example_prey_step; [constants | constants | discriminate].
  - apply example_tiger1_eats; [constants | constants | constants | discriminate].
  - apply example_tiger2_eats; [constants | constants | constants | discriminate].
Qed.

Lemma example_reachable :
  exists vp vt,
    reachable (example_m0 vp vt) /\ reachable (example_m1 vp vt) /\
    reachable (example_m2 vp vt).
Proof.
  destruct example_constructed as (vp & vt & Hvp & Hvt & H).
  exists vp, vt.
  assert (H0 : reachable (example_m0 vp vt)) by (eapply reachable_init; exact H).
  assert (H1 : reachable (example_m1 vp vt)).
  { eapply reachable_step; [exact H0|]. apply example_tick_1. lra. }
  split; [exact H0|]. split; [exact H1|].
  eapply reachable_step; [exact H1|]. apply example_tick_2.
Qed.

(** ** A step in a tick whose number is a multiple of ten *)

Lemma Animal_step_decade rnd self a a' m :
  objects m !! self = Some (OAnimal a) ->
  alive a = true ->
  0 < food a - FOOD_PER_TICK ->
  age a + AGE_T <= max_age a ->
  pregs a + AGE_T < 1 ->
  (step_num m `mod` 10 = 0)%Z ->
  set_speed (lives_on a) = Ok a' ->
  Animal_step rnd self m =
  seek_and_move rnd self (with_obj self (OAnimal a') m).
Proof.
  intros Ha Hal Hf Hage Hp Hstep Hsp. unfold Animal_step.
  run_the_animal. rewrite Hal. cbn [negb].
  run_update. run_update. run ltac:(reflexivity). run_the_animal.
  cbn [food age max_age set_age set_food].
  rewrite (Rleb_false _ 0) by lra. rewrite (Rltb_false (max_age a)) by lra.
  rewrite with_obj_with_obj. model_simpl.
  rewrite (bool_decide_eq_true_2 _ Hstep). cbn [when].
  run ltac:(apply carry_and_bear_no_birth; [find_obj | cbn [pregs set_age set_food]; lra]).
  assert (E : (if negb (pregs (set_age (age a + AGE_T) (set_food (food a - FOOD_PER_TICK) a)) =? 0)
               then with_obj self
                      (OAnimal (set_pregs
                         (pregs (set_age (age a + AGE_T) (set_food (food a - FOOD_PER_TICK) a)) + AGE_T)
                         (set_food
                            (food (set_age (age a + AGE_T) (set_food (food a - FOOD_PER_TICK) a))
                             - FOOD_PER_TICK / 3)
                            (set_age (age a + AGE_T) (set_food (food a - FOOD_PER_TICK) a)))))
                      (with_obj self
                         (OAnimal (set_age (age a + AGE_T) (set_food (food a - FOOD_PER_TICK) a))) m)
               else with_obj self
                      (OAnimal (set_age (age a + AGE_T) (set_food (food a - FOOD_PER_TICK) a))) m)
              = with_obj self (OAnimal (lives_on a)) m).
  { unfold lives_on. cbn [pregs set_age set_food food age].
    destruct (negb (pregs a =? 0)); [rewrite with_obj_with_obj|]; reflexivity. }
  rewrite E.
  erewrite bind_ok.
  2: { run_the_animal. run ltac:(rewrite Hsp; reflexivity). reflexivity. }
  rewrite with_obj_with_obj. reflexivity.
Qed.

Lemma escape_set_speed x :
  set_speed (lives_on (escape_prey x)) = Ok (escape_prey_aged x).
Proof.
  unfold lives_on, escape_prey. cbn [pregs set_age set_food food age set_pregs].
  rewrite (Reqb_false 0.5 0) by lra. cbn [negb].
  unfold set_speed.
  cbn [age max_age max_speed pregs set_age set_food set_pregs].
  replace (4.995 + AGE_T) with 5 by (unfold AGE_T; lra).
  rewrite get_speed_at_max_age by lra.
  cbn [pregs set_speed_field speed set_age set_food set_pregs]. rewrite (Reqb_false (0.5 + AGE_T) 0) by (unfold AGE_T; lra).
  cbn [negb]. unfold escape_prey_aged.
  replace (4.995 + AGE_T) with 5 by (unfold AGE_T; lra). reflexivity.
Qed.

Lemma escape_world_prey x :
  objects (escape_world x) !! 3%nat = Some (OAnimal (escape_prey x)).
Proof. reflexivity. Qed.

Lemma escape_world_with_prey x a :
  with_obj 3%nat (OAnimal a) (escape_world x) =
  mkModel 1 [3%nat] (mkSpace 3 2 [1; 2; 3]%nat) 29 3%nat ∅ 1 0
    (<[3%nat := OAnimal a]>
       (<[2%nat := OPatch (mkPatch Grass 1 (Some (1, 0)))]>
          (<[1%nat := OPatch (mkPatch Grass 1 (Some (0, 0)))]> ∅)))
    [].
Proof. reflexivity. Qed.

Lemma escape_speed : 0.3375 * 1 - (0.5 + AGE_T) = -0.1675.
Proof. unfold AGE_T. lra. Qed.

(** Where the prey goes. *)
Lemma escape_advance x :
  1 <= Rabs (1 - x) ->
  advance (x, 0) (1, 0) (-0.1675) = (x + -0.1675 * sign_of (1 - x), 0 + 0).
Proof.
  intros H. unfold advance. cbn [fst snd]. rewrite calc_move_level. cbn [fst snd].
  rewrite Rltb_false; [reflexivity|].
  rewrite (Rabs_left (-0.1675)) by lra. lra.
Qed.

Lemma escape_distance x : 1 <= Rabs (1 - x) -> ~ get_distance (x, 0) (1, 0) < 0.5.
Proof. intros H. rewrite get_distance_level. lra. Qed.

(** The step of the prey in the 30th tick. *)
Lemma escape_Animal_step x :
  1 <= Rabs (1 - x) ->
  let new_pos := (x + -0.1675 * sign_of (1 - x), 0 + 0) in
  Animal_step example_step 3%nat (set_step_num 30 (escape_world x)) =
  if out_of_bounds (mkSpace 3 2 [1; 2; 3]%nat) new_pos
  then Raise PointOutOfBounds
  else Ok (tt, set_out [Canvas_coords 3%nat new_pos]
                 (with_obj 3%nat
                    (OAnimal (set_pos (Some new_pos) (escape_prey_aged x)))
                    (set_step_num 30 (escape_world x)))).
Proof.
  intros Hx new_pos.
  rewrite (Animal_step_decade _ _ (escape_prey x) (escape_prey_aged x)).
  2: reflexivity. 2: reflexivity.
  2: { cbn [food escape_prey]. unfold FOOD_PER_TICK. lra. }
  2: { cbn [age max_age escape_prey]. unfold AGE_T. lra. }
  2: { cbn [pregs escape_prey]. unfold AGE_T. lra. }
  2: reflexivity.
  2: apply escape_set_speed.
  erewrite (seek_and_move_towards _ _ (escape_prey_aged x) (x, 0) 2%nat _ (1, 0)).
  2: { eapply (get_target_far _ _ (escape_prey_aged x) (x, 0) 2%nat _ (1, 0)).
       1-5: reflexivity. apply escape_distance. exact Hx. }
  2-5: reflexivity. 2: discriminate.
  cbv zeta. cbn [speed escape_prey_aged]. rewrite escape_speed, (escape_advance x Hx).
  fold new_pos.
  change (space (with_obj _ _ _)) with (mkSpace 3 2 [1; 2; 3]%nat).
  destruct (out_of_bounds _ new_pos); [reflexivity|].
  change (in_list 3%nat _) with true. cbv iota.
  reflexivity.
Qed.

(** The 30th tick. *)
Lemma escape_Prey_model_step x :
  1 <= Rabs (1 - x) ->
  let new_pos := (x + -0.1675 * sign_of (1 - x), 0 + 0) in
  Prey_model_step example_tick (escape_world x) =
  if out_of_bounds (mkSpace 3 2 [1; 2; 3]%nat) new_pos
  then Raise PointOutOfBounds
  else Ok (tt, escape_world_after x new_pos).
Proof.
  intros Hx new_pos. unfold Prey_model_step.
  run ltac:(reflexivity). run ltac:(reflexivity).
  change (set_step_num _ (escape_world x)) with (set_step_num 30 (escape_world x)).
  change (grass_ticks (set_step_num 30 (escape_world x))) with (∅ : gmap Z (list uid)).
  rewrite lookup_empty.
  run ltac:(reflexivity).
  pose proof (escape_Animal_step x Hx) as Hstep. cbv zeta in Hstep. fold new_pos in Hstep.
  destruct (out_of_bounds _ new_pos).
  - apply bind_raise. unfold schedule_step. run ltac:(reflexivity).
    change (schedule (set_step_num 30 (escape_world x))) with [3%nat].
    cbn [example_tick order_choices agent_random shuffle for_each].
    apply bind_raise. run ltac:(reflexivity).
    change (in_list 3%nat _) with true. cbn [when]. exact Hstep.
  - erewrite bind_ok.
    2: { unfold schedule_step. run ltac:(reflexivity).
         change (schedule (set_step_num 30 (escape_world x))) with [3%nat].
         cbn [example_tick order_choices agent_random shuffle for_each].
         erewrite bind_ok; [| run ltac:(reflexivity); exact Hstep].
         reflexivity. }
    run ltac:(reflexivity). reflexivity.
Qed.

(** From the right edge of the world the prey goes further to the right. *)
Lemma escape_right :
  Prey_model_step example_tick (escape_world 2) =
  Ok (tt, escape_world_after 2 (2 + -0.1675 * sign_of (1 - 2), 0 + 0)).
Proof.
  rewrite escape_Prey_model_step.
  2: { rewrite Rabs_left; lra. }
  unfold out_of_bounds, sign_of.
  rewrite (Rltb_true (1 - 2) 0) by lra. cbn [x_max y_max].
  rewrite (Rltb_false _ 0), (Rleb_false 3), (Rltb_false (0 + 0) 0), (Rleb_false 2) by lra.
  reflexivity.
Qed.

(** From the left edge it goes further to the left, and out of the space. *)
Lemma escape_left :
  Prey_model_step example_tick (escape_world 0) = Raise PointOutOfBounds.
Proof.
  rewrite escape_Prey_model_step.
  2: { rewrite Rabs_right; lra. }
  unfold out_of_bounds, sign_of.
  rewrite (Rltb_false (1 - 0) 0) by lra.
  rewrite (Rltb_true _ 0) by lra. reflexivity.
Qed.

Lemma escape_world_objects x u a :
  objects (escape_world x) !! u = Some (OAnimal a) -> u = 3%nat /\ a = escape_prey x.
Proof.
  unfold escape_world. model_simpl. intros H.
  destruct (decide (u = 3%nat)) as [->|N3];
    [rewrite lookup_insert_eq in H; injection H as <-; tauto|].
  rewrite lookup_insert_ne in H by congruence.
  destruct (decide (u = 2%nat)) as [->|N2];
    [rewrite lookup_insert_eq in H; discriminate|].
  rewrite lookup_insert_ne in H by congruence.
  destruct (decide (u = 1%nat)) as [->|N1];
    [rewrite lookup_insert_eq in H; discriminate|].
  rewrite lookup_insert_ne in H by congruence.
  rewrite lookup_empty in H. discriminate.
Qed.

Lemma in_world_escape_world x : 0 <= x <= 2 -> in_world (escape_world x).
Proof.
  intros Hx u a x' y' H Hal Hp. apply escape_world_objects in H as [-> ->].
  injection Hp as <- <-. cbn [x_max y_max space escape_world].
  change (IZR (3 - 1)) with 2. change (IZR (2 - 1)) with 1. lra.
Qed.

Lemma males_escape_world x : males_not_pregnant (escape_world x).
Proof.
  intros u a H Hg. apply escape_world_objects in H as [-> ->]. discriminate.
Qed.

Lemma bounded_escape_world x : bounded (escape_world x).
Proof.
  intros u [o H]. unfold escape_world in H. model_simpl_in H.
  destruct (decide (u = 3%nat)) as [->|N3]; [reflexivity|].
  rewrite lookup_insert_ne in H by congruence.
  destruct (decide (u = 2%nat)) as [->|N2]; [cbn; lia|].
  rewrite lookup_insert_ne in H by congruence.
  destruct (decide (u = 1%nat)) as [->|N1]; [cbn; lia|].
  rewrite lookup_insert_ne, lookup_empty in H by congruence. discriminate.
Qed.

Lemma can_mate_mating_female : can_mate (mating_female 0) = true.
Proof.
  unfold can_mate, mating_female. cbn [gender pregs age food].
  rewrite (Reqb_true 0 0 eq_refl), !Rltb_true by lra. reflexivity.
Qed.

Lemma cannot_mate_pregnant : can_mate (mating_female 0.1) = false.
Proof.
  unfold can_mate, mating_female. cbn [gender pregs age food].
  rewrite (Reqb_false 0.1 0) by lra. reflexivity.
Qed.

Lemma after_mating_mating_world :
  after_mating 2%nat 3%nat (mating_female 0) (mating_world 0 []) =
  mating_world 0.1 [Canvas_animal_update 3%nat; Print_mated 2%nat 3%nat].
Proof. reflexivity. Qed.

(** What the wander rule finds for the male once the female is pregnant:
    the patch. *)
Lemma mating_world_wander log :
  find_mate_or_wander mating_male [1; 2; 3]%nat (mating_world 0.1 log) =
  Ok (Some 1%nat, mating_world 0.1 log).
Proof.
  unfold find_mate_or_wander. run ltac:(reflexivity).
  cbn [gender mating_male bool_decide decide_rel].
  assert (E : first_where (mating_world 0.1 log)
                (fun obj => type_eqb (type mating_male) (obj_type obj) && obj_can_mate obj)
                [1; 2; 3]%nat = None).
  { unfold first_where. cbn [List.find].
    change (objects (mating_world 0.1 log) !! 1%nat)
      with (Some (OPatch (mkPatch Grass 1 (Some (0, 0))))).
    change (objects (mating_world 0.1 log) !! 2%nat) with (Some (OAnimal mating_male)).
    change (objects (mating_world 0.1 log) !! 3%nat)
      with (Some (OAnimal (mating_female 0.1))).
    cbn [obj_can_mate]. rewrite cannot_mate_pregnant. reflexivity. }
  change (if bool_decide (Male = Male) then ?x else _) with x.
  rewrite E. reflexivity.
Qed.

Lemma lone_Prey_model_step :
  Prey_model_step example_tick lone_world = Ok (tt, lone_world_after).
Proof.
  unfold Prey_model_step.
  run ltac:(reflexivity). run ltac:(reflexivity).
  change (grass_ticks (set_step_num _ lone_world)) with (∅ : gmap Z (list uid)).
  rewrite lookup_empty. run ltac:(reflexivity).
  erewrite bind_ok.
  2: { unfold schedule_step. run ltac:(reflexivity).
       change (schedule (set_step_num _ lone_world)) with [1%nat].
       cbn [example_tick order_choices agent_random shuffle for_each].
       erewrite bind_ok.
       2: { run ltac:(reflexivity).
            change (in_list 1%nat _) with true. cbn [when].
            apply (Animal_step_dead _ _ (lone_prey false (Some (0, 0))) (0, 0));
              try reflexivity; apply list_elem_of_singleton; reflexivity. }
       reflexivity. }
  run ltac:(reflexivity). reflexivity.
Qed.

Lemma bounded_lone_world : bounded lone_world.
Proof.
  intros u [o H]. unfold lone_world in H. model_simpl_in H.
  destruct (decide (u = 1%nat)) as [->|N]; [reflexivity|].
  rewrite lookup_insert_ne, lookup_empty in H by congruence. discriminate.
Qed.

Lemma dead_waiting_lone_world : dead_waiting 1%nat lone_world.
Proof.
  split; [apply list_elem_of_singleton; reflexivity|].
  exists (lone_prey false (Some (0, 0))). split; reflexivity.
Qed.

Lemma Patch_regrow_ok p pt m :
  objects m !! p = Some (OPatch pt) ->
  Patch_regrow p m =
  Ok (tt, set_out (Canvas_patch_update p Green :: out m)
            (with_obj p (OPatch (set_grass 1 pt)) m)).
Proof.
  intros H. unfold Patch_regrow, Patch_update.
  run ltac:(apply update_patch_ok; exact H).
  run ltac:(apply the_patch_ok; find_obj).
  rewrite get_color_regrown. reflexivity.
Qed.

Lemma pending_Prey_model_step :
  Prey_model_step example_tick pending_world = Ok (tt, pending_world_after).
Proof.
  unfold Prey_model_step.
  run ltac:(reflexivity). run ltac:(reflexivity).
  change (grass_ticks (set_step_num _ pending_world) !! step_num (set_step_num _ pending_world))
    with (Some [1%nat]).
  erewrite bind_ok.
  2: { cbn [for_each].
       erewrite bind_ok.
       2: { erewrite bind_ok;
              [| apply (Patch_regrow_ok _ (pending_patch 0)); reflexivity].
            reflexivity. }
       reflexivity. }
  erewrite bind_ok.
  2: { unfold schedule_step. run ltac:(reflexivity).
       cbn [example_tick order_choices agent_random shuffle].
       reflexivity. }
  run ltac:(reflexivity). reflexivity.
Qed.

Lemma bounded_pending_world : bounded pending_world.
Proof.
  intros u [o H]. unfold pending_world in H. model_simpl_in H.
  destruct (decide (u = 1%nat)) as [->|N]; [reflexivity|].
  rewrite lookup_insert_ne, lookup_empty in H by congruence. discriminate.
Qed.

(** * The claims *)

(** ** The speed curve *)

(** C2 (get_speed, lines 35-48), as the code has it: for every positive
    [max_age], a newborn has a tenth of [max_speed] (the floor of the
    curve), an animal whose age is [max_age] has [0.3375 * max_speed], and
    the full [max_speed] is reached at half of [max_age]. *)
Theorem get_speed_at_the_ends max_age max_speed :
  0 < max_age ->
  get_speed 0 max_age max_speed = Ok (0.1 * max_speed) /\
  get_speed max_age max_age max_speed = Ok (0.3375 * max_speed) /\
  get_speed (max_age / 2) max_age max_speed = Ok max_speed.
Proof.
  intros H. assert (Hne : max_age <> 0) by lra.
  split; [apply get_speed_newborn; exact Hne|].
  split; [apply get_speed_at_max_age; exact Hne|].
  apply get_speed_at_half; exact Hne.
Qed.

Lemma get_speed_at_the_ends_witness :
  0 < 9 /\
  get_speed 0 9 1 = Ok (0.1 * 1) /\
  get_speed 9 9 1 = Ok (0.3375 * 1) /\
  get_speed (9 / 2) 9 1 = Ok 1.
Proof. split; [lra | apply (get_speed_at_the_ends 9 1); lra]. Defined.

(** A prey of the default lifespan: at age 0 its speed is not its
    [max_speed], and at the age [max_age] it is not a tenth of it. *)
Lemma get_speed_ends_counterexample :
  exists v w,
    get_speed 0 9 1 = Ok v /\ v <> 1 /\
    get_speed 9 9 1 = Ok w /\ w <> 0.1 * 1.
Proof.
  exists (0.1 * 1), (0.3375 * 1).
  split; [apply get_speed_newborn; lra|]. split; [lra|].
  split; [apply get_speed_at_max_age; lra|]. lra.
Qed.

(** ** Movement *)



(** ** Pregnancy *)

(** C9 (can_mate, get_target): in every state that the constructor and the
    ticks can reach, an animal whose gender is male has the pregnancy 0. *)
Theorem males_are_never_pregnant m u a :
  reachable m ->
  objects m !! u = Some (OAnimal a) -> gender a = Male -> pregs a = 0.
Proof. intros H. apply (reachable_males m H). Qed.

Lemma males_are_never_pregnant_witness :
  exists m a,
    reachable m /\ objects m !! 2%nat = Some (OAnimal a) /\ gender a = Male /\
    pregs a = 0.
Proof.
  destruct example_reachable as (vp & vt & H0 & _).
  exists (example_m0 vp vt), (example_prey vp 10 1 true).
  split; [exact H0|]. split; [reflexivity|]. split; [reflexivity|].
  apply (males_are_never_pregnant (example_m0 vp vt) 2%nat _ H0); reflexivity.
Defined.

(** ** Predation *)

(** C3 (get_target, lines 236-240; step, lines 165-169 and 201), as the code
    has it: a tiger whose food is below 80 and whose target is a prey nearer
    than 0.5 gains exactly [40 + prey.food / 4] and loses its target; the
    prey is marked as not alive, and stays in the schedule and in the space.
    It leaves them in its own next step. *)
Theorem tiger_eats_and_prey_waits rnd self a p t b q m :
  objects m !! self = Some (OAnimal a) ->
  objects m !! t = Some (OAnimal b) ->
  type a = Tiger -> type b = Prey -> target a = Some t ->
  pos a = Some p -> pos b = Some q ->
  get_distance p q < 0.5 -> food a < 80 ->
  exists m',
    seek_and_move rnd self m = Ok (tt, m') /\
    objects m' !! self =
      Some (OAnimal (set_target None (set_food (food a + (40 + food b / 4)) a))) /\
    objects m' !! t = Some (OAnimal (set_alive false b)) /\
    schedule m' = schedule m /\ agents (space m') = agents (space m) /\
    (t ∈ schedule m -> t ∈ agents (space m) ->
     forall rnd', exists m'',
       Animal_step rnd' t m' = Ok (tt, m'') /\
       (t ∉ schedule m'') /\ (t ∉ agents (space m''))).
Proof.
  intros Ha Hb Ta Tb Ht Hp Hq Hd Hf.
  pose proof (tiger_is_not_its_prey _ _ _ _ _ Ha Hb Ta Tb) as Hne.
  eexists. split; [eapply seek_and_move_eat; eassumption|].
  unfold after_eating.
  split; [find_obj|]. split; [find_obj|].
  split; [reflexivity|]. split; [reflexivity|].
  intros Hs Hsp rnd'. eexists. split.
  - eapply (Animal_step_dead _ _ (set_alive false b) q);
      [find_obj | reflexivity | exact Hq | exact Hsp | exact Hs].
  - destruct (after_kill_gone t (set_alive false b)
                (with_obj self
                   (OAnimal (set_target None (set_food (food a + (40 + food b / 4)) a)))
                   (with_obj t (OAnimal (set_alive false b))
                      (with_obj self (OAnimal (set_food (food a + (40 + food b / 4)) a))
                         (set_out (Print_ate self t :: out m) m)))))
      as (H1 & H2 & _).
    split; assumption.
Qed.

Lemma tiger_eats_and_prey_waits_witness :
  exists m',
    seek_and_move example_step 3%nat (example_m1 1 1) = Ok (tt, m') /\
    objects m' !! 3%nat =
      Some (OAnimal (example_tiger 1
              (50 - FOOD_PER_TICK + (40 + (10 - FOOD_PER_TICK) / 4)) (1 + AGE_T) None)) /\
    objects m' !! 2%nat =
      Some (OAnimal (example_prey 1 (10 - FOOD_PER_TICK) (1 + AGE_T) false)) /\
    schedule m' = [2; 3; 4]%nat.
Proof.
  destruct (tiger_eats_and_prey_waits example_step 3%nat
              (example_tiger 1 (50 - FOOD_PER_TICK) (1 + AGE_T) (Some 2%nat)) (0, 0)
              2%nat (example_prey 1 (10 - FOOD_PER_TICK) (1 + AGE_T) true) (0, 0)
              (example_m1 1 1))
    as (m' & H1 & H2 & H3 & H4 & _); try reflexivity.
  - rewrite get_distance_here. lra.
  - cbn [food example_tiger]. unfold FOOD_PER_TICK. lra.
  - exists m'. split; [exact H1|]. split; [exact H2|]. split; [exact H3|]. exact H4.
Defined.

(** In the example run the tiger 3 eats the prey 2 in the second tick; when
    the tick is over, the prey is still scheduled and still in the space. *)
Lemma prey_outlasts_the_meal :
  exists vp vt,
    reachable (example_m1 vp vt) /\
    objects (example_m1 vp vt) !! 3%nat =
      Some (OAnimal (example_tiger vt (50 - FOOD_PER_TICK) (1 + AGE_T) (Some 2%nat))) /\
    objects (example_m1 vp vt) !! 2%nat =
      Some (OAnimal (example_prey vp (10 - FOOD_PER_TICK) (1 + AGE_T) true)) /\
    50 - FOOD_PER_TICK < 80 /\
    Prey_model_step example_tick (example_m1 vp vt) = Ok (tt, example_m2 vp vt) /\
    objects (example_m2 vp vt) !! 3%nat =
      Some (OAnimal (example_tiger vt
              (50 - FOOD_PER_TICK - FOOD_PER_TICK + example_meal)
              (1 + AGE_T + AGE_T) None)) /\
    (2%nat ∈ schedule (example_m2 vp vt)) /\
    (2%nat ∈ agents (space (example_m2 vp vt))).
Proof.
  destruct example_reachable as (vp & vt & _ & H1 & _).
  exists vp, vt. split; [exact H1|].
  split; [reflexivity|]. split; [reflexivity|].
  split; [unfold FOOD_PER_TICK; lra|].
  split; [apply example_tick_2|]. split; [reflexivity|].
  split; [apply list_elem_of_here | apply list_elem_of_further, list_elem_of_here].
Qed.

(** ** Death *)

(** C4 (step, lines 165-169; kill, lines 358-368), as the code has it: an
    animal that is marked as not alive when a tick starts has left the
    schedule and the space when that tick ends.  (A prey that a tiger eats
    after the prey's own turn is in this case in the following tick.) *)
Theorem dead_animal_leaves_at_its_turn rnd d m m' :
  bounded m -> dead_waiting d m ->
  Prey_model_step rnd m = Ok (tt, m') ->
  (d ∉ schedule m') /\ (d ∉ agents (space m')).
Proof.
  intros Hb Hd H.
  destruct (dead_removed_within_tick rnd d m m' Hb Hd H) as (H1 & H2 & _).
  split; assumption.
Qed.

Lemma dead_animal_leaves_at_its_turn_witness :
  bounded lone_world /\ dead_waiting 1%nat lone_world /\
  Prey_model_step example_tick lone_world = Ok (tt, lone_world_after) /\
  (1%nat ∉ schedule lone_world_after) /\ (1%nat ∉ agents (space lone_world_after)).
Proof.
  split; [apply bounded_lone_world|]. split; [apply dead_waiting_lone_world|].
  split; [apply lone_Prey_model_step|].
  apply (dead_animal_leaves_at_its_turn example_tick 1%nat lone_world lone_world_after
           bounded_lone_world dead_waiting_lone_world lone_Prey_model_step).
Defined.

(** In the example run the prey 2 is alive before the second tick and not
    alive after it, and the state between the second and the third tick has
    it in the schedule and in the space. *)
Lemma dead_prey_is_kept_for_the_next_tick :
  exists vp vt,
    reachable (example_m1 vp vt) /\
    objects (example_m1 vp vt) !! 2%nat =
      Some (OAnimal (example_prey vp (10 - FOOD_PER_TICK) (1 + AGE_T) true)) /\
    Prey_model_step example_tick (example_m1 vp vt) = Ok (tt, example_m2 vp vt) /\
    reachable (example_m2 vp vt) /\
    (exists b, objects (example_m2 vp vt) !! 2%nat = Some (OAnimal b) /\
               alive b = false /\ pos b = Some (0, 0)) /\
    (2%nat ∈ schedule (example_m2 vp vt)) /\
    (2%nat ∈ agents (space (example_m2 vp vt))).
Proof.
  destruct example_reachable as (vp & vt & _ & H1 & H2).
  exists vp, vt. split; [exact H1|]. split; [reflexivity|].
  split; [apply example_tick_2|]. split; [exact H2|].
  split; [eexists; split; [reflexivity | split; reflexivity]|].
  split; [apply list_elem_of_here | apply list_elem_of_further, list_elem_of_here].
Qed.

(** C10 (get_target, lines 236-240): nothing asks whether the prey is alive.
    Two tigers that have the same prey as their target, are nearer than 0.5
    to it and have less than 80 food both eat it, one after the other: the
    second one finds the prey marked as not alive, and gains the same
    [40 + prey.food / 4]. *)
Theorem one_prey_feeds_two_tigers rnd1 rnd2 u1 u2 a1 a2 p1 p2 t b q m :
  objects m !! u1 = Some (OAnimal a1) ->
  objects m !! u2 = Some (OAnimal a2) ->
  objects m !! t = Some (OAnimal b) ->
  u1 <> u2 ->
  type a1 = Tiger -> type a2 = Tiger -> type b = Prey ->
  target a1 = Some t -> target a2 = Some t ->
  pos a1 = Some p1 -> pos a2 = Some p2 -> pos b = Some q ->
  get_distance p1 q < 0.5 -> get_distance p2 q < 0.5 ->
  food a1 < 80 -> food a2 < 80 ->
  exists m1 m2,
    seek_and_move rnd1 u1 m = Ok (tt, m1) /\
    objects m1 !! t = Some (OAnimal (set_alive false b)) /\
    seek_and_move rnd2 u2 m1 = Ok (tt, m2) /\
    objects m2 !! u1 =
      Some (OAnimal (set_target None (set_food (food a1 + (40 + food b / 4)) a1))) /\
    objects m2 !! u2 =
      Some (OAnimal (set_target None (set_food (food a2 + (40 + food b / 4)) a2))) /\
    objects m2 !! t = Some (OAnimal (set_alive false b)).
Proof.
  intros H1 H2 Hb Hne T1 T2 Tb G1 G2 P1 P2 Q D1 D2 F1 F2.
  pose proof (tiger_is_not_its_prey _ _ _ _ _ H1 Hb T1 Tb) as N1.
  pose proof (tiger_is_not_its_prey _ _ _ _ _ H2 Hb T2 Tb) as N2.
  eexists. eexists.
  split; [eapply seek_and_move_eat; eassumption|].
  split; [unfold after_eating; find_obj|].
  split.
  - eapply (seek_and_move_eat _ _ a2 p2 t (set_alive false b) q);
      try eassumption; unfold after_eating; find_obj.
  - unfold after_eating. cbn [food set_alive].
    split; [find_obj|]. split; find_obj.
Qed.

Lemma one_prey_feeds_two_tigers_witness :
  exists m1 m2,
    seek_and_move example_step 3%nat (example_m1 1 1) = Ok (tt, m1) /\
    seek_and_move example_step 4%nat m1 = Ok (tt, m2) /\
    objects m2 !! 3%nat =
      Some (OAnimal (example_tiger 1
              (50 - FOOD_PER_TICK + (40 + (10 - FOOD_PER_TICK) / 4)) (1 + AGE_T) None)) /\
    objects m2 !! 4%nat =
      Some (OAnimal (example_tiger 1
              (50 - FOOD_PER_TICK + (40 + (10 - FOOD_PER_TICK) / 4)) (1 + AGE_T) None)).
Proof.
  destruct (one_prey_feeds_two_tigers example_step example_step 3%nat 4%nat
              (example_tiger 1 (50 - FOOD_PER_TICK) (1 + AGE_T) (Some 2%nat))
              (example_tiger 1 (50 - FOOD_PER_TICK) (1 + AGE_T) (Some 2%nat))
              (0, 0) (0, 0) 2%nat
              (example_prey 1 (10 - FOOD_PER_TICK) (1 + AGE_T) true) (0, 0)
              (example_m1 1 1))
    as (m1 & m2 & H1 & _ & H2 & H3 & H4 & _); try reflexivity.
  - discriminate.
  - rewrite get_distance_here. lra.
  - rewrite get_distance_here. lra.
  - cbn [food example_tiger]. unfold FOOD_PER_TICK. lra.
  - cbn [food example_tiger]. unfold FOOD_PER_TICK. lra.
  - exists m1, m2. split; [exact H1|]. split; [exact H2|]. split; [exact H3 | exact H4].
Defined.

(** ** Mating *)

(** C5 (get_target, lines 242-252), as the code has it: when the target is
    another animal of the same species that can mate and is nearer than 0.5,
    the pregnancy of the target becomes 0.1, the animal itself is left as it
    is, and the target is returned: the mate stays the target. *)
Theorem mating_keeps_the_mate rnd self a p t b q m :
  objects m !! self = Some (OAnimal a) ->
  objects m !! t = Some (OAnimal b) ->
  self <> t ->
  target a = Some t -> type a = type b -> can_mate b = true ->
  pos a = Some p -> pos b = Some q ->
  get_distance p q < 0.5 ->
  exists m',
    get_target rnd self m = Ok (Some t, m') /\
    objects m' !! t = Some (OAnimal (set_pregs 0.1 b)) /\
    objects m' !! self = Some (OAnimal a).
Proof.
  intros Ha Hb Hne Ht Ty Hc Hp Hq Hd.
  eexists. split; [eapply get_target_mate; eassumption|].
  unfold after_mating. split; find_obj.
Qed.

Lemma mating_keeps_the_mate_witness :
  exists m',
    get_target example_step 2%nat (mating_world 0 []) = Ok (Some 3%nat, m') /\
    objects m' !! 3%nat = Some (OAnimal (mating_female 0.1)) /\
    objects m' !! 2%nat = Some (OAnimal mating_male).
Proof.
  destruct (mating_keeps_the_mate example_step 2%nat mating_male (0, 0) 3%nat
              (mating_female 0) (0, 0) (mating_world 0 []))
    as (m' & H1 & H2 & H3); try reflexivity.
  - discriminate.
  - apply can_mate_mating_female.
  - rewrite get_distance_here. lra.
  - exists m'. split; [exact H1|]. split; [exact H2 | exact H3].
Defined.

(** A male prey on a grass patch, next to a female that can mate and is its
    target: [get_target] returns the female, where the rule for wandering
    gives the patch. *)
Lemma mate_is_returned_not_the_patch :
  exists m',
    get_target example_step 2%nat (mating_world 0 []) = Ok (Some 3%nat, m') /\
    find_mate_or_wander mating_male [1; 2; 3]%nat m' = Ok (Some 1%nat, m').
Proof.
  eexists. split.
  - apply (get_target_mate _ _ mating_male (0, 0) 3%nat (mating_female 0) (0, 0));
      try reflexivity.
    + apply can_mate_mating_female.
    + rewrite get_distance_here. lra.
  - rewrite after_mating_mating_world. apply mating_world_wander.
Qed.

(** ** Grass *)

(** C7 (munch, lines 104-110; regrow, lines 89-91; Prey_model.step, lines
    394-399): a patch that is entered for regrowth in the tick [T], which is
    what [munch] does with [T = step_num + regrow_delay], and that is not
    munched again has the grass 1 in every state from the tick [T] on. *)
Theorem grass_regrows_and_stays p pt T l rnds m m' :
  bounded m ->
  objects m !! p = Some (OPatch pt) ->
  (step_num m < T)%Z -> grass_ticks m !! T = Some l -> p ∈ l ->
  run rnds m = Ok m' ->
  munches p (out m') = munches p (out m) ->
  (T <= step_num m')%Z ->
  exists pt', objects m' !! p = Some (OPatch pt') /\ grass pt' = 1.
Proof.
  intros Hb Hp Hlt Hl Hin Hrun Hsame HT.
  destruct (run_unmunched rnds p T (munches p (out m)) m m' Hrun) as [_ [_ Hu]].
  { split; [exact Hb|]. split; [lia|]. intros _.
    exists pt. split; [exact Hp|]. left. split; [exact Hlt|]. exists l. split; assumption. }
  destruct (Hu Hsame) as (pt' & Hp' & [[Hlt' _] | [_ Hg]]); [lia|].
  exists pt'. split; assumption.
Qed.

Lemma grass_regrows_and_stays_witness :
  exists pt', objects pending_world_after !! 1%nat = Some (OPatch pt') /\ grass pt' = 1.
Proof.
  apply (grass_regrows_and_stays 1%nat (pending_patch 0) 1%Z [1%nat] [example_tick]
           pending_world pending_world_after).
  - apply bounded_pending_world.
  - reflexivity.
  - reflexivity.
  - reflexivity.
  - apply list_elem_of_here.
  - cbn [run]. rewrite pending_Prey_model_step. reflexivity.
  - reflexivity.
  - discriminate.
Defined.

(** ** The edge of the world *)





(** * More about the code *)

(** ** The speed curve *)

Lemma speed_cubic_bound t :
  0 <= t <= 0.5 -> 5.1 * t ^ 3 - 6.4 * t ^ 2 + 0.6 * t + 1 <= 1.025.
Proof.
  intros [H0 H1].
  assert (Ht : t ^ 3 <= 0.5 * t ^ 2).
  { replace (t ^ 3) with (t * t ^ 2) by ring.
    apply Rmult_le_compat_r; [apply pow2_ge_0 | lra]. }
  pose proof (pow2_ge_0 (t - 0.0779)). nra.
Qed.

(** The curve of [get_speed] before the factor [max_speed]. *)
Lemma speed_curve_range x :
  let y := if x <? 0.5
           then - (2 * x - 1) ^ 4 + 1
           else (let x := x - 0.5 in
                 5.1 * x ^ 3 - 6.4 * x ^ 2 + 0.6 * x + 1) in
  x <= 1 ->
  0.1 <= (if y <=? 0.1 then 0.1 else y) <= 1.025.
Proof.
  intros y Hx. subst y.
  destruct (Rltb_spec x 0.5) as [H|H].
  - pose proof (pow2_ge_0 ((2 * x - 1) ^ 2)) as Hp.
    replace (((2 * x - 1) ^ 2) ^ 2) with ((2 * x - 1) ^ 4) in Hp by ring.
    destruct (Rleb_spec (- (2 * x - 1) ^ 4 + 1) 0.1); lra.
  - cbv zeta.
    pose proof (speed_cubic_bound (x - 0.5)) as Hc.
    destruct (Rleb_spec (5.1 * (x - 0.5) ^ 3 - 6.4 * (x - 0.5) ^ 2 + 0.6 * (x - 0.5) + 1) 0.1);
      lra.
Qed.

(** X1: [get_speed] (lines 35-48) returns, for every age, a speed between a
    tenth of [max_speed] and 1.025 times [max_speed], when [max_age] is not
    0 and [max_speed] is not negative. *)
Theorem get_speed_range cur_age max_age max_speed :
  max_age <> 0 -> 0 <= max_speed ->
  exists v, get_speed cur_age max_age max_speed = Ok v /\
            0.1 * max_speed <= v <= 1.025 * max_speed.
Proof.
  intros Hm Hs. unfold get_speed. rewrite (Reqb_false _ _ Hm). cbv zeta.
  eexists. split; [reflexivity|].
  set (x := if cur_age / max_age >? 1 then 1 else cur_age / max_age).
  assert (Hx : x <= 1).
  { subst x. destruct (Rltb_spec 1 (cur_age / max_age)); lra. }
  pose proof (speed_curve_range x) as H. cbv zeta in H. specialize (H Hx).
  split; apply Rmult_le_compat_r; lra.
Qed.

Lemma get_speed_range_witness :
  exists v, get_speed 3 9 1 = Ok v /\ 0.1 * 1 <= v <= 1.025 * 1.
Proof. apply (get_speed_range 3 9 1); lra. Defined.

(** X2: from the age [max_age] on, the speed is [0.3375 * max_speed]. *)
Theorem get_speed_of_the_old cur_age max_age max_speed :
  0 < max_age -> max_age <= cur_age ->
  get_speed cur_age max_age max_speed = Ok (0.3375 * max_speed).
Proof.
  intros Hm Ha. unfold get_speed. rewrite Reqb_false by lra.
  assert (Hx : 1 <= cur_age / max_age).
  { apply Rmult_le_reg_r with max_age; [exact Hm|].
    unfold Rdiv. rewrite Rmult_assoc, Rinv_l by lra. lra. }
  assert (E : (if cur_age / max_age >? 1 then 1 else cur_age / max_age) = 1).
  { destruct (Rltb_spec 1 (cur_age / max_age)); lra. }
  cbv zeta. rewrite E. Rcompare. f_equal. lra.
Qed.

Lemma get_speed_of_the_old_witness : get_speed 12 9 1 = Ok (0.3375 * 1).
Proof. apply (get_speed_of_the_old 12 9 1); lra. Defined.

(** X3: [max_speed] is not the greatest speed: an animal that has lived more
    than half and at most six tenths of [max_age] is faster. *)
Theorem get_speed_above_max_speed cur_age max_age max_speed :
  0 < max_age -> 0 < max_speed ->
  max_age / 2 < cur_age <= 0.6 * max_age ->
  exists v, get_speed cur_age max_age max_speed = Ok v /\ max_speed < v.
Proof.
  intros Hm Hs [Hlo Hhi]. unfold get_speed. rewrite Reqb_false by lra. cbv zeta.
  eexists. split; [reflexivity|].
  assert (Hx : 0.5 < cur_age / max_age <= 0.6).
  { split.
    - apply Rmult_lt_reg_r with max_age; [exact Hm|].
      unfold Rdiv. rewrite Rmult_assoc, Rinv_l by lra. lra.
    - apply Rmult_le_reg_r with max_age; [exact Hm|].
      unfold Rdiv. rewrite Rmult_assoc, Rinv_l by lra. lra. }
  rewrite (Rltb_false 1 (cur_age / max_age)) by lra.
  rewrite (Rltb_false (cur_age / max_age) 0.5) by lra.
  set (t := cur_age / max_age - 0.5). assert (Ht : 0 < t <= 0.1) by (unfold t; lra).
  assert (Hy : 1 < 5.1 * t ^ 3 - 6.4 * t ^ 2 + 0.6 * t + 1).
  { assert (0 < t * (5.1 * t ^ 2 - 6.4 * t + 0.6)); [|nra].
    apply Rmult_lt_0_compat; [lra|].
    pose proof (pow2_ge_0 (t - 0.1)). nra. }
  rewrite Rleb_false by lra.
  rewrite <- (Rmult_1_l max_speed) at 1. apply Rmult_lt_compat_r; lra.
Qed.

Lemma get_speed_above_max_speed_witness :
  exists v, get_speed 5 9 1 = Ok v /\ 1 < v.
Proof. apply (get_speed_above_max_speed 5 9 1); lra. Defined.

(** ** Distances and moves *)

(** X4: [get_distance] (lines 66-70) is symmetric and not negative, and it is
    0 for equal points only. *)
Theorem get_distance_is_a_distance p q :
  get_distance p q = get_distance q p /\
  0 <= get_distance p q /\
  (get_distance p q = 0 <-> p = q).
Proof.
  destruct p as [x1 y1], q as [x2 y2].
  split; [|split].
  - unfold get_distance. f_equal. ring.
  - apply (get_distance_sqr (x1, y1) (x2, y2)).
  - destruct (get_distance_sqr (x1, y1) (x2, y2)) as [H0 H1]. cbn [fst snd] in H1.
    split.
    + intros E. rewrite E in H1.
      pose proof (pow2_ge_0 (y2 - y1)). pose proof (pow2_ge_0 (x2 - x1)).
      assert (Hy : (y2 - y1) ^ 2 = 0) by lra. assert (Hx : (x2 - x1) ^ 2 = 0) by lra.
      assert (y2 - y1 = 0) by (apply Rsqr_0_uniq; unfold Rsqr; lra).
      assert (x2 - x1 = 0) by (apply Rsqr_0_uniq; unfold Rsqr; lra).
      f_equal; lra.
    + intros [= -> ->]. apply get_distance_here.
Qed.

(** X5: [calc_move] (lines 307-325) with a negative distance, towards a
    target on the same horizontal line: if the target is at least as far as
    the distance is long, the new position is farther from the target, by
    the length of the distance; if not, it is the target. *)
Theorem calc_move_backwards x1 x2 y d :
  d < 0 ->
  let D := get_distance (x1, y) (x2, y) in
  let p := advance (x1, y) (x2, y) d in
  (- d <= D -> get_distance p (x2, y) = D - d) /\
  (D < - d -> p = (x2, y)).
Proof.
  intros Hd D p. subst D p. rewrite get_distance_level.
  unfold advance. cbn [fst snd]. rewrite calc_move_level. cbn [fst snd].
  rewrite (Rabs_left d Hd).
  split; intros H.
  - rewrite Rltb_false by lra.
    replace (y + 0) with y by ring. rewrite get_distance_level.
    destruct (sign_of_cases (x2 - x1)) as [[Hs ->] | [Hs ->]].
    + rewrite (Rabs_left (x2 - x1)) by lra. rewrite Rabs_left by lra. lra.
    + rewrite (Rabs_pos_eq (x2 - x1)) by lra. rewrite Rabs_pos_eq by lra. lra.
  - rewrite Rltb_true by lra. reflexivity.
Qed.

Lemma calc_move_backwards_witness :
  -1 < 0 /\ get_distance (advance (2, 0) (0, 0) (-1)) (0, 0) = 3.
Proof.
  split; [lra|].
  destruct (calc_move_backwards 2 0 0 (-1)) as [H _]; [lra|].
  rewrite get_distance_level in H. replace 3 with (Rabs (0 - 2) - -1).
  - apply H. rewrite Rabs_left; lra.
  - rewrite Rabs_left; lra.
Defined.

Lemma calc_move_ignores_the_sign_sym x1 y1 x2 y2 d :
  y2 <> y1 ->
  calc_move x1 y1 x2 y2 (- d) = calc_move x1 y1 x2 y2 d.
Proof.
  intros Hy. unfold calc_move.
  rewrite (Reqb_false (y2 - y1) 0) by lra. cbn [negb].
  replace ((- d) ^ 2) with (d ^ 2) by ring. reflexivity.
Qed.

(** X6: towards a target that is not on the same horizontal line, [calc_move]
    does not look at the sign of the distance. *)
Theorem calc_move_ignores_the_sign x1 y1 x2 y2 d :
  y2 <> y1 ->
  calc_move x1 y1 x2 y2 (- d) = calc_move x1 y1 x2 y2 d.
Proof. apply calc_move_ignores_the_sign_sym. Qed.

Lemma calc_move_ignores_the_sign_witness :
  calc_move 0 0 3 4 (- 1) = calc_move 0 0 3 4 1.
Proof. apply (calc_move_ignores_the_sign 0 0 3 4 1). lra. Defined.

(** ** Death by hunger and by age *)

Lemma after_kill_count u a m : count (after_kill u a m) = (count m - 1)%Z.
Proof. unfold after_kill. destruct (bool_decide (type a = Prey)); reflexivity. Qed.

Lemma after_kill_out u a m :
  out (after_kill u a m) = Canvas_create_text u :: Canvas_delete u :: out m.
Proof. unfold after_kill. destruct (bool_decide (type a = Prey)); reflexivity. Qed.

(** The step of an animal that is killed after it has aged: [e] is what is
    printed. *)
Lemma Animal_step_last rnd self a p m (e : Event) :
  objects m !! self = Some (OAnimal a) -> alive a = true -> pos a = Some p ->
  self ∈ schedule m -> self ∈ agents (space m) ->
  (food a - FOOD_PER_TICK <= 0 /\ e = Print_starved self) \/
  (0 < food a - FOOD_PER_TICK /\ max_age a < age a + AGE_T /\ e = Print_aged_out self) ->
  let a' := set_age (age a + AGE_T) (set_food (food a - FOOD_PER_TICK) a) in
  Animal_step rnd self m =
  Ok (tt, after_kill self a' (set_out (e :: out m) (with_obj self (OAnimal a') m))).
Proof.
  intros Ha Hal Hp Hs Hsp Hwhy a'. unfold Animal_step.
  run_the_animal. rewrite Hal. cbn [negb].
  run_update. run_update. run ltac:(reflexivity). run_the_animal.
  cbn [food age max_age set_age set_food]. rewrite with_obj_with_obj.
  destruct Hwhy as [[Hf ->] | (Hf & Hage & ->)].
  - rewrite (Rleb_true _ 0 Hf). run_emit.
    apply (kill_ok _ _ p); [find_obj | exact Hp | exact Hsp | exact Hs].
  - rewrite (Rleb_false _ 0) by lra. rewrite (Rltb_true _ _ Hage). run_emit.
    apply (kill_ok _ _ p); [find_obj | exact Hp | exact Hsp | exact Hs].
Qed.

(** X7: an animal whose food is not above [FOOD_PER_TICK] when its step
    starts (step, lines 170-177) starves in this step: it leaves the
    schedule and the space, the count goes down by one, and it neither
    looks for a target nor moves. *)
Theorem starving_animal_is_removed rnd self a p m :
  objects m !! self = Some (OAnimal a) -> alive a = true -> pos a = Some p ->
  self ∈ schedule m -> self ∈ agents (space m) ->
  food a <= FOOD_PER_TICK ->
  exists m',
    Animal_step rnd self m = Ok (tt, m') /\
    (self ∉ schedule m') /\ (self ∉ agents (space m')) /\
    count m' = (count m - 1)%Z /\
    objects m' !! self =
      Some (OAnimal (set_pos None (set_age (age a + AGE_T)
                                     (set_food (food a - FOOD_PER_TICK) a)))) /\
    out m' = Canvas_create_text self :: Canvas_delete self :: Print_starved self :: out m.
Proof.
  intros Ha Hal Hp Hs Hsp Hf.
  eexists. split.
  - apply (Animal_step_last rnd self a p m (Print_starved self)); try assumption.
    left. split; [lra | reflexivity].
  - match goal with |- context [after_kill ?u ?b ?x] =>
      destruct (after_kill_gone u b x) as (H1 & H2 & H3) end.
    split; [exact H1|]. split; [exact H2|].
    split; [rewrite after_kill_count; reflexivity|].
    split; [exact H3|]. rewrite after_kill_out. reflexivity.
Qed.

Lemma starving_animal_is_removed_witness :
  exists m',
    Animal_step example_step 2%nat
      (example_world 1 (example_prey 1 0.2 1 true) (example_tiger 1 50 1 None)
         (example_tiger 1 50 1 None) []) = Ok (tt, m') /\
    (2%nat ∉ schedule m') /\ (2%nat ∉ agents (space m')) /\ count m' = 2%Z.
Proof.
  destruct (starving_animal_is_removed example_step 2%nat
              (example_prey 1 0.2 1 true) (0, 0)
              (example_world 1 (example_prey 1 0.2 1 true) (example_tiger 1 50 1 None)
                 (example_tiger 1 50 1 None) []))
    as (m' & H1 & H2 & H3 & H4 & _); try reflexivity.
  - apply list_elem_of_here.
  - apply list_elem_of_further, list_elem_of_here.
  - cbn [food example_prey]. unfold FOOD_PER_TICK. lra.
  - exists m'. split; [exact H1|]. split; [exact H2|]. split; [exact H3 | exact H4].
Defined.

(** X8: an animal that does not starve and whose age, after the tick has
    been added, is above [max_age] (step, lines 178-181) is removed in the
    same way. *)
Theorem old_animal_is_removed rnd self a p m :
  objects m !! self = Some (OAnimal a) -> alive a = true -> pos a = Some p ->
  self ∈ schedule m -> self ∈ agents (space m) ->
  FOOD_PER_TICK < food a -> max_age a < age a + AGE_T ->
  exists m',
    Animal_step rnd self m = Ok (tt, m') /\
    (self ∉ schedule m') /\ (self ∉ agents (space m')) /\
    count m' = (count m - 1)%Z /\
    out m' = Canvas_create_text self :: Canvas_delete self :: Print_aged_out self :: out m.
Proof.
  intros Ha Hal Hp Hs Hsp Hf Hage.
  eexists. split.
  - apply (Animal_step_last rnd self a p m (Print_aged_out self)); try assumption.
    right. split; [lra|]. split; [exact Hage | reflexivity].
  - match goal with |- context [after_kill ?u ?b ?x] =>
      destruct (after_kill_gone u b x) as (H1 & H2 & H3) end.
    split; [exact H1|]. split; [exact H2|].
    split; [rewrite after_kill_count; reflexivity|].
    rewrite after_kill_out. reflexivity.
Qed.

Lemma old_animal_is_removed_witness :
  exists m',
    Animal_step example_step 2%nat
      (example_world 1 (example_prey 1 10 9.2 true) (example_tiger 1 50 1 None)
         (example_tiger 1 50 1 None) []) = Ok (tt, m') /\
    (2%nat ∉ schedule m') /\ (2%nat ∉ agents (space m')) /\ count m' = 2%Z.
Proof.
  destruct (old_animal_is_removed example_step 2%nat
              (example_prey 1 10 9.2 true) (0, 0)
              (example_world 1 (example_prey 1 10 9.2 true) (example_tiger 1 50 1 None)
                 (example_tiger 1 50 1 None) []))
    as (m' & H1 & H2 & H3 & H4 & _); try reflexivity.
  - apply list_elem_of_here.
  - apply list_elem_of_further, list_elem_of_here.
  - cbn [food example_prey]. unfold FOOD_PER_TICK. lra.
  - cbn [age max_age example_prey]. rewrite max_age_prey. unfold AGE_T. lra.
  - exists m'. split; [exact H1|]. split; [exact H2|]. split; [exact H3 | exact H4].
Defined.

(** ** Targets *)

Lemma first_where_some m test l u :
  first_where m test l = Some u ->
  exists o, objects m !! u = Some o /\ test o = true.
Proof.
  unfold first_where. intros H. apply List.find_some in H as [_ H].
  destruct (objects m !! u) as [o|]; [|discriminate]. exists o. split; [reflexivity | exact H].
Qed.

(** X9: a tiger that has 80 food or more and stands at its prey (get_target,
    lines 229-252) does not eat: the state stays as it is, the prey is not
    touched, and the prey is not the target any more. *)
Theorem sated_tiger_spares_the_prey rnd self a p t b q m :
  objects m !! self = Some (OAnimal a) ->
  objects m !! t = Some (OAnimal b) ->
  type a = Tiger -> type b = Prey -> target a = Some t ->
  pos a = Some p -> pos b = Some q ->
  get_distance p q < 0.5 -> 80 <= food a ->
  exists r, get_target rnd self m = Ok (r, m) /\ r <> Some t.
Proof.
  intros Ha Hb Ta Tb Ht Hp Hq Hd Hf. unfold get_target.
  run_the_animal. run_the_pos. run_neighbors.
  assert (Hr : reach_target self a p m = Ok (Continue None, m)).
  { unfold reach_target. rewrite Ht. run_the_obj.
    cbn [obj_pos obj_type obj_food obj_can_mate]. rewrite Hq, (Rltb_true _ _ Hd), Ta, Tb.
    rewrite (Rltb_false (food a) 80) by lra.
    change (type_eqb Tiger Prey) with false. rewrite andb_false_r. reflexivity. }
  run ltac:(exact Hr). run_the_animal.
  unfold find_food. rewrite (Rltb_false (food a) 80) by lra.
  run ltac:(reflexivity).
  unfold find_mate_or_wander. run ltac:(reflexivity).
  match goal with
  | |- context [match ?mate with Some obj => ret (Some obj) | None => ?w end] =>
      destruct mate as [u|] eqn:E
  end.
  - eexists. split; [reflexivity|]. intros [= ->].
    destruct (bool_decide (gender a = Male)); [|discriminate].
    apply first_where_some in E as (o & Ho & Htest).
    rewrite Hb in Ho. injection Ho as <-.
    cbn [obj_type] in Htest. rewrite Ta, Tb in Htest. discriminate.
  - eexists. split; [reflexivity|]. intros E'.
    apply first_where_some in E' as (o & Ho & Htest).
    rewrite Hb in Ho. injection Ho as <-. discriminate.
Qed.

Lemma sated_tiger_spares_the_prey_witness :
  exists r,
    get_target example_step 3%nat
      (example_world 1 (example_prey 1 10 1 true) (example_tiger 1 90 1 (Some 2%nat))
         (example_tiger 1 50 1 None) []) =
    Ok (r, example_world 1 (example_prey 1 10 1 true)
             (example_tiger 1 90 1 (Some 2%nat)) (example_tiger 1 50 1 None) []) /\
    r <> Some 2%nat.
Proof.
  apply (sated_tiger_spares_the_prey example_step 3%nat
           (example_tiger 1 90 1 (Some 2%nat)) (0, 0) 2%nat
           (example_prey 1 10 1 true) (0, 0)); try reflexivity.
  - rewrite get_distance_here. lra.
  - cbn [food example_tiger]. lra.
Defined.





(** ** Where the objects are *)

Lemma out_of_bounds_false s x y :
  out_of_bounds s (x, y) = false ->
  0 <= x < IZR (x_max s) /\ 0 <= y < IZR (y_max s).
Proof.
  unfold out_of_bounds. intros H.
  apply orb_false_elim in H as [H Hy2]. apply orb_false_elim in H as [H Hy1].
  apply orb_false_elim in H as [Hx1 Hx2].
  destruct (Rltb_spec x 0); [discriminate|].
  destruct (Rleb_spec (IZR (x_max s)) x); [discriminate|].
  destruct (Rltb_spec y 0); [discriminate|].
  destruct (Rleb_spec (IZR (y_max s)) y); [discriminate|]. lra.
Qed.

Lemma obj_pos_set_obj_pos v o : obj_pos (set_obj_pos v o) = v.
Proof. destruct o; reflexivity. Qed.

Lemma in_space_with_obj u o o' m :
  in_space m -> objects m !! u = Some o ->
  obj_pos o' = obj_pos o -> in_space (with_obj u o' m).
Proof.
  intros Hm Ho Hp v ov x y Hv Hpos. model_simpl_in Hv.
  destruct (decide (v = u)) as [->|Hne].
  - rewrite lookup_insert_eq in Hv. injection Hv as <-. rewrite Hp in Hpos.
    apply (Hm u o x y Ho Hpos).
  - rewrite lookup_insert_ne in Hv by congruence. apply (Hm v ov x y Hv Hpos).
Qed.

Lemma in_space_put u o m :
  in_space m ->
  (forall x y, obj_pos o = Some (x, y) ->
     0 <= x < IZR (x_max (space m)) /\ 0 <= y < IZR (y_max (space m))) ->
  in_space (with_obj u o m).
Proof.
  intros Hm Ho v ov x y Hv Hpos. model_simpl_in Hv.
  destruct (decide (v = u)) as [->|Hne].
  - rewrite lookup_insert_eq in Hv. injection Hv as <-. apply Ho. exact Hpos.
  - rewrite lookup_insert_ne in Hv by congruence. apply (Hm v ov x y Hv Hpos).
Qed.

Lemma mutation_in_space self m m' : mutation self m m' -> in_space m -> in_space m'.
Proof.
  intros H Hm. destruct H.
  - apply (in_space_with_obj _ (OAnimal a)); [assumption | assumption |].
    cbn [obj_pos]. apply H0.
  - apply (in_space_with_obj _ (OAnimal a)); [assumption | assumption | reflexivity].
  - apply (in_space_with_obj _ (OAnimal a)); [assumption | assumption | reflexivity].
  - destruct p as [px py]. apply in_space_put; [assumption|]. intros x y Hp.
    rewrite obj_pos_set_obj_pos in Hp. injection Hp as <- <-.
    apply out_of_bounds_false. assumption.
  - unfold after_birth. cbv zeta.
    intros v ov x y Hv Hpos. destruct p as [px py].
    apply out_of_bounds_false in H1.
    destruct (bool_decide (type a = Prey)); model_simpl_in Hv; model_simpl.
    all: rewrite insert_insert_eq in Hv.
    all: destruct (decide (v = (last_uid m + 1)%nat)) as [->|Hne];
      [ rewrite lookup_insert_eq in Hv; injection Hv as <-;
        cbn in Hpos; injection Hpos as <- <-; exact H1
      | rewrite lookup_insert_ne in Hv by congruence; apply (Hm v ov x y Hv Hpos) ].
  - unfold after_patch. cbv zeta.
    intros v ov x y Hv Hpos. destruct p as [px py].
    apply out_of_bounds_false in H.
    model_simpl_in Hv; model_simpl. rewrite insert_insert_eq in Hv.
    destruct (decide (v = (last_uid m + 1)%nat)) as [->|Hne];
      [ rewrite lookup_insert_eq in Hv; injection Hv as <-;
        cbn in Hpos; injection Hpos as <- <-; exact H
      | rewrite lookup_insert_ne in Hv by congruence; apply (Hm v ov x y Hv Hpos) ].
  - apply (in_space_put self (set_obj_pos None o)
             (set_agents (remove_uid self (agents (space m))) m)); [exact Hm|].
    intros x y Hp. rewrite obj_pos_set_obj_pos in Hp. discriminate.
  - exact Hm.
  - exact Hm.
  - exact Hm.
  - exact Hm.
  - exact Hm.
  - subst m' p'.
    apply (in_space_with_obj u (OPatch p) _ m Hm H). reflexivity.
  - subst m' p'.
    apply (in_space_with_obj u (OPatch p) _ m Hm H). reflexivity.
  - exact Hm.
Qed.

Lemma in_space_empty width height : in_space (empty_model width height).
Proof. intros u o x y H. cbn in H. rewrite lookup_empty in H. discriminate. Qed.

Lemma mutations_in_space self m m' : mutations self m m' -> in_space m -> in_space m'.
Proof. induction 1; eauto using mutation_in_space. Qed.

Lemma reachable_in_space m : reachable m -> in_space m.
Proof.
  induction 1 as [rnd pc tc w h m H | rnd m m' _ IH H].
  - eapply mutations_in_space; [eapply Prey_model_init_mutations; exact H|].
    apply in_space_empty.
  - eapply (Prey_model_step_preserves in_space); try exact H; try exact IH.
    + intros self m1 m2. apply mutation_in_space.
    + intros m1 v Hb. exact Hb.
    + intros m1 v Hb. exact Hb.
Qed.

(** X12: in every state that can be reached, an object that has a position
    is inside of the mesa space (place_agent, move_agent): its coordinates
    are at least 0 and below the bounds of the space, which are one more
    than the width and the height of the world. *)
Theorem positions_are_in_the_space m u o x y :
  reachable m ->
  objects m !! u = Some o -> obj_pos o = Some (x, y) ->
  0 <= x < IZR (x_max (space m)) /\ 0 <= y < IZR (y_max (space m)).
Proof. intros H. apply (reachable_in_space m H). Qed.

Lemma positions_are_in_the_space_witness :
  exists m, reachable m /\ 0 <= 0 < IZR (x_max (space m)) /\ 0 <= 0 < IZR (y_max (space m)).
Proof.
  destruct example_reachable as (vp & vt & _ & _ & H2).
  exists (example_m2 vp vt). split; [exact H2|].
  apply (positions_are_in_the_space (example_m2 vp vt) 3%nat
           (OAnimal (example_tiger vt (50 - FOOD_PER_TICK - FOOD_PER_TICK + example_meal)
                       (1 + AGE_T + AGE_T) None)) 0 0 H2); reflexivity.
Defined.

(** ** The uids *)

Lemma mutation_listed self m m' : mutation self m m' -> listed m -> listed m'.
Proof.
  intros H Hm u Hu.
  destruct (mutation_lists _ _ _ H) as (Hl & Hs & Ha & _).
  assert (E : u ∈ schedule m \/ u ∈ agents (space m) \/ u = (last_uid m + 1)%nat
              /\ (last_uid m < last_uid m')%nat).
  { assert (Hgrow : schedule m' = schedule m ++ [(last_uid m + 1)%nat] \/
                    agents (space m') = agents (space m) ++ [(last_uid m + 1)%nat] ->
                    (last_uid m < last_uid m')%nat).
    { intros Hg. destruct H; unfold after_birth, after_patch in *; cbv zeta in *;
        try (destruct (bool_decide (type a = Prey)));
        try subst m'; try subst p'; model_simpl_in Hg; model_simpl; try lia.
      all: destruct Hg as [Hg | Hg];
        apply (f_equal (@length uid)) in Hg; rewrite ?length_app in Hg;
        cbn [length] in Hg; try lia.
      all: unfold remove_uid in Hg;
        pose proof (length_filter (fun v : uid => v <> self) (schedule m));
        pose proof (length_filter (fun v : uid => v <> self) (agents (space m)));
        lia. }
    destruct Hu as [Hu | Hu].
    - destruct Hs as [Hs | [Hs | Hs]]; rewrite Hs in Hu.
      + left. exact Hu.
      + left. apply in_remove_uid in Hu as [_ Hu]. exact Hu.
      + apply elem_of_app in Hu as [Hu | Hu]; [left; exact Hu|].
        right; right. apply list_elem_of_singleton in Hu. split; [exact Hu|].
        apply Hgrow. left. exact Hs.
    - destruct Ha as [Ha | [Ha | Ha]]; rewrite Ha in Hu.
      + right; left. exact Hu.
      + right; left. apply in_remove_uid in Hu as [_ Hu]. exact Hu.
      + apply elem_of_app in Hu as [Hu | Hu]; [right; left; exact Hu|].
        right; right. apply list_elem_of_singleton in Hu. split; [exact Hu|].
        apply Hgrow. right. exact Ha. }
  destruct E as [E | [E | [-> E]]]; [| | lia].
  - pose proof (Hm u (or_introl E)). lia.
  - pose proof (Hm u (or_intror E)). lia.
Qed.

Lemma mutations_listed self m m' : mutations self m m' -> listed m -> listed m'.
Proof. induction 1; eauto using mutation_listed. Qed.

Lemma reachable_listed m : reachable m -> listed m.
Proof.
  induction 1 as [rnd pc tc w h m H | rnd m m' _ IH H].
  - eapply mutations_listed; [eapply Prey_model_init_mutations; exact H|].
    intros u [Hu | Hu]; inversion Hu.
  - eapply (Prey_model_step_preserves listed); try exact H; try exact IH.
    + intros self m1 m2. apply mutation_listed.
    + intros m1 v Hb. exact Hb.
    + intros m1 v Hb. exact Hb.
Qed.

(** X13: the uid that [new_uid] (lines 370-374) hands out in a state that can
    be reached is new: no object has it, and it is neither in the schedule
    nor in the space. *)
Theorem new_uid_is_new m u m' :
  reachable m -> new_uid m = Ok (u, m') ->
  objects m !! u = None /\ (u ∉ schedule m) /\ (u ∉ agents (space m)).
Proof.
  intros Hr H. apply new_uid_inv in H as [-> _].
  pose proof (reachable_bounded m Hr) as Hb. pose proof (reachable_listed m Hr) as Hl.
  split; [|split].
  - destruct (objects m !! (last_uid m + 1)%nat) as [o|] eqn:E; [|exact E].
    assert (last_uid m + 1 <= last_uid m)%nat by (apply Hb; eauto). lia.
  - intros Hin. assert (last_uid m + 1 <= last_uid m)%nat by (apply Hl; auto). lia.
  - intros Hin. assert (last_uid m + 1 <= last_uid m)%nat by (apply Hl; auto). lia.
Qed.

Lemma new_uid_is_new_witness :
  exists m, reachable m /\ objects m !! 5%nat = None /\
            (5%nat ∉ schedule m) /\ (5%nat ∉ agents (space m)).
Proof.
  destruct example_reachable as (vp & vt & _ & _ & H2).
  exists (example_m2 vp vt). split; [exact H2|].
  apply (new_uid_is_new (example_m2 vp vt) 5%nat
           (set_last_uid 5%nat (example_m2 vp vt)) H2). reflexivity.
Defined.

(** ** The number of the tick *)

(** X14: [step_num] counts the ticks (Prey_model.step, line 391): no step of
    an animal changes it, and after a run it has grown by the number of the
    ticks of the run. *)
Theorem step_num_counts_the_ticks rnds m m' :
  run rnds m = Ok m' ->
  step_num m' = (step_num m + Z.of_nat (length rnds))%Z.
Proof.
  revert m. induction rnds as [|rnd rnds IH]; intros m H; cbn [run] in H.
  - injection H as <-. cbn [length]. lia.
  - destruct (Prey_model_step rnd m) as [[[] m1]|] eqn:E; [|discriminate].
    rewrite (IH m1 H). rewrite (Prey_model_step_step_num _ _ _ E). cbn [length]. lia.
Qed.

Lemma step_num_counts_the_ticks_witness :
  step_num (example_m2 1 1) = (step_num (example_m0 1 1) + 2)%Z.
Proof.
  apply (step_num_counts_the_ticks [example_tick; example_tick]
           (example_m0 1 1) (example_m2 1 1)).
  cbn [run]. rewrite example_tick_1 by lra. rewrite example_tick_2. reflexivity.
Defined.

(** ** The length of a move *)

(** X15: whatever the distance that is asked for, and also when it is
    negative, the position that [calc_move] (lines 307-325) returns is not
    farther from the old position than the length of that distance. *)
Theorem a_move_is_not_longer_than_the_speed x1 y1 x2 y2 d :
  get_distance (x1, y1) (advance (x1, y1) (x2, y2) d) <= Rabs d.
Proof.
  destruct (Req_dec_T y2 y1) as [->|Hy].
  - unfold advance. cbn [fst snd]. rewrite calc_move_level. cbn [fst snd].
    destruct (Rltb_spec (Rabs (x2 - x1)) (Rabs d)) as [H|H].
    + rewrite get_distance_level. lra.
    + replace (y1 + 0) with y1 by ring. rewrite get_distance_level.
      replace (x1 + d * sign_of (x2 - x1) - x1) with (d * sign_of (x2 - x1)) by ring.
      rewrite Rabs_mult, Rabs_sign_of. lra.
  - assert (E : advance (x1, y1) (x2, y2) d = advance (x1, y1) (x2, y2) (Rabs d)).
    { unfold Rabs. destruct (Rcase_abs d); [|reflexivity].
      unfold advance. cbn [fst snd]. rewrite calc_move_ignores_the_sign_sym by exact Hy.
      reflexivity. }
    rewrite E.
    destruct (advance_general x1 y1 x2 y2 (Rabs d) (Rabs_pos d)) as [H1 H2].
    destruct (Rle_lt_dec (Rabs d) (get_distance (x1, y1) (x2, y2))) as [H|H].
    + destruct (H1 H) as [Hd _]. lra.
    + rewrite (H2 H). lra.
Qed.

(** ** Where targets come from *)

Lemma first_where_in m test l u :
  first_where m test l = Some u ->
  In u l /\ exists o, objects m !! u = Some o /\ test o = true.
Proof.
  unfold first_where. intros H. apply List.find_some in H as [Hin H].
  split; [exact Hin|].
  destruct (objects m !! u) as [o|]; [|discriminate]. exists o. split; [reflexivity | exact H].
Qed.

Lemma within_wider m p r r' u :
  0 <= r <= r' -> within m p r u = true -> within m p r' u = true.
Proof.
  intros Hr. unfold within. destruct (objects m !! u) as [o|]; [|discriminate].
  destruct (obj_pos o) as [[x y]|]; [|discriminate].
  intros H. destruct (Rleb_spec (Rabs (x - fst p) ^ 2 + Rabs (y - snd p) ^ 2) (r ^ 2));
    [|discriminate].
  apply Rleb_true. assert (r ^ 2 <= r' ^ 2) by nra. lra.
Qed.

Lemma in_shuffle {A} (c : list nat) (l : list A) x : In x (shuffle c l) -> In x l.
Proof.
  intros H. apply list_elem_of_In. apply (elem_of_shuffle c l x).
  apply list_elem_of_In. exact H.
Qed.

(** [get_target] of an animal that has no target: lines 253-281. *)
Lemma get_target_searching rnd self a p m :
  objects m !! self = Some (OAnimal a) -> pos a = Some p -> target a = None ->
  get_target rnd self m =
  (do found <- find_food rnd a p;
   match found with
   | Some obj => ret (Some obj)
   | None =>
       find_mate_or_wander a
         (shuffle (cellmates_choices rnd)
            (List.filter (within m p 3) (agents (space m))))
   end) m.
Proof.
  intros Ha Hp Ht. unfold get_target.
  run_the_animal. run_the_pos. run_neighbors.
  unfold reach_target. rewrite Ht. run ltac:(reflexivity).
  run_the_animal. reflexivity.
Qed.

(** X16: an animal that has no target (get_target, lines 253-281) takes its
    new target among its neighbours in the space, and changes nothing: a
    prey looks no farther than 3, a tiger no farther than [RADIUS_TIGER],
    and no animal takes itself. *)
Theorem new_target_is_a_neighbour rnd self a p u m m' :
  objects m !! self = Some (OAnimal a) -> pos a = Some p -> target a = None ->
  get_target rnd self m = Ok (Some u, m') ->
  m' = m /\ u <> self /\
  In u (List.filter
          (within m p (if bool_decide (type a = Prey) then 3 else RADIUS_TIGER))
          (agents (space m))).
Proof.
  intros Ha Hp Ht H. rewrite (get_target_searching rnd self a p m Ha Hp Ht) in H.
  assert (Hwide : forall r v, 0 <= r ->
            r <= (if bool_decide (type a = Prey) then 3 else RADIUS_TIGER) ->
            In v (List.filter (within m p r) (agents (space m))) ->
            In v (List.filter
                    (within m p (if bool_decide (type a = Prey) then 3 else RADIUS_TIGER))
                    (agents (space m)))).
  { intros r v H0 Hr Hv. apply List.filter_In in Hv as [Hv1 Hv2].
    apply List.filter_In. split; [exact Hv1|].
    apply (within_wider m p r); [split; assumption | exact Hv2]. }
  assert (Hself : forall test l,
            (forall o, test o = true -> o <> OAnimal a) ->
            first_where m test l = Some u -> u <> self).
  { intros test l Htest Hf ->. apply first_where_in in Hf as (_ & o & Ho & Hto).
    rewrite Ha in Ho. injection Ho as <-. apply (Htest _ Hto). reflexivity. }
  assert (Hmate : forall l m2,
            find_mate_or_wander a (shuffle (cellmates_choices rnd)
                                     (List.filter (within m p 3) (agents (space m)))) m
              = Ok (Some u, m2) ->
            l = (if bool_decide (type a = Prey) then 3 else RADIUS_TIGER) -> 3 <= l ->
            m2 = m /\ u <> self /\
            In u (List.filter (within m p l) (agents (space m)))).
  { intros l m2 Hm -> Hl. unfold find_mate_or_wander in Hm.
    apply bind_inv in Hm as (mx & m3 & Hg & Hm). injection Hg as <- <-.
    match type of Hm with
    | match ?f with _ => _ end _ = _ => destruct f as [v|] eqn:Em
    end.
    - injection Hm as -> <-. split; [reflexivity|].
      destruct (bool_decide (gender a = Male)) eqn:Eg; [|discriminate].
      split.
      + eapply Hself; [|exact Em]. intros o Ho ->.
        cbn [obj_can_mate] in Ho. unfold can_mate in Ho.
        apply bool_decide_eq_true in Eg. rewrite Eg in Ho.
        rewrite andb_false_r in Ho. discriminate.
      + apply first_where_in in Em as [Hin _]. apply in_shuffle in Hin.
        apply (Hwide 3); try lra. exact Hin.
    - injection Hm as Ew <-. split; [reflexivity|]. split.
      + eapply Hself; [|exact Ew]. intros o Ho ->. discriminate.
      + apply first_where_in in Ew as [Hin _]. apply in_shuffle in Hin.
        apply (Hwide 3); try lra. exact Hin. }
  assert (H3 : 3 <= (if bool_decide (type a = Prey) then 3 else RADIUS_TIGER)).
  { destruct (bool_decide (type a = Prey)); unfold RADIUS_TIGER; lra. }
  apply bind_inv in H as (found & m1 & Hfood & H).
  unfold find_food in Hfood.
  destruct (food a <? 80).
  - destruct (type a) eqn:Ety.
    + (* a prey *)
      change (type_eqb Prey Prey) with true in Hfood. cbv iota in Hfood.
      apply bind_inv in Hfood as (cells & m2 & Hc & Hfood). injection Hc as <- <-.
      apply bind_inv in Hfood as (mx & m2 & Hg & Hfood). injection Hg as <- <-.
      injection Hfood as <- <-.
      match type of H with
      | match ?f with _ => _ end _ = _ => destruct f as [v|] eqn:Ef
      end.
      * injection H as -> <-. split; [reflexivity|]. split.
        -- eapply Hself; [|exact Ef]. intros o Ho ->. discriminate.
        -- apply first_where_in in Ef as [Hin _]. apply in_shuffle in Hin.
           apply (Hwide RADIUS_PREY); unfold RADIUS_PREY; try lra. exact Hin.
      * apply (Hmate _ _ H eq_refl H3).
    + (* a tiger *)
      change (type_eqb Tiger Prey) with false in Hfood. cbv iota in Hfood.
      apply bind_inv in Hfood as (cells & m2 & Hc & Hfood). injection Hc as <- <-.
      apply bind_inv in Hfood as (mx & m2 & Hg & Hfood). injection Hg as <- <-.
      injection Hfood as <- <-.
      match type of H with
      | match ?f with _ => _ end _ = _ => destruct f as [v|] eqn:Ef
      end.
      * injection H as -> <-. split; [reflexivity|]. split.
        -- eapply Hself; [|exact Ef]. intros o Ho ->.
           cbn [obj_type] in Ho. rewrite Ety in Ho. discriminate.
        -- apply first_where_in in Ef as [Hin _]. exact Hin.
      * apply (Hmate _ _ H eq_refl H3).
  - (* not hungry *)
    injection Hfood as <- <-. apply (Hmate _ _ H eq_refl H3).
Qed.

Lemma new_target_is_a_neighbour_witness :
  2%nat <> 3%nat /\
  In 2%nat (List.filter (within (example_m0 1 1) (0, 0) RADIUS_TIGER)
              (agents (space (example_m0 1 1)))).
Proof.
  destruct (new_target_is_a_neighbour example_step 3%nat (example_tiger 1 50 1 None)
              (0, 0) 2%nat (example_m0 1 1) (example_m0 1 1))
    as (_ & H1 & H2); try reflexivity.
  - apply (example_get_target_hunt 3%nat 0 1 10 1 true 1 50 1 None 1 50 1 None
             example_log (example_tiger 1 50 1 None)); try reflexivity.
    cbn [food example_tiger]. lra.
  - split; [exact H1 | exact H2].
Defined.

(** * The states the program keeps well formed *)

Lemma has_type_with_obj u o o' m ty v :
  objects m !! u = Some o -> compat m o o' ->
  has_type (with_obj u o' m) ty v = has_type m ty v.
Proof.
  intros Ho [Hc _]. unfold has_type. model_simpl.
  destruct (decide (v = u)) as [->|Hne].
  - rewrite lookup_insert_eq, Ho. destruct o as [p|a], o' as [p'|a']; try contradiction.
    + reflexivity.
    + destruct Hc as (-> & _). reflexivity.
  - rewrite lookup_insert_ne by congruence. reflexivity.
Qed.

Lemma census_with_obj u o o' m ty :
  objects m !! u = Some o -> compat m o o' ->
  census (with_obj u o' m) ty = census m ty.
Proof.
  intros Ho Hc. unfold census. f_equal. f_equal.
  change (schedule (with_obj u o' m)) with (schedule m).
  apply List.filter_ext. intros v. apply (has_type_with_obj u o o'); assumption.
Qed.

Lemma is_Some_with_obj u o m t :
  is_Some (objects m !! t) -> is_Some (objects (with_obj u o m) !! t).
Proof.
  intros H. model_simpl. destruct (decide (t = u)) as [->|Hne].
  - rewrite lookup_insert_eq. eauto.
  - rewrite lookup_insert_ne by congruence. exact H.
Qed.

(** A well-formed state stays well formed when an object is changed with
    respect. *)
Lemma WF_update u o o' m :
  WF m -> objects m !! u = Some o -> compat m o o' -> WF (with_obj u o' m).
Proof.
  intros W Ho Hc. pose proof Hc as [Hkind Hpos].
  assert (Hlook : forall v ov, objects (with_obj u o' m) !! v = Some ov ->
            (v = u /\ ov = o') \/ (v <> u /\ objects m !! v = Some ov)).
  { intros v ov H. model_simpl_in H. destruct (decide (v = u)) as [->|Hne].
    - rewrite lookup_insert_eq in H. injection H as <-. left. auto.
    - rewrite lookup_insert_ne in H by congruence. right. auto. }
  assert (Hpos' : forall q, obj_pos o = Some q -> exists q', obj_pos o' = Some q').
  { intros q Hq. destruct Hpos as [-> | (q0 & x & y & _ & -> & _)]; eauto. }
  constructor.
  - exact (wf_sched_nodup m W).
  - exact (wf_agents_nodup m W).
  - intros v Hv. destruct (wf_sched m W v Hv) as (a & p & Ha & Hp & Hin).
    model_simpl. destruct (decide (v = u)) as [->|Hne].
    + rewrite lookup_insert_eq. rewrite Ho in Ha. injection Ha as ->.
      destruct o' as [p'|a']; [destruct Hkind|].
      destruct (Hpos' p Hp) as [q' Hq']. exists a', q'. auto.
    + rewrite lookup_insert_ne by congruence. exists a, p. auto.
  - intros v Hv. destruct (wf_agents m W v Hv) as (ov & p & Hov & Hp).
    model_simpl. destruct (decide (v = u)) as [->|Hne].
    + rewrite lookup_insert_eq. rewrite Ho in Hov. injection Hov as ->.
      destruct (Hpos' p Hp) as [q' Hq']. exists o', q'. auto.
    + rewrite lookup_insert_ne by congruence. exists ov, p. auto.
  - intros v ov x y Hv Hxy. apply Hlook in Hv as [[-> ->] | [Hne Hv]].
    + destruct Hpos as [E | (q0 & x' & y' & _ & E & Hb)].
      * rewrite E in Hxy. exact (wf_space m W u o x y Ho Hxy).
      * rewrite E in Hxy. injection Hxy as <- <-. exact Hb.
    + exact (wf_space m W v ov x y Hv Hxy).
  - intros v [ov Hv]. apply Hlook in Hv as [[-> ->] | [Hne Hv]];
      apply (wf_uids m W); eauto.
  - intros v a Hv. apply Hlook in Hv as [[-> <-] | [Hne Hv]].
    + destruct o as [p|a0]; [destruct Hkind|]. destruct Hkind as (_ & -> & _).
      exact (wf_lifespan m W u a0 Ho).
    + exact (wf_lifespan m W v a Hv).
  - intros v a t Hv Ht. apply is_Some_with_obj.
    apply Hlook in Hv as [[-> <-] | [Hne Hv]].
    + destruct o as [p|a0]; [destruct Hkind|]. destruct Hkind as (_ & _ & H). exact (H t Ht).
    + exact (wf_target m W v a t Hv Ht).
  - intros T l v HT Hv. destruct (wf_calendar m W T l v HT Hv) as (pt & Hpt & Hty).
    model_simpl. destruct (decide (v = u)) as [->|Hne].
    + rewrite lookup_insert_eq. rewrite Ho in Hpt. injection Hpt as ->.
      destruct o' as [p'|a']; [|destruct Hkind]. destruct Hkind as [E _].
      exists p'. split; [reflexivity | congruence].
    + rewrite lookup_insert_ne by congruence. eauto.
  - intros v pt Hv. apply Hlook in Hv as [[-> <-] | [Hne Hv]].
    + destruct o as [p|a0]; [|destruct Hkind]. apply Hkind.
    + exact (wf_grass m W v pt Hv).
  - exact (wf_count m W).
  - rewrite (census_with_obj u o o' m Prey Ho Hc). exact (wf_Prey_count m W).
  - rewrite (census_with_obj u o o' m Tiger Ho Hc). exact (wf_Tiger_count m W).
  - exact (wf_log m W).
Qed.

(** Changes of the other fields. *)
Lemma WF_frame m m' :
  WF m ->
  schedule m' = schedule m -> space m' = space m -> objects m' = objects m ->
  last_uid m' = last_uid m -> count m' = count m ->
  Prey_count m' = Prey_count m -> Tiger_count m' = Tiger_count m ->
  (forall T l u, grass_ticks m' !! T = Some l -> u ∈ l ->
     exists pt, objects m !! u = Some (OPatch pt) /\ patch_type pt = Grass) ->
  Forall (fun e => is_oob_print e = false) (out m') ->
  WF m'.
Proof.
  intros W Hs Hsp Ho Hl Hc Hp Ht Hcal Hlog.
  assert (Hcen : forall ty, census m' ty = census m ty).
  { intros ty. unfold census, has_type. rewrite Hs, Ho. reflexivity. }
  destruct W as [w1 w2 w3 w4 w5 w6 w7 w8 w9 w10 w11 w12 w13 w14].
  constructor.
  - rewrite Hs. exact w1.
  - rewrite Hsp. exact w2.
  - intros u. rewrite Hs, Ho, Hsp. apply w3.
  - intros u. rewrite Hsp, Ho. apply w4.
  - unfold in_space. rewrite Hsp, Ho. exact w5.
  - intros u. rewrite Ho, Hl. apply w6.
  - intros u a. rewrite Ho. apply w7.
  - intros u a t. rewrite Ho. apply w8.
  - intros T l u. rewrite Ho. apply Hcal.
  - intros u pt. rewrite Ho. apply w10.
  - rewrite Hc, Hs. exact w11.
  - rewrite Hp, Hcen. exact w12.
  - rewrite Ht, Hcen. exact w13.
  - exact Hlog.
Qed.

Lemma WF_set_out e m :
  WF m -> is_oob_print e = false -> WF (set_out (e :: out m) m).
Proof.
  intros W He. apply (WF_frame m); try reflexivity; try assumption.
  - apply W.
  - constructor; [exact He | apply W].
Qed.

Lemma WF_set_step_num v m : WF m -> WF (set_step_num v m).
Proof. intros W. apply (WF_frame m); try reflexivity; try assumption; apply W. Qed.

Lemma WF_calendar_insert T l m :
  WF m ->
  (forall u, u ∈ l -> exists pt, objects m !! u = Some (OPatch pt) /\ patch_type pt = Grass) ->
  WF (set_grass_ticks (<[T := l]> (grass_ticks m)) m).
Proof.
  intros W Hl. apply (WF_frame m); try reflexivity; try assumption; try apply W.
  intros T' l' u H Hu. model_simpl_in H.
  destruct (decide (T' = T)) as [->|Hne].
  - rewrite lookup_insert_eq in H. injection H as <-. apply Hl. exact Hu.
  - rewrite lookup_insert_ne in H by congruence. exact (wf_calendar m W T' l' u H Hu).
Qed.

Lemma WF_calendar_delete T m :
  WF m -> WF (set_grass_ticks (delete T (grass_ticks m)) m).
Proof.
  intros W. apply (WF_frame m); try reflexivity; try assumption; try apply W.
  intros T' l' u H Hu. model_simpl_in H.
  destruct (decide (T' = T)) as [->|Hne].
  - rewrite lookup_delete_eq in H. discriminate.
  - rewrite lookup_delete_ne in H by congruence. exact (wf_calendar m W T' l' u H Hu).
Qed.

(** Lists without repetition, and what leaves them. *)
Lemma NoDup_remove_uid u l : NoDup l -> NoDup (remove_uid u l).
Proof. intros H. unfold remove_uid. apply NoDup_filter. exact H. Qed.

Lemma remove_uid_absent u l : u ∉ l -> remove_uid u l = l.
Proof.
  unfold remove_uid. induction l as [|y l IH]; intros Hx; [reflexivity|].
  apply not_elem_of_cons in Hx as [Hy Hx].
  rewrite filter_cons_True by congruence. f_equal. apply IH. exact Hx.
Qed.

Lemma remove_uid_cons u x l :
  remove_uid u (x :: l) = if decide (x = u) then remove_uid u l else x :: remove_uid u l.
Proof.
  unfold remove_uid. destruct (decide (x = u)) as [->|Hne].
  - rewrite filter_cons_False by tauto. reflexivity.
  - rewrite filter_cons_True by congruence. reflexivity.
Qed.

Lemma length_remove_uid u l :
  NoDup l -> u ∈ l -> length l = S (length (remove_uid u l)).
Proof.
  induction l as [|x l IH]; intros Hnd Hin; [inversion Hin|].
  apply NoDup_cons in Hnd as [Hx Hnd]. rewrite remove_uid_cons.
  destruct (decide (x = u)) as [->|Hne].
  - rewrite (remove_uid_absent u l Hx). reflexivity.
  - cbn [length]. f_equal.
    apply IH; [exact Hnd|]. apply elem_of_cons in Hin as [->|Hin]; [congruence | exact Hin].
Qed.

Lemma filter_remove_uid (f : uid -> bool) u l :
  NoDup l -> u ∈ l ->
  length (List.filter f l) =
  ((if f u then 1 else 0) + length (List.filter f (remove_uid u l)))%nat.
Proof.
  induction l as [|x l IH]; intros Hnd Hin; [inversion Hin|].
  apply NoDup_cons in Hnd as [Hx Hnd]. rewrite remove_uid_cons. cbn [List.filter].
  destruct (decide (x = u)) as [->|Hne].
  - rewrite (remove_uid_absent u l Hx). destruct (f u); reflexivity.
  - cbn [List.filter].
    apply elem_of_cons in Hin as [->|Hin]; [congruence|].
    pose proof (IH Hnd Hin) as E. destruct (f x), (f u); cbn [length] in *; lia.
Qed.

(** *** A death *)
Lemma after_kill_fields u a m :
  let m' := after_kill u a m in
  schedule m' = remove_uid u (schedule m) /\
  agents (space m') = remove_uid u (agents (space m)) /\
  x_max (space m') = x_max (space m) /\ y_max (space m') = y_max (space m) /\
  objects m' = <[u := OAnimal (set_pos None a)]> (objects m) /\
  last_uid m' = last_uid m /\ grass_ticks m' = grass_ticks m /\
  count m' = (count m - 1)%Z /\
  Prey_count m' = (Prey_count m - if bool_decide (type a = Prey) then 1 else 0)%Z /\
  Tiger_count m' = (Tiger_count m - if bool_decide (type a = Prey) then 0 else 1)%Z /\
  out m' = Canvas_create_text u :: Canvas_delete u :: out m.
Proof.
  cbv zeta. unfold after_kill.
  destruct (bool_decide (type a = Prey)); model_simpl; repeat split; lia.
Qed.

Lemma WF_after_kill u a m :
  WF m -> objects m !! u = Some (OAnimal a) -> u ∈ schedule m ->
  WF (after_kill u a m).
Proof.
  intros W Ha Hin.
  destruct (after_kill_fields u a m)
    as (Es & Ea & Ex & Ey & Eo & El & Eg & Ec & Ep & Et & Eout).
  set (m' := after_kill u a m) in *. clearbody m'.
  assert (Hlook : forall v ov, objects m' !! v = Some ov ->
            (v = u /\ ov = OAnimal (set_pos None a)) \/ (v <> u /\ objects m !! v = Some ov)).
  { intros v ov H. rewrite Eo in H. destruct (decide (v = u)) as [->|Hne].
    - rewrite lookup_insert_eq in H. injection H as <-. left. auto.
    - rewrite lookup_insert_ne in H by congruence. right. auto. }
  assert (Hother : forall v, v <> u -> objects m' !! v = objects m !! v).
  { intros v Hne. rewrite Eo. apply lookup_insert_ne. congruence. }
  assert (Hty : forall ty v, has_type m' ty v = has_type m ty v).
  { intros ty v. unfold has_type. destruct (decide (v = u)) as [->|Hne].
    - rewrite Eo, lookup_insert_eq, Ha. reflexivity.
    - rewrite (Hother v Hne). reflexivity. }
  assert (Hcen : forall ty,
            census m ty = ((if bool_decide (type a = ty) then 1 else 0) + census m' ty)%Z).
  { intros ty. unfold census. rewrite Es.
    rewrite (List.filter_ext _ _ (Hty ty)).
    rewrite (filter_remove_uid (has_type m ty) u (schedule m) (wf_sched_nodup m W) Hin).
    unfold has_type at 1. rewrite Ha. destruct (bool_decide (type a = ty)); lia. }
  constructor.
  - rewrite Es. apply NoDup_remove_uid, W.
  - rewrite Ea. apply NoDup_remove_uid, W.
  - intros v Hv. rewrite Es in Hv. apply in_remove_uid in Hv as [Hne Hv].
    destruct (wf_sched m W v Hv) as (b & p & Hb & Hp & Hag).
    exists b, p. rewrite (Hother v Hne), Ea. split; [exact Hb|]. split; [exact Hp|].
    apply in_remove_uid. auto.
  - intros v Hv. rewrite Ea in Hv. apply in_remove_uid in Hv as [Hne Hv].
    destruct (wf_agents m W v Hv) as (o & p & Ho & Hp).
    exists o, p. rewrite (Hother v Hne). auto.
  - intros v ov x y Hv Hxy. rewrite Ex, Ey.
    apply Hlook in Hv as [[-> ->] | [Hne Hv]]; [discriminate|].
    exact (wf_space m W v ov x y Hv Hxy).
  - intros v [ov Hv]. rewrite El. apply Hlook in Hv as [[-> ->] | [Hne Hv]];
      apply (wf_uids m W); eauto.
  - intros v b Hv. apply Hlook in Hv as [[-> [= ->]] | [Hne Hv]].
    + exact (wf_lifespan m W u a Ha).
    + exact (wf_lifespan m W v b Hv).
  - intros v b t Hv Ht.
    assert (is_Some (objects m !! t)) as [ot Hot].
    { apply Hlook in Hv as [[-> [= ->]] | [Hne Hv]].
      - exact (wf_target m W u a t Ha Ht).
      - exact (wf_target m W v b t Hv Ht). }
    rewrite Eo. destruct (decide (t = u)) as [->|Hne'].
    + rewrite lookup_insert_eq. eauto.
    + rewrite lookup_insert_ne by congruence. eauto.
  - intros T l v HT Hv. rewrite Eg in HT.
    destruct (wf_calendar m W T l v HT Hv) as (pt & Hpt & Hg).
    exists pt. split; [|exact Hg]. rewrite Hother; [exact Hpt|].
    intros ->. rewrite Ha in Hpt. discriminate.
  - intros v pt Hv. apply Hlook in Hv as [[-> [=]] | [Hne Hv]].
    exact (wf_grass m W v pt Hv).
  - rewrite Ec, Es, (wf_count m W).
    rewrite (length_remove_uid u (schedule m) (wf_sched_nodup m W) Hin). lia.
  - rewrite Ep, (wf_Prey_count m W), (Hcen Prey). lia.
  - rewrite Et, (wf_Tiger_count m W), (Hcen Tiger).
    repeat case_bool_decide; try lia; destruct (type a); congruence.
  - rewrite Eout. constructor; [reflexivity|]. constructor; [reflexivity|]. apply W.
Qed.

(** *** A birth, and a new patch *)
Lemma after_birth_fields a p m :
  let m' := after_birth a p m in
  let u : uid := S (last_uid m) in
  schedule m' = schedule m ++ [u] /\
  agents (space m') = agents (space m) ++ [u] /\
  x_max (space m') = x_max (space m) /\ y_max (space m') = y_max (space m) /\
  objects m' = <[u := OAnimal (set_pos (Some p) a)]> (objects m) /\
  last_uid m' = u /\ grass_ticks m' = grass_ticks m /\
  count m' = (count m + 1)%Z /\
  Prey_count m' = (Prey_count m + if bool_decide (type a = Prey) then 1 else 0)%Z /\
  Tiger_count m' = (Tiger_count m + if bool_decide (type a = Prey) then 0 else 1)%Z /\
  out m' = Canvas_draw u :: out m /\ step_num m' = step_num m.
Proof.
  cbv zeta. unfold after_birth. cbv zeta. rewrite Nat.add_1_r.
  destruct (bool_decide (type a = Prey)); model_simpl; rewrite insert_insert_eq;
    repeat split; lia.
Qed.

Lemma after_patch_fields pt p m :
  let m' := after_patch pt p m in
  let u : uid := S (last_uid m) in
  schedule m' = schedule m /\
  agents (space m') = agents (space m) ++ [u] /\
  x_max (space m') = x_max (space m) /\ y_max (space m') = y_max (space m) /\
  objects m' = <[u := OPatch (set_patch_pos (Some p) pt)]> (objects m) /\
  last_uid m' = u /\ grass_ticks m' = grass_ticks m /\
  count m' = count m /\ Prey_count m' = Prey_count m /\
  Tiger_count m' = Tiger_count m /\
  out m' = Canvas_draw u :: out m /\ step_num m' = step_num m.
Proof.
  cbv zeta. unfold after_patch. cbv zeta. rewrite Nat.add_1_r.
  model_simpl; rewrite insert_insert_eq; repeat split; lia.
Qed.

(** The state after an object has been added under the next uid and put
    into the space, and, if it is an animal, into the schedule. *)
Lemma WF_new o x y m m' :
  WF m ->
  let u : uid := S (last_uid m) in
  obj_pos o = Some (x, y) ->
  0 <= x < IZR (x_max (space m)) /\ 0 <= y < IZR (y_max (space m)) ->
  match o with
  | OAnimal a => max_age a <> 0 /\ target a = None /\
      schedule m' = schedule m ++ [u] /\ count m' = (count m + 1)%Z /\
      Prey_count m' = (Prey_count m + if bool_decide (type a = Prey) then 1 else 0)%Z /\
      Tiger_count m' = (Tiger_count m + if bool_decide (type a = Prey) then 0 else 1)%Z
  | OPatch pt => grass_ok pt /\
      schedule m' = schedule m /\ count m' = count m /\
      Prey_count m' = Prey_count m /\ Tiger_count m' = Tiger_count m
  end ->
  agents (space m') = agents (space m) ++ [u] ->
  x_max (space m') = x_max (space m) -> y_max (space m') = y_max (space m) ->
  objects m' = <[u := o]> (objects m) ->
  last_uid m' = u -> grass_ticks m' = grass_ticks m ->
  out m' = Canvas_draw u :: out m ->
  WF m'.
Proof.
  intros W u Hpos Hb Hkind Ea Ex Ey Eo El Eg Eout.
  assert (Hu : u = S (last_uid m)) by reflexivity. clearbody u.
  assert (Hfresh : objects m !! u = None).
  { destruct (objects m !! u) as [o0|] eqn:E; [|reflexivity].
    assert (u <= last_uid m)%nat by (apply (wf_uids m W); eauto). lia. }
  assert (Hns : u ∉ schedule m).
  { intros Hin. destruct (wf_sched m W u Hin) as (a & p & Ha & _). congruence. }
  assert (Hna : u ∉ agents (space m)).
  { intros Hin. destruct (wf_agents m W u Hin) as (a & p & Ha & _). congruence. }
  assert (Hlook : forall v ov, objects m' !! v = Some ov ->
            (v = u /\ ov = o) \/ (v <> u /\ objects m !! v = Some ov)).
  { intros v ov H. rewrite Eo in H. destruct (decide (v = u)) as [->|Hne].
    - rewrite lookup_insert_eq in H. injection H as <-. left. auto.
    - rewrite lookup_insert_ne in H by congruence. right. auto. }
  assert (Hold : forall v ov, objects m !! v = Some ov -> objects m' !! v = Some ov).
  { intros v ov H. rewrite Eo. rewrite lookup_insert_ne; [exact H|]. congruence. }
  assert (Hty : forall ty v, v ∈ schedule m -> has_type m' ty v = has_type m ty v).
  { intros ty v Hv. unfold has_type. rewrite Eo, lookup_insert_ne; [reflexivity|].
    intros <-. contradiction. }
  assert (Hsched : schedule m' = schedule m \/ schedule m' = schedule m ++ [u]).
  { destruct o; [left | right]; apply Hkind. }
  assert (Hcen : forall ty, schedule m' = schedule m -> census m' ty = census m ty).
  { intros ty E. unfold census. rewrite E. f_equal. f_equal.
    apply List.filter_ext_in. intros v Hv. apply Hty. apply list_elem_of_In. exact Hv. }
  constructor.
  - destruct Hsched as [-> | ->]; [apply W|].
    apply NoDup_app. split; [apply W|]. split; [|apply NoDup_singleton].
    intros v Hv Hv'. apply list_elem_of_singleton in Hv'. congruence.
  - rewrite Ea. apply NoDup_app. split; [apply W|]. split; [|apply NoDup_singleton].
    intros v Hv Hv'. apply list_elem_of_singleton in Hv'. congruence.
  - intros v Hv. rewrite Ea.
    assert (Hcase : v ∈ schedule m \/ (v = u /\ schedule m' = schedule m ++ [u])).
    { destruct Hsched as [E | E]; rewrite E in Hv; [left; exact Hv|].
      apply elem_of_app in Hv as [Hv | Hv]; [left; exact Hv|].
      apply list_elem_of_singleton in Hv. right. auto. }
    destruct Hcase as [Hv0 | [-> E]].
    + destruct (wf_sched m W v Hv0) as (a & p & Ha & Hp & Hag).
      exists a, p. split; [apply Hold; exact Ha|]. split; [exact Hp|].
      apply elem_of_app. left. exact Hag.
    + destruct o as [pt|a].
      * destruct Hkind as (_ & E' & _). rewrite E' in E.
        apply (f_equal (@length uid)) in E. rewrite length_app in E. cbn in E. lia.
      * exists a, (x, y). rewrite Eo, lookup_insert_eq. split; [reflexivity|].
        split; [exact Hpos|]. apply elem_of_app. right. apply list_elem_of_singleton. reflexivity.
  - intros v Hv. rewrite Ea in Hv. apply elem_of_app in Hv as [Hv | Hv].
    + destruct (wf_agents m W v Hv) as (ov & p & Hov & Hp). exists ov, p.
      split; [apply Hold; exact Hov | exact Hp].
    + apply list_elem_of_singleton in Hv as ->. exists o, (x, y).
      rewrite Eo, lookup_insert_eq. auto.
  - intros v ov x' y' Hv Hxy. rewrite Ex, Ey.
    apply Hlook in Hv as [[-> ->] | [Hne Hv]].
    + rewrite Hpos in Hxy. injection Hxy as <- <-. exact Hb.
    + exact (wf_space m W v ov x' y' Hv Hxy).
  - intros v [ov Hv]. rewrite El. apply Hlook in Hv as [[-> ->] | [Hne Hv]]; [lia|].
    assert (v <= last_uid m)%nat by (apply (wf_uids m W); eauto). lia.
  - intros v b Hv. apply Hlook in Hv as [[-> E] | [Hne Hv]].
    + subst o. apply Hkind.
    + exact (wf_lifespan m W v b Hv).
  - intros v b t Hv Ht. apply Hlook in Hv as [[-> E] | [Hne Hv]].
    + subst o. destruct Hkind as (_ & Hnone & _). congruence.
    + destruct (wf_target m W v b t Hv Ht) as [ot Hot]. exists ot. apply Hold. exact Hot.
  - intros T l v HT Hv. rewrite Eg in HT.
    destruct (wf_calendar m W T l v HT Hv) as (pt & Hpt & Hg).
    exists pt. split; [apply Hold; exact Hpt | exact Hg].
  - intros v pt Hv. apply Hlook in Hv as [[-> E] | [Hne Hv]].
    + subst o. apply Hkind.
    + exact (wf_grass m W v pt Hv).
  - destruct o as [pt|a].
    + destruct Hkind as (_ & -> & -> & _). apply W.
    + destruct Hkind as (_ & _ & -> & -> & _). rewrite length_app. cbn [length].
      rewrite (wf_count m W). lia.
  - destruct o as [pt|a].
    + destruct Hkind as (_ & E & _ & -> & _). rewrite (Hcen Prey E). apply W.
    + destruct Hkind as (_ & _ & E & _ & -> & _). unfold census. rewrite E.
      rewrite List.filter_app, length_app. cbn [List.filter].
      unfold has_type at 2. rewrite Eo, lookup_insert_eq.
      rewrite (List.filter_ext_in (has_type m' Prey) (has_type m Prey)).
      2: { intros v Hv. apply Hty. apply list_elem_of_In. exact Hv. }
      rewrite (wf_Prey_count m W). unfold census.
      destruct (bool_decide (type a = Prey)); cbn [length]; lia.
  - destruct o as [pt|a].
    + destruct Hkind as (_ & E & _ & _ & ->). rewrite (Hcen Tiger E). apply W.
    + destruct Hkind as (_ & _ & E & _ & _ & ->). unfold census. rewrite E.
      rewrite List.filter_app, length_app. cbn [List.filter].
      unfold has_type at 2. rewrite Eo, lookup_insert_eq.
      rewrite (List.filter_ext_in (has_type m' Tiger) (has_type m Tiger)).
      2: { intros v Hv. apply Hty. apply list_elem_of_In. exact Hv. }
      rewrite (wf_Tiger_count m W). unfold census.
      repeat case_bool_decide; cbn [length]; try lia; destruct (type a); congruence.
  - rewrite Eout. constructor; [reflexivity | apply W].
Qed.

(** ** The exceptions of a tick *)

Lemma safe_bind ok {A B} (c : M A) (f : A -> M B) m Q R :
  safe ok c m Q ->
  (forall a m1, c m = Ok (a, m1) -> Q a m1 -> safe ok (f a) m1 R) ->
  safe ok (bind c f) m R.
Proof.
  unfold safe, bind. intros Hc Hf. destruct (c m) as [[a m1]|e]; [|exact Hc].
  apply (Hf a m1 eq_refl Hc).
Qed.

Lemma safe_ok ok {A} (c : M A) m a m' (Q : A -> Prey_model -> Prop) :
  c m = Ok (a, m') -> Q a m' -> safe ok c m Q.
Proof. unfold safe. intros -> H. exact H. Qed.

Lemma safe_weaken ok {A} (c : M A) m (Q R : A -> Prey_model -> Prop) :
  safe ok c m Q -> (forall a m', Q a m' -> R a m') -> safe ok c m R.
Proof.
  unfold safe. destruct (c m) as [[a m']|e]; [|auto]. intros H HQ. apply HQ, H.
Qed.

Lemma safe_for_each ok {A} (l : list A) (body : A -> M unit) (I : Prey_model -> Prop) :
  (forall x m, In x l -> I m -> safe ok (body x) m (fun _ m' => I m')) ->
  forall m, I m -> safe ok (for_each l body) m (fun _ m' => I m').
Proof.
  induction l as [|x l IH]; intros Hb m Hm; cbn [for_each].
  - exact Hm.
  - eapply safe_bind.
    + apply Hb; [left; reflexivity | exact Hm].
    + intros [] m1 _ Hm1. apply IH; [|exact Hm1].
      intros y m2 Hy. apply Hb. right. exact Hy.
Qed.

(** What a scheduled animal is. *)
Lemma scheduled_animal m self :
  WF m -> self ∈ schedule m ->
  exists a x y, objects m !! self = Some (OAnimal a) /\ pos a = Some (x, y) /\
    self ∈ agents (space m) /\ max_age a <> 0 /\
    0 <= x < IZR (x_max (space m)) /\ 0 <= y < IZR (y_max (space m)).
Proof.
  intros W Hs. destruct (wf_sched m W self Hs) as (a & [x y] & Ha & Hp & Hag).
  exists a, x, y. split; [exact Ha|]. split; [exact Hp|]. split; [exact Hag|].
  split; [exact (wf_lifespan m W self a Ha)|].
  exact (wf_space m W self (OAnimal a) x y Ha Hp).
Qed.

Lemma in_bounds x y s :
  0 <= x < IZR (x_max s) /\ 0 <= y < IZR (y_max s) -> out_of_bounds s (x, y) = false.
Proof.
  intros [Hx Hy]. unfold out_of_bounds.
  rewrite (Rltb_false x 0), (Rleb_false _ x), (Rltb_false y 0), (Rleb_false _ y) by lra.
  reflexivity.
Qed.

(** An attribute of an animal is changed: the species, the lifespan and the
    position stay, and the target, if it is changed, exists. *)
Lemma WF_animal u a a' m :
  WF m -> objects m !! u = Some (OAnimal a) ->
  type a' = type a -> max_age a' = max_age a -> pos a' = pos a ->
  (target a' = target a \/ target a' = None \/
   exists t, target a' = Some t /\ is_Some (objects m !! t)) ->
  WF (with_obj u (OAnimal a') m).
Proof.
  intros W Ha Hty Hage Hpos Ht. apply (WF_update u (OAnimal a)); [exact W | exact Ha|].
  split; [|left; exact Hpos].
  split; [exact Hty|]. split; [exact Hage|].
  intros t Et. destruct Ht as [E | [E | (t' & E & Hs)]].
  - rewrite E in Et. exact (wf_target m W u a t Ha Et).
  - congruence.
  - rewrite E in Et. injection Et as <-. exact Hs.
Qed.

(** *** [kill] *)
Lemma kill_safe ok self m :
  WF m -> self ∈ schedule m ->
  safe ok (kill self) m (fun _ m' => WF m').
Proof.
  intros W Hs. destruct (scheduled_animal m self W Hs) as (a & x & y & Ha & Hp & Hag & _).
  eapply safe_ok; [apply (kill_ok self a (x, y)); assumption|].
  apply WF_after_kill; assumption.
Qed.

(** *** [create_baby] *)
Lemma species_init_ok ty g noise age0 :
  noise <> -1 ->
  exists a, species_init ty g noise age0 = Ok a /\ max_age a <> 0 /\
            target a = None /\ type a = ty /\ pos a = Some (0, 0).
Proof.
  intros Hn.
  assert (H9 : norm_distro noise LIFESPAN_PREY <> 0).
  { unfold norm_distro, LIFESPAN_PREY. nra. }
  assert (H17 : norm_distro noise LIFESPAN_TIGER <> 0).
  { unfold norm_distro, LIFESPAN_TIGER. nra. }
  unfold species_init, Prey_init, Tiger_init, set_speed, get_speed.
  destruct ty; cbn [bool_decide decide_rel Species_eq_dec Species_rec Species_rect
                    age max_age max_speed].
  - rewrite (Reqb_false _ _ H9). cbv zeta. cbn [pregs set_speed_field].
    rewrite (Reqb_true 0 0 eq_refl). cbn [negb].
    eexists. split; [reflexivity|]. cbn. auto.
  - rewrite (Reqb_false _ _ H17). cbv zeta. cbn [pregs set_speed_field].
    rewrite (Reqb_true 0 0 eq_refl). cbn [negb].
    eexists. split; [reflexivity|]. cbn. auto.
Qed.

Lemma species_init_zero ty g age0 :
  species_init ty g (-1) age0 = Raise ZeroDivisionError.
Proof.
  unfold species_init, Prey_init, Tiger_init, set_speed, get_speed.
  destruct ty; cbn [bool_decide decide_rel Species_eq_dec Species_rec Species_rect
                    age max_age max_speed].
  - rewrite (Reqb_true (norm_distro (-1) LIFESPAN_PREY) 0); [reflexivity|].
    unfold norm_distro. lra.
  - rewrite (Reqb_true (norm_distro (-1) LIFESPAN_TIGER) 0); [reflexivity|].
    unfold norm_distro. lra.
Qed.

Lemma create_baby_zero x y age0 ty g m :
  create_baby x y age0 ty g (-1) m = Raise ZeroDivisionError.
Proof.
  pose proof (species_init_zero ty g age0) as H.
  unfold create_baby, species_init in *.
  apply bind_raise.
  destruct (bool_decide (ty = Prey)).
  - run ltac:(apply new_uid_ok). apply bind_raise. rewrite H. reflexivity.
  - run ltac:(apply new_uid_ok). apply bind_raise. rewrite H. reflexivity.
Qed.

Lemma WF_after_birth a x y m :
  WF m -> max_age a <> 0 -> target a = None ->
  0 <= x < IZR (x_max (space m)) /\ 0 <= y < IZR (y_max (space m)) ->
  WF (after_birth a (x, y) m).
Proof.
  intros W Hage Ht Hb.
  destruct (after_birth_fields a (x, y) m)
    as (Es & Ea & Ex & Ey & Eo & El & Eg & Ec & Ep & Et & Eout & _).
  apply (WF_new (OAnimal (set_pos (Some (x, y)) a)) x y m); try assumption.
  - reflexivity.
  - cbn [max_age target type set_pos]. auto 10.
Qed.

Lemma WF_after_patch pt x y m :
  WF m -> grass_ok pt ->
  0 <= x < IZR (x_max (space m)) /\ 0 <= y < IZR (y_max (space m)) ->
  WF (after_patch pt (x, y) m).
Proof.
  intros W Hg Hb.
  destruct (after_patch_fields pt (x, y) m)
    as (Es & Ea & Ex & Ey & Eo & El & Eg & Ec & Ep & Et & Eout & _).
  apply (WF_new (OPatch (set_patch_pos (Some (x, y)) pt)) x y m); try assumption.
  - reflexivity.
  - split; [exact Hg|]. auto.
Qed.

Lemma create_baby_safe (ok : Prop) x y age0 ty g noise m :
  WF m -> (ok -> noise <> -1) ->
  0 <= x < IZR (x_max (space m)) /\ 0 <= y < IZR (y_max (space m)) ->
  safe ok (create_baby x y age0 ty g noise) m
    (fun _ m' => WF m' /\ forall u, u ∈ schedule m -> u ∈ schedule m').
Proof.
  intros W Hok Hb. destruct (Req_dec_T noise (-1)) as [->|Hn].
  - unfold safe. rewrite create_baby_zero. right. split; [reflexivity|].
    intros H. apply (Hok H). reflexivity.
  - destruct (species_init_ok ty g noise age0 Hn) as (a & Ha & Hage & Ht & _).
    eapply safe_ok.
    + apply (create_baby_ok x y age0 ty g noise a); [exact Ha|]. apply in_bounds. exact Hb.
    + split; [apply WF_after_birth; assumption|].
      intros u Hu. destruct (after_birth_fields a (x, y) m) as (Es & _). rewrite Es.
      apply elem_of_app. left. exact Hu.
Qed.

(** *** [set_speed] and the pregnancy *)
Lemma set_speed_ok a :
  max_age a <> 0 -> exists v, set_speed a = Ok (set_speed_field v a).
Proof.
  intros H. unfold set_speed, get_speed. rewrite (Reqb_false _ _ H). cbv zeta.
  cbn [pregs set_speed_field speed].
  destruct (negb (pregs a =? 0)); eexists; reflexivity.
Qed.

Ltac unfold_safe := unfold safe.

Lemma carry_and_bear_safe (ok : Prop) rnd self m :
  WF m -> self ∈ schedule m ->
  (ok -> forall i, newborn_noise rnd i <> -1) ->
  safe ok (carry_and_bear rnd self) m (fun _ m' => WF m' /\ self ∈ schedule m').
Proof.
  intros W Hs Hok.
  destruct (scheduled_animal m self W Hs) as (a & x & y & Ha & Hp & Hag & Hage & Hb).
  unfold carry_and_bear, safe. run_the_animal.
  destruct (negb (pregs a =? 0)); cbn [when]; [|split; assumption].
  run_update. run_update. run_the_animal. rewrite with_obj_with_obj.
  set (a2 := set_pregs _ (set_food _ a)).
  assert (W2 : WF (with_obj self (OAnimal a2) m)).
  { apply (WF_animal self a); auto. }
  destruct (pregs a2 >=? 1); cbn [when]; [|split; assumption].
  run_update. run_emit. run_emit. rewrite with_obj_with_obj.
  set (m3 := set_out _ (set_out _ (with_obj self _ m))).
  assert (W3 : WF m3).
  { unfold m3. apply WF_set_out; [|reflexivity]. apply WF_set_out; [|reflexivity].
    apply (WF_animal self a); auto. }
  assert (S3 : self ∈ schedule m3) by exact Hs.
  change (safe ok
    (for_each (seq 0 (Z.to_nat (py_round ((babies_noise rnd + 1) *
         (if bool_decide (type a2 = Tiger) then BABIES_PER_TIGER_PREGS
          else BABIES_PER_PREY_PREGS)))))
       (fun x0 => do p <- the_pos self;
                  create_baby (fst p) (snd p) 0 (type a2)
                    (newborn_gender rnd x0) (newborn_noise rnd x0)))
    m3 (fun _ m' => WF m' /\ self ∈ schedule m')).
  apply (safe_for_each ok _ _ (fun m' => WF m' /\ self ∈ schedule m')); [|split; assumption].
  intros i mi _ [Wi Si].
  destruct (scheduled_animal mi self Wi Si) as (ai & xi & yi & Hai & Hpi & _ & _ & Hbi).
  unfold safe.
  run ltac:(eapply the_pos_ok; [exact Hai | exact Hpi]). cbn [fst snd].
  apply (safe_weaken ok _ _ (fun _ m' => WF m' /\ forall u, u ∈ schedule mi -> u ∈ schedule m')).
  - apply create_baby_safe; [exact Wi | | exact Hbi]. intros H. apply Hok. exact H.
  - intros _ m' [W' S']. split; [exact W' | apply S'; exact Si].
Qed.

(** *** [get_target] *)
Lemma type_eqb_true (s t : TypeTag) : type_eqb s t = true -> s = t.
Proof. unfold type_eqb. apply bool_decide_eq_true. Qed.

Lemma is_grass o :
  type_eqb (obj_type o) Grass = true ->
  exists pt, o = OPatch pt /\ patch_type pt = Grass.
Proof.
  intros H. apply type_eqb_true in H. destruct o as [pt|a]; [|discriminate].
  injection H as H. eauto.
Qed.

Lemma is_species o (s : Species) :
  type_eqb (obj_type o) s = true -> exists b, o = OAnimal b /\ type b = s.
Proof.
  intros H. apply type_eqb_true in H. destruct o as [pt|b]; [discriminate|].
  injection H as H. eauto.
Qed.

Lemma Patch_munch_run t pt m :
  objects m !! t = Some (OPatch pt) ->
  Patch_munch t m = Ok (tt, munched t pt m).
Proof.
  intros H. unfold Patch_munch.
  run ltac:(apply update_patch_ok; find_obj).
  unfold Patch_update.
  run ltac:(run ltac:(apply the_patch_ok; find_obj); apply emit_ok).
  run ltac:(reflexivity). reflexivity.
Qed.

Lemma WF_munched t pt m :
  WF m -> objects m !! t = Some (OPatch pt) -> patch_type pt = Grass ->
  WF (munched t pt m).
Proof.
  intros W Ht Hg. unfold munched. cbv zeta.
  assert (W1 : WF (with_obj t (OPatch (set_grass 0 pt)) m)).
  { apply (WF_update t (OPatch pt)); [exact W | exact Ht|].
    split; [|left; reflexivity]. split; [reflexivity|]. left. reflexivity. }
  assert (W2 : WF (set_out (Canvas_patch_update t (get_color (set_grass 0 pt)) :: out m)
                     (with_obj t (OPatch (set_grass 0 pt)) m))).
  { apply (WF_set_out _ _ W1). reflexivity. }
  apply (WF_calendar_insert _ _ _ W2).
  intros u Hu. apply elem_of_app in Hu as [Hu | Hu].
  - destruct (grass_ticks m !! (step_num m + regrow_delay)%Z) as [l|] eqn:E;
      [|inversion Hu].
    apply (wf_calendar _ W2 (step_num m + regrow_delay)%Z l u); [exact E | exact Hu].
  - apply list_elem_of_singleton in Hu as ->. exists (set_grass 0 pt).
    split; [find_obj | exact Hg].
Qed.

Lemma reach_target_safe ok self a x y m :
  WF m -> self ∈ schedule m -> objects m !! self = Some (OAnimal a) ->
  safe ok (reach_target self a (x, y)) m
    (fun flow m' =>
       still_there self m' /\
       match flow with
       | Return r => r = None
       | Continue r => known m' r
       end).
Proof.
  intros W Hs Ha. unfold reach_target, safe.
  destruct (target a) as [t|] eqn:Et.
  2: { split; [split; assumption|]. intros t [=]. }
  destruct (wf_target m W self a t Ha Et) as [o Ho].
  assert (Hkeep : still_there self m /\ known m (Some t)).
  { split; [split; assumption|]. intros t' [= <-]. eauto. }
  run_the_obj.
  destruct (obj_pos o) as [q|] eqn:Eq; [|exact Hkeep].
  destruct (get_distance (x, y) q <? 0.5); [|exact Hkeep].
  destruct (type_eqb (type a) Prey && type_eqb (obj_type o) Grass
            && (food a <? 80) && (obj_grass o >=? 1)) eqn:Emunch.
  { (* the prey eats grass *)
    apply andb_prop in Emunch as [Emunch _]. apply andb_prop in Emunch as [Emunch _].
    apply andb_prop in Emunch as [_ Egrass].
    apply is_grass in Egrass as (pt & -> & Hg).
    assert (Hne : self <> t) by (intros ->; congruence).
    run ltac:(apply Patch_munch_run; exact Ho).
    pose proof (WF_munched t pt m W Ho Hg) as W1.
    assert (Ha1 : objects (munched t pt m) !! self = Some (OAnimal a)).
    { unfold munched. find_obj. }
    run ltac:(apply update_animal_ok; exact Ha1).
    split; [|reflexivity]. split; [|exact Hs].
    apply (WF_animal self a); auto. }
  destruct (type_eqb (type a) Tiger && type_eqb (obj_type o) Prey && (food a <? 80))
    eqn:Eeat.
  { (* the tiger eats the prey *)
    apply andb_prop in Eeat as [Eeat _]. apply andb_prop in Eeat as [Etiger Eprey].
    apply is_species in Eprey as (b & -> & Hb).
    apply type_eqb_true in Etiger. injection Etiger as Etiger.
    assert (Hne : self <> t) by (intros ->; congruence).
    run_emit. run_update. run_update.
    split; [|reflexivity]. split; [|exact Hs].
    apply (WF_animal t b); [| find_obj | reflexivity | reflexivity | reflexivity | auto].
    apply (WF_animal self a); [| find_obj | reflexivity | reflexivity | reflexivity | auto].
    apply WF_set_out; [exact W | reflexivity]. }
  destruct (type_eqb (type a) (obj_type o) && obj_can_mate o) eqn:Emate.
  { (* the two mate *)
    apply andb_prop in Emate as [Esame _].
    apply type_eqb_true in Esame. destruct o as [pt|b]; [discriminate|].
    run_emit. run_update. run_emit.
    assert (W1 : WF (with_obj t (OAnimal (set_pregs 0.1 b))
                       (set_out (Print_mated self t :: out m) m))).
    { apply (WF_animal t b); [| find_obj | reflexivity | reflexivity | reflexivity | auto].
      apply WF_set_out; [exact W | reflexivity]. }
    split; [split; [apply WF_set_out; [exact W1 | reflexivity] | exact Hs]|].
    intros t' [= <-]. model_simpl. rewrite lookup_insert_eq. eauto. }
  split; [split; assumption|]. intros t' [=].
Qed.

Lemma first_where_known m test l : known m (first_where m test l).
Proof.
  intros t H. apply first_where_some in H as (o & Ho & _). eauto.
Qed.

Lemma get_target_safe ok rnd self m :
  WF m -> self ∈ schedule m ->
  safe ok (get_target rnd self) m
    (fun r m' => still_there self m' /\ known m' r).
Proof.
  intros W Hs.
  destruct (scheduled_animal m self W Hs) as (a & x & y & Ha & Hp & _).
  unfold get_target. unfold safe at 1.
  run_the_animal. run_the_pos. run_neighbors.
  change (safe ok
    (do flow <- reach_target self a (x, y);
     match flow with
     | Return r => ret r
     | Continue (Some target) => ret (Some target)
     | Continue None =>
         do a0 <- the_animal self;
         do found <- find_food rnd a0 (x, y);
         match found with
         | Some obj => ret (Some obj)
         | None =>
             find_mate_or_wander a0
               (shuffle (cellmates_choices rnd)
                  (List.filter (within m (x, y) 3) (agents (space m))))
         end
     end) m (fun r m' => still_there self m' /\ known m' r)).
  eapply safe_bind; [apply (reach_target_safe ok self a x y m W Hs Ha)|].
  intros flow m1 _ [[W1 S1] Hflow]. unfold safe.
  destruct flow as [r | [t|]].
  - subst r. split; [split; assumption|]. intros t [=].
  - split; [split; assumption | exact Hflow].
  - destruct (scheduled_animal m1 self W1 S1) as (a1 & x1 & y1 & Ha1 & _).
    run_the_animal.
    assert (Hfood : exists found, find_food rnd a1 (x, y) m1 = Ok (found, m1)
                                  /\ known m1 found).
    { unfold find_food. destruct (food a1 <? 80); [|eexists; split; [reflexivity|]; intros ? [=]].
      destruct (type_eqb (type a1) Prey).
      - eexists. split; [reflexivity|]. apply first_where_known.
      - eexists. split; [reflexivity|]. apply first_where_known. }
    destruct Hfood as (found & Hfood & Hknown).
    run ltac:(exact Hfood).
    destruct found as [obj|]; [split; [split; assumption | exact Hknown]|].
    unfold find_mate_or_wander. run ltac:(reflexivity).
    match goal with
    | |- context [match ?mate with Some obj => ret (Some obj) | None => ?w end] =>
        destruct mate as [u|] eqn:E
    end.
    + split; [split; assumption|].
      destruct (bool_decide (gender a1 = Male)); [|discriminate].
      rewrite <- E. apply first_where_known.
    + split; [split; assumption|]. apply first_where_known.
Qed.

(** *** The move *)
Lemma seek_and_move_safe ok rnd self m :
  WF m -> self ∈ schedule m ->
  safe ok (seek_and_move rnd self) m (fun _ m' => WF m').
Proof.
  intros W Hs. unfold seek_and_move.
  eapply safe_bind; [apply (get_target_safe ok rnd self m W Hs)|].
  intros r m1 _ [[W1 S1] Hr]. unfold safe.
  destruct (scheduled_animal m1 self W1 S1) as (a & x & y & Ha & Hp & Hag & _).
  run_update.
  assert (W2 : WF (with_obj self (OAnimal (set_target r a)) m1)).
  { apply (WF_animal self a); auto.
    destruct r as [t|]; [|auto]. right; right. exists t. split; [reflexivity|].
    apply Hr. reflexivity. }
  destruct r as [t|]; [|exact W2].
  destruct (Hr t eq_refl) as [o Ho].
  assert (Ho2 : exists o2, objects (with_obj self (OAnimal (set_target (Some t) a)) m1) !! t
                           = Some o2 /\ obj_pos o2 = obj_pos o).
  { model_simpl. destruct (decide (t = self)) as [->|Hne].
    - rewrite lookup_insert_eq. eexists. split; [reflexivity|].
      rewrite Ha in Ho. injection Ho as <-. reflexivity.
    - rewrite lookup_insert_ne by congruence. eauto. }
  destruct Ho2 as (o2 & Ho2 & Epos).
  run ltac:(apply the_obj_ok; exact Ho2). rewrite Epos.
  destruct (obj_pos o) as [[x2 y2]|].
  - run_the_animal.
    run ltac:(eapply the_pos_ok; [find_obj | cbn [obj_pos set_target pos]; exact Hp]).
    cbn [fst snd speed set_target].
    destruct (calc_move x y x2 y2 (speed a)) as [[[nx ny] dx] dy].
    rewrite never_flagged. cbn [when]. run ltac:(reflexivity).
    destruct (out_of_bounds (space m1) (nx, ny)) eqn:Eb.
    + rewrite (bind_raise _ _ _ PointOutOfBounds); [left; reflexivity|].
      apply move_agent_out. exact Eb.
    + run ltac:(apply move_agent_ok; [exact Eb | exact Hag | find_obj]).
      unfold emit, modify. apply WF_set_out; [|reflexivity].
      apply (WF_update self (OAnimal (set_target (Some t) a))); [exact W2 | find_obj|].
      split.
      * split; [reflexivity|]. split; [reflexivity|].
        intros t' Ht'. cbn [set_obj_pos set_pos set_target target] in Ht'.
        injection Ht' as <-. exists o2. exact Ho2.
      * right. exists (x, y), nx, ny. split; [exact Hp|]. split; [reflexivity|].
        apply out_of_bounds_false in Eb. exact Eb.
  - run_emit.
    erewrite update_animal_ok by find_obj.
    apply (WF_animal self (set_target (Some t) a)); [| find_obj | auto..].
    apply WF_set_out; [exact W2 | reflexivity].
Qed.

(** *** The step of an animal *)
Lemma Animal_step_safe (ok : Prop) rnd self m :
  WF m -> self ∈ schedule m ->
  (ok -> forall i, newborn_noise rnd i <> -1) ->
  safe ok (Animal_step rnd self) m (fun _ m' => WF m').
Proof.
  intros W Hs Hok.
  destruct (scheduled_animal m self W Hs) as (a & x & y & Ha & Hp & Hag & Hage & _).
  unfold Animal_step. unfold safe at 1. run_the_animal.
  destruct (negb (alive a)).
  { apply (kill_safe ok self m W Hs). }
  run_update. run_update. run ltac:(reflexivity). run_the_animal.
  rewrite with_obj_with_obj.
  set (a1 := set_age _ (set_food _ a)).
  assert (W1 : WF (with_obj self (OAnimal a1) m)).
  { apply (WF_animal self a); auto. }
  assert (S1 : self ∈ schedule (with_obj self (OAnimal a1) m)) by exact Hs.
  destruct (food a1 <=? 0).
  { run_emit. apply kill_safe; [|exact S1]. apply WF_set_out; [exact W1 | reflexivity]. }
  destruct (age a1 >? max_age a1).
  { run_emit. apply kill_safe; [|exact S1]. apply WF_set_out; [exact W1 | reflexivity]. }
  change (safe ok
    (do_ carry_and_bear rnd self;
     do_ when (bool_decide (step_num (with_obj self (OAnimal a1) m) `mod` 10 = 0)%Z)
           (do a0 <- the_animal self;
            do a2 <- lift (set_speed a0);
            put_obj self (OAnimal a2));
     seek_and_move rnd self)
    (with_obj self (OAnimal a1) m) (fun _ m' => WF m')).
  eapply safe_bind; [apply (carry_and_bear_safe ok rnd self _ W1 S1 Hok)|].
  intros [] m2 _ [W2 S2].
  eapply (safe_bind ok _ _ _ (fun _ m' => WF m' /\ self ∈ schedule m')).
  - destruct (bool_decide _); cbn [when]; [|split; assumption].
    destruct (scheduled_animal m2 self W2 S2) as (a2 & x2 & y2 & Ha2 & _ & _ & Hage2 & _).
    unfold safe. run_the_animal.
    destruct (set_speed_ok a2 Hage2) as [v Hv].
    run ltac:(rewrite Hv; reflexivity).
    split; [|exact S2]. apply (WF_animal self a2); auto.
  - intros [] m3 _ [W3 S3]. apply seek_and_move_safe; assumption.
Qed.

(** *** The tick *)
Lemma schedule_step_safe (ok : Prop) rnd m :
  WF m ->
  (ok -> forall key i, newborn_noise (agent_random rnd key) i <> -1) ->
  safe ok (schedule_step rnd) m (fun _ m' => WF m').
Proof.
  intros W Hok. unfold schedule_step. unfold safe at 1. run ltac:(reflexivity).
  apply (safe_for_each ok _ _ WF); [|exact W].
  intros key mk _ Wk. unfold safe. run ltac:(reflexivity).
  destruct (in_list key (schedule mk)) eqn:E; cbn [when]; [|exact Wk].
  apply Animal_step_safe; [exact Wk | | intros H; apply Hok; exact H].
  unfold in_list in E. apply bool_decide_eq_true in E. exact E.
Qed.

Lemma Patch_regrow_safe ok u pt m :
  WF m -> objects m !! u = Some (OPatch pt) -> patch_type pt = Grass ->
  safe ok (Patch_regrow u) m
    (fun _ m' => WF m' /\ grass_ticks m' = grass_ticks m).
Proof.
  intros W Hu Hg. eapply safe_ok; [apply (Patch_regrow_ok u pt m Hu)|].
  split; [|reflexivity].
  apply (WF_set_out _ (with_obj u (OPatch (set_grass 1 pt)) m)); [|reflexivity].
  apply (WF_update u (OPatch pt)); [exact W | exact Hu|].
  split; [|left; reflexivity]. split; [reflexivity|]. right. auto.
Qed.

Lemma Prey_model_step_safe (ok : Prop) rnd m :
  WF m ->
  (ok -> forall key i, newborn_noise (agent_random rnd key) i <> -1) ->
  safe ok (Prey_model_step rnd) m (fun _ m' => WF m').
Proof.
  intros W Hok. unfold Prey_model_step. unfold safe at 1.
  run ltac:(reflexivity). run ltac:(reflexivity).
  set (m0 := set_step_num (step_num m + 1) m).
  assert (W0 : WF m0) by (apply WF_set_step_num; exact W).
  change (safe ok
    (do_ match grass_ticks m0 !! step_num m0 with
         | Some due =>
             do_ for_each due Patch_regrow;
             modify (fun m => set_grass_ticks (delete (step_num m) (grass_ticks m)) m)
         | None => ret tt
         end;
     do_ schedule_step rnd;
     do m1 <- get;
     when (count m1 <=? 0)%Z (emit (Print_poem (step_num m1))))
    m0 (fun _ m' => WF m')).
  eapply (safe_bind ok _ _ _ (fun _ m' => WF m')).
  - destruct (grass_ticks m0 !! step_num m0) as [due|] eqn:E; [|exact W0].
    eapply (safe_bind ok _ _ _ (fun _ m' => WF m')).
    + eapply safe_weaken.
      * apply (safe_for_each ok due Patch_regrow
                 (fun m' => WF m' /\ grass_ticks m' = grass_ticks m0)); [|auto].
        intros u mu Hu [Wu Eu].
        assert (Hcal : grass_ticks mu !! step_num m0 = Some due) by (rewrite Eu; exact E).
        destruct (wf_calendar mu Wu _ _ u Hcal) as (pt & Hpt & Hg).
        { apply list_elem_of_In. exact Hu. }
        eapply safe_weaken; [apply (Patch_regrow_safe ok u pt mu Wu Hpt Hg)|].
        intros _ m' [W' E']. split; [exact W' | congruence].
      * intros _ m' [W' _]. exact W'.
    + intros [] m1 _ W1. unfold safe. apply WF_calendar_delete. exact W1.
  - intros [] m1 _ W1.
    eapply safe_bind; [apply (schedule_step_safe ok rnd m1 W1 Hok)|].
    intros [] m2 _ W2. unfold safe. run ltac:(reflexivity).
    destruct (count m2 <=? 0)%Z; cbn [when]; [|exact W2].
    apply WF_set_out; [exact W2 | reflexivity].
Qed.

(** ** The constructor makes a well-formed state *)

Lemma WF_empty_model width height : WF (empty_model width height).
Proof.
  constructor; cbn.
  - apply NoDup_nil. exact I.
  - apply NoDup_nil. exact I.
  - intros u H. inversion H.
  - intros u H. inversion H.
  - apply in_space_empty.
  - intros u [o H]. rewrite lookup_empty in H. discriminate.
  - intros u a H. rewrite lookup_empty in H. discriminate.
  - intros u a t H. rewrite lookup_empty in H. discriminate.
  - intros T l u H. rewrite lookup_empty in H. discriminate.
  - intros u pt H. rewrite lookup_empty in H. discriminate.
  - reflexivity.
  - reflexivity.
  - reflexivity.
  - constructor.
Qed.

Lemma for_each_keeps {A} (I : Prey_model -> Prop) (body : A -> M unit) l :
  (forall x m b m', I m -> body x m = Ok (b, m') -> I m') ->
  forall m b m', for_each l body m = Ok (b, m') -> I m -> I m'.
Proof.
  intros Hb. induction l as [|x l IH]; intros m b m' H Hm; cbn [for_each] in H.
  - injection H as _ <-. exact Hm.
  - apply bind_inv in H as (b1 & m1 & H1 & H). apply (IH m1 b m' H).
    apply (Hb x m b1 m1 Hm H1).
Qed.

Lemma for_each_indexed_keeps {A} (I : Prey_model -> Prop) (body : nat -> A -> M unit) l :
  (forall i x m b m', I m -> body i x m = Ok (b, m') -> I m') ->
  forall i m b m', for_each_indexed i l body m = Ok (b, m') -> I m -> I m'.
Proof.
  intros Hb. induction l as [|x l IH]; intros i m b m' H Hm; cbn [for_each_indexed] in H.
  - injection H as _ <-. exact Hm.
  - apply bind_inv in H as (b1 & m1 & H1 & H). apply (IH (S i) m1 b m' H).
    apply (Hb i x m b1 m1 Hm H1).
Qed.

Lemma grass_ok_Patch_init r : grass_ok (Patch_init r).
Proof.
  unfold Patch_init, grass_ok. cbv zeta. destruct (r <? ROCKY_AREAS); cbn; auto.
Qed.

Lemma create_patch_keeps_WF rnd i xy m b m' :
  WF m -> create_patch rnd i xy m = Ok (b, m') -> WF m'.
Proof.
  intros W H. apply create_patch_inv in H as [Hb ->].
  apply WF_after_patch; [exact W | apply grass_ok_Patch_init|].
  apply out_of_bounds_false. exact Hb.
Qed.

Lemma create_baby_keeps_WF x y age0 ty g noise m b m' :
  WF m -> create_baby x y age0 ty g noise m = Ok (b, m') -> WF m'.
Proof.
  intros W H. apply create_baby_inv in H as (a & Ha & Hb & ->).
  destruct (Req_dec_T noise (-1)) as [->|Hn].
  - rewrite species_init_zero in Ha. discriminate.
  - destruct (species_init_ok ty g noise age0 Hn) as (a' & Ha' & Hage & Ht & _).
    rewrite Ha in Ha'. injection Ha' as <-.
    apply WF_after_birth; [exact W | exact Hage | exact Ht|].
    apply out_of_bounds_false. exact Hb.
Qed.

Lemma create_animal_keeps_WF rnd ty i m b m' :
  WF m -> create_animal rnd ty i m = Ok (b, m') -> WF m'.
Proof.
  intros W H. unfold create_animal in H.
  apply bind_inv in H as (mx & m1 & Hg & H). apply get_inv in Hg as [-> ->].
  apply bind_inv in H as (x & m1 & Hx & H).
  assert (m1 = m) as ->.
  { unfold randrange in Hx. destruct (_ <=? _)%Z; [discriminate|]. injection Hx as _ <-.
    reflexivity. }
  apply bind_inv in H as (y & m1 & Hy & H).
  assert (m1 = m) as ->.
  { unfold randrange in Hy. destruct (_ <=? _)%Z; [discriminate|]. injection Hy as _ <-.
    reflexivity. }
  apply (create_baby_keeps_WF _ _ _ _ _ _ _ _ _ W H).
Qed.

Lemma Prey_model_init_WF rnd pc tc width height m :
  Prey_model_init rnd pc tc width height = Ok m -> WF m.
Proof.
  unfold Prey_model_init. intros H.
  match type of H with
  | match ?c with _ => _ end = _ => destruct c as [[[] m']|e] eqn:E
  end; [|discriminate].
  injection H as <-.
  apply bind_inv in E as ([] & m1 & H1 & E).
  apply bind_inv in E as ([] & m2 & H2 & E).
  assert (W1 : WF m1).
  { apply (for_each_indexed_keeps WF _ _ (fun i x m b m' W H => create_patch_keeps_WF rnd i x m b m' W H)
             _ _ _ _ H1).
    apply WF_empty_model. }
  assert (W2 : WF m2).
  { apply (for_each_keeps WF _ _ (fun x m b m' W H => create_animal_keeps_WF rnd Prey x m b m' W H)
             _ _ _ H2 W1). }
  apply (for_each_keeps WF _ _ (fun x m b m' W H => create_animal_keeps_WF rnd Tiger x m b m' W H)
           _ _ _ E W2).
Qed.

Lemma Prey_model_step_keeps_WF rnd m m' :
  WF m -> Prey_model_step rnd m = Ok (tt, m') -> WF m'.
Proof.
  intros W H. pose proof (Prey_model_step_safe False rnd m W) as Hs.
  unfold safe in Hs. rewrite H in Hs. apply Hs. intros [].
Qed.

Lemma reachable_WF m : reachable m -> WF m.
Proof.
  induction 1 as [rnd pc tc w h m H | rnd m m' _ IH H].
  - apply (Prey_model_init_WF _ _ _ _ _ _ H).
  - apply (Prey_model_step_keeps_WF rnd m m' IH H).
Qed.

(** ** What holds in every state that the model reaches *)

Lemma census_total m l :
  (forall u, u ∈ l -> exists a, objects m !! u = Some (OAnimal a)) ->
  (length (List.filter (has_type m Prey) l) +
   length (List.filter (has_type m Tiger) l))%nat = length l.
Proof.
  induction l as [|u l IH]; intros H; [reflexivity|].
  destruct (H u) as [a Ha]; [apply list_elem_of_here|].
  assert (IH' := IH (fun v Hv => H v (list_elem_of_further _ _ _ Hv))).
  assert (E : has_type m Prey u = true /\ has_type m Tiger u = false \/
              has_type m Prey u = false /\ has_type m Tiger u = true).
  { unfold has_type. rewrite Ha. destruct (type a); [left | right]; split;
      first [apply bool_decide_eq_true_2; reflexivity
            | apply bool_decide_eq_false_2; discriminate]. }
  cbn [List.filter]. destruct E as [[-> ->] | [-> ->]]; cbn [length]; lia.
Qed.

(** X18: a tick of a state that the model has reached, with no newborn whose
    normal variate is exactly -1, ends, or raises the exception of the space
    for a point out of bounds: [kill] finds the animal in the schedule and
    in the space, no target and no patch of the calendar is missing, and no
    division is by zero. *)
Theorem a_tick_fails_only_out_of_bounds rnd m :
  reachable m ->
  (forall key i, newborn_noise (agent_random rnd key) i <> -1) ->
  (exists m', Prey_model_step rnd m = Ok (tt, m')) \/
  Prey_model_step rnd m = Raise PointOutOfBounds.
Proof.
  intros Hm Hn.
  pose proof (Prey_model_step_safe True rnd m (reachable_WF m Hm) (fun _ => Hn)) as H.
  unfold safe in H. destruct (Prey_model_step rnd m) as [[[] m']|e].
  - left. exists m'. reflexivity.
  - right. destruct H as [-> | [_ H]]; [reflexivity|]. destruct H. exact I.
Qed.

Lemma a_tick_fails_only_out_of_bounds_witness :
  exists m,
    reachable m /\
    ((exists m', Prey_model_step example_tick m = Ok (tt, m')) \/
     Prey_model_step example_tick m = Raise PointOutOfBounds).
Proof.
  destruct example_reachable as (vp & vt & H0 & _).
  exists (example_m0 vp vt). split; [exact H0|].
  apply (a_tick_fails_only_out_of_bounds example_tick (example_m0 vp vt) H0).
  intros key i. cbn. lra.
Defined.

(** X19: in every state that the model reaches, the three counters are exact:
    [count] is the length of the schedule, [Prey_count] and [Tiger_count]
    are the numbers of the scheduled prey and tigers, and [count] is their
    sum. *)
Theorem the_counters_are_exact m :
  reachable m ->
  count m = Z.of_nat (length (schedule m)) /\
  Prey_count m = census m Prey /\
  Tiger_count m = census m Tiger /\
  count m = (Prey_count m + Tiger_count m)%Z.
Proof.
  intros Hm. pose proof (reachable_WF m Hm) as W.
  pose proof (wf_count m W) as Hc. pose proof (wf_Prey_count m W) as Hp.
  pose proof (wf_Tiger_count m W) as Ht.
  split; [exact Hc|]. split; [exact Hp|]. split; [exact Ht|].
  rewrite Hc, Hp, Ht. unfold census.
  rewrite <- (census_total m (schedule m)); [lia|].
  intros u Hu. destruct (wf_sched m W u Hu) as (a & p & Ha & _). exists a. exact Ha.
Qed.

Lemma the_counters_are_exact_witness :
  exists m,
    reachable m /\
    count m = Z.of_nat (length (schedule m)) /\
    Prey_count m = census m Prey /\
    Tiger_count m = census m Tiger /\
    count m = (Prey_count m + Tiger_count m)%Z.
Proof.
  destruct example_reachable as (vp & vt & _ & _ & H2).
  exists (example_m2 vp vt). split; [exact H2|].
  apply (the_counters_are_exact (example_m2 vp vt) H2).
Defined.

(** X20: in every state that the model reaches, no animal is twice in the
    schedule, no agent is twice in the space, and every uid of the schedule
    is an animal that has a position and is in the space. *)
Theorem scheduled_animals_are_placed m :
  reachable m ->
  NoDup (schedule m) /\ NoDup (agents (space m)) /\
  forall u, u ∈ schedule m ->
    exists a p, objects m !! u = Some (OAnimal a) /\ pos a = Some p /\
                u ∈ agents (space m).
Proof.
  intros Hm. pose proof (reachable_WF m Hm) as W.
  split; [exact (wf_sched_nodup m W)|]. split; [exact (wf_agents_nodup m W)|].
  exact (wf_sched m W).
Qed.

Lemma scheduled_animals_are_placed_witness :
  exists m,
    reachable m /\
    NoDup (schedule m) /\ NoDup (agents (space m)) /\
    forall u, u ∈ schedule m ->
      exists a p, objects m !! u = Some (OAnimal a) /\ pos a = Some p /\
                  u ∈ agents (space m).
Proof.
  destruct example_reachable as (vp & vt & _ & H1 & _).
  exists (example_m1 vp vt). split; [exact H1|].
  apply (scheduled_animals_are_placed (example_m1 vp vt) H1).
Defined.

(** X21: in every state that the model reaches, a patch has no grass or has
    exactly 1 of it, and only a patch of the type ['Grass'] has any: a rock
    never grows grass. *)
Theorem grass_is_all_or_nothing m u pt :
  reachable m ->
  objects m !! u = Some (OPatch pt) ->
  grass pt = 0 \/ (grass pt = 1 /\ patch_type pt = Grass).
Proof.
  intros Hm H. exact (wf_grass m (reachable_WF m Hm) u pt H).
Qed.

Lemma grass_is_all_or_nothing_witness :
  exists m,
    reachable m /\ objects m !! 1%nat = Some (OPatch example_rock) /\
    (grass example_rock = 0 \/
     (grass example_rock = 1 /\ patch_type example_rock = Grass)).
Proof.
  destruct example_reachable as (vp & vt & H0 & _).
  exists (example_m0 vp vt). split; [exact H0|]. split; [reflexivity|].
  apply (grass_is_all_or_nothing (example_m0 vp vt) 1%nat example_rock H0).
  reflexivity.
Defined.

(** X22: the diagnostic of lines 211-214 is never printed: its test
    [0 > x > 80 or 0 > y > 80] is false for every number, so that no state
    that the model reaches has it in its output. *)
Theorem out_of_bounds_is_never_printed m e :
  reachable m -> e ∈ out m -> is_oob_print e = false.
Proof.
  intros Hm He. pose proof (wf_log m (reachable_WF m Hm)) as H.
  rewrite Forall_forall in H. apply H. exact He.
Qed.

Lemma out_of_bounds_is_never_printed_witness :
  exists m,
    reachable m /\ Print_ate 4%nat 2%nat ∈ out m /\
    is_oob_print (Print_ate 4%nat 2%nat) = false.
Proof.
  destruct example_reachable as (vp & vt & _ & _ & H2).
  exists (example_m2 vp vt). split; [exact H2|].
  assert (He : Print_ate 4%nat 2%nat ∈ out (example_m2 vp vt)) by apply list_elem_of_here.
  split; [exact He|].
  apply (out_of_bounds_is_never_printed (example_m2 vp vt) _ H2 He).
Defined.

(** ** The constructor *)

Lemma randint_1_5 d : (1 <= randint 1 5 d <= 5)%Z.
Proof.
  unfold randint. pose proof (Z.mod_pos_bound (Z.of_nat d) (5 - 1 + 1)) as H. lia.
Qed.

Lemma randrange_inv n d m x m' :
  randrange n d m = Ok (x, m') ->
  m' = m /\ (0 < n)%Z /\ x = (Z.of_nat d `mod` n)%Z.
Proof.
  unfold randrange. destruct (n <=? 0)%Z eqn:E; [discriminate|].
  intros [= <- <-]. apply Z.leb_gt in E. auto.
Qed.

Lemma randrange_ok n d m :
  (0 < n)%Z -> randrange n d m = Ok ((Z.of_nat d `mod` n)%Z, m).
Proof.
  intros H. unfold randrange. apply Z.leb_gt in H. rewrite H. reflexivity.
Qed.

Lemma create_animal_inv rnd ty i m b m' :
  create_animal rnd ty i m = Ok (b, m') ->
  (0 < x_max (space m))%Z /\
  exists a,
    let x := (Z.of_nat (animal_x rnd i) `mod` x_max (space m))%Z in
    let y := (Z.of_nat (animal_y rnd i) `mod` x_max (space m))%Z in
    species_init ty (animal_gender rnd i) (animal_noise rnd i)
      (IZR (randint 1 5 (animal_age rnd i))) = Ok a /\
    out_of_bounds (space m) (IZR x, IZR y) = false /\
    m' = after_birth a (IZR x, IZR y) m.
Proof.
  intros H. unfold create_animal in H.
  apply bind_inv in H as (mx & m1 & Hg & H). apply get_inv in Hg as [-> ->].
  apply bind_inv in H as (x & m1 & Hx & H). apply randrange_inv in Hx as (-> & Hpos & ->).
  apply bind_inv in H as (y & m1 & Hy & H). apply randrange_inv in Hy as (-> & _ & ->).
  split; [exact Hpos|].
  apply create_baby_inv in H as (a & Ha & Hb & ->). exists a. cbv zeta. auto.
Qed.

Lemma create_animal_ok rnd ty i a m :
  (0 < x_max (space m))%Z ->
  let x := (Z.of_nat (animal_x rnd i) `mod` x_max (space m))%Z in
  let y := (Z.of_nat (animal_y rnd i) `mod` x_max (space m))%Z in
  species_init ty (animal_gender rnd i) (animal_noise rnd i)
    (IZR (randint 1 5 (animal_age rnd i))) = Ok a ->
  out_of_bounds (space m) (IZR x, IZR y) = false ->
  create_animal rnd ty i m = Ok (tt, after_birth a (IZR x, IZR y) m).
Proof.
  intros Hpos x y Ha Hb. unfold create_animal.
  run ltac:(reflexivity).
  run ltac:(apply randrange_ok; exact Hpos).
  run ltac:(apply randrange_ok; exact Hpos).
  apply create_baby_ok; assumption.
Qed.

Lemma create_baby_out x y age0 ty g noise a m :
  species_init ty g noise age0 = Ok a ->
  out_of_bounds (space m) (x, y) = true ->
  create_baby x y age0 ty g noise m = Raise PointOutOfBounds.
Proof.
  intros Hi Hb. unfold create_baby, species_init in *.
  destruct (bool_decide (ty = Prey)).
  all: erewrite bind_ok;
    [| run ltac:(apply new_uid_ok); run ltac:(rewrite Hi; reflexivity);
       run ltac:(reflexivity); run ltac:(reflexivity); reflexivity ].
  all: cbv beta; run ltac:(reflexivity).
  all: apply bind_raise; unfold place_agent; apply bind_raise; unfold torus_adj.
  all: run ltac:(reflexivity); model_simpl; rewrite Hb; reflexivity.
Qed.

(** *** The loops *)

Lemma for_each_ok {A} (I : Prey_model -> Prop) (body : A -> M unit) l :
  (forall x m, x ∈ l -> I m -> exists m', body x m = Ok (tt, m') /\ I m') ->
  forall m, I m -> exists m', for_each l body m = Ok (tt, m') /\ I m'.
Proof.
  induction l as [|x l IH]; intros Hb m Hm; cbn [for_each].
  - exists m. split; [reflexivity | exact Hm].
  - destruct (Hb x m (list_elem_of_here _ _) Hm) as (m1 & H1 & Hm1).
    destruct (IH (fun y m Hy => Hb y m (list_elem_of_further _ _ _ Hy)) m1 Hm1)
      as (m' & H & Hm').
    exists m'. split; [|exact Hm']. erewrite bind_ok; [exact H | exact H1].
Qed.

Lemma for_each_indexed_ok {A} (I : Prey_model -> Prop) (body : nat -> A -> M unit) l :
  (forall i x m, x ∈ l -> I m -> exists m', body i x m = Ok (tt, m') /\ I m') ->
  forall i m, I m -> exists m', for_each_indexed i l body m = Ok (tt, m') /\ I m'.
Proof.
  induction l as [|x l IH]; intros Hb i m Hm; cbn [for_each_indexed].
  - exists m. split; [reflexivity | exact Hm].
  - destruct (Hb i x m (list_elem_of_here _ _) Hm) as (m1 & H1 & Hm1).
    destruct (IH (fun j y m Hy => Hb j y m (list_elem_of_further _ _ _ Hy)) (S i) m1 Hm1)
      as (m' & H & Hm').
    exists m'. split; [|exact Hm']. erewrite bind_ok; [exact H | exact H1].
Qed.

Lemma in_range n x : x ∈ range n -> (0 <= x < n)%Z.
Proof.
  unfold range. intros H. apply list_elem_of_In in H. apply in_map_iff in H as (k & <- & Hk).
  apply in_seq in Hk. lia.
Qed.

Lemma in_grid w h xy : xy ∈ grid w h -> (0 <= fst xy < w)%Z /\ (0 <= snd xy < h)%Z.
Proof.
  unfold grid. intros H. apply list_elem_of_In in H.
  apply in_flat_map in H as (x & Hx & H). apply in_map_iff in H as (y & <- & Hy).
  cbn [fst snd]. split; apply in_range; apply list_elem_of_In; assumption.
Qed.

Lemma sized_in_bounds w h m x y :
  sized w h m -> (0 <= x <= w)%Z -> (0 <= y <= h)%Z ->
  out_of_bounds (space m) (IZR x, IZR y) = false.
Proof.
  intros [Ex Ey] Hx Hy. apply in_bounds. rewrite Ex, Ey.
  split; split; first [apply IZR_le | apply IZR_lt]; lia.
Qed.

Lemma sized_after_patch w h pt p m : sized w h m -> sized w h (after_patch pt p m).
Proof.
  intros [Ex Ey]. destruct (after_patch_fields pt p m) as (_ & _ & Hx & Hy & _).
  split; congruence.
Qed.

Lemma sized_after_birth w h a p m : sized w h m -> sized w h (after_birth a p m).
Proof.
  intros [Ex Ey]. destruct (after_birth_fields a p m) as (_ & _ & Hx & Hy & _).
  split; congruence.
Qed.

Lemma patches_ok rnd w h i m :
  sized w h m ->
  exists m', for_each_indexed i (grid w h) (create_patch rnd) m = Ok (tt, m') /\
             sized w h m'.
Proof.
  intros Hm. apply (for_each_indexed_ok (sized w h)); [|exact Hm].
  clear. intros i xy m Hxy Hm. apply in_grid in Hxy as [Hx Hy].
  eexists. split.
  - apply create_patch_ok. apply (sized_in_bounds w h); [exact Hm | lia | lia].
  - apply sized_after_patch. exact Hm.
Qed.

Lemma animals_ok rnd ty w h l m :
  (0 <= w <= h)%Z -> (forall i, animal_noise rnd i <> -1) ->
  sized w h m ->
  exists m', for_each l (create_animal rnd ty) m = Ok (tt, m') /\ sized w h m'.
Proof.
  intros Hwh Hn Hm. apply (for_each_ok (sized w h)); [|exact Hm].
  clear m Hm. intros i m _ Hm.
  destruct (species_init_ok ty (animal_gender rnd i) (animal_noise rnd i)
              (IZR (randint 1 5 (animal_age rnd i))) (Hn i)) as (a & Ha & _).
  assert (Hpos : (0 < x_max (space m))%Z) by (destruct Hm as [-> _]; lia).
  pose proof (Z.mod_pos_bound (Z.of_nat (animal_x rnd i)) _ Hpos) as Hx.
  pose proof (Z.mod_pos_bound (Z.of_nat (animal_y rnd i)) _ Hpos) as Hy.
  eexists. split.
  - apply (create_animal_ok rnd ty i a m Hpos Ha).
    destruct Hm as [Ex Ey]. apply (sized_in_bounds w h); [split; assumption | lia | lia].
  - apply sized_after_birth. exact Hm.
Qed.

(** *** What the loops make *)

Lemma tally_refl m : tally 0 0 m m.
Proof. unfold tally. repeat split; lia. Qed.

Lemma patches_tally rnd l : forall i m b m',
  for_each_indexed i l (create_patch rnd) m = Ok (b, m') -> tally 0 0 m m'.
Proof.
  induction l as [|x l IH]; intros i m b m' H; cbn [for_each_indexed] in H.
  - injection H as _ <-. apply tally_refl.
  - apply bind_inv in H as (b1 & m1 & H1 & H). apply IH in H.
    apply create_patch_inv in H1 as [_ ->].
    destruct (after_patch_fields (Patch_init (patch_random rnd i))
                (IZR (fst x), IZR (snd x)) m)
      as (_ & _ & _ & _ & _ & _ & Eg & Ec & Ep & Et & _ & Es).
    cbv zeta in *. unfold tally in *. destruct H as (Hp & Ht & Hc & Hs & Hg).
    rewrite Hp, Ht, Hc, Hs, Hg, Eg, Ec, Ep, Et, Es. repeat split; lia.
Qed.

Lemma animals_tally rnd ty l : forall m b m',
  for_each l (create_animal rnd ty) m = Ok (b, m') ->
  tally (if bool_decide (ty = Prey) then Z.of_nat (length l) else 0)
        (if bool_decide (ty = Prey) then 0 else Z.of_nat (length l)) m m'.
Proof.
  induction l as [|x l IH]; intros m b m' H; cbn [for_each] in H.
  - injection H as _ <-. destruct (bool_decide _); apply tally_refl.
  - apply bind_inv in H as (b1 & m1 & H1 & H). apply IH in H.
    apply create_animal_inv in H1 as (_ & a & Ha & _ & ->).
    apply species_init_inv in Ha as (Hty & _).
    match goal with
    | H : tally _ _ (after_birth a ?p m) _ |- _ =>
        destruct (after_birth_fields a p m)
          as (_ & _ & _ & _ & _ & _ & Eg & Ec & Ep & Et & _ & Es)
    end.
    cbv zeta in *. rewrite Hty in Ep, Et. unfold tally in *.
    destruct H as (Hp & Ht & Hc & Hs & Hg).
    rewrite Hp, Ht, Hc, Hs, Hg, Eg, Ec, Ep, Et, Es. cbn [length].
    destruct (bool_decide (ty = Prey)); repeat split; lia.
Qed.

Lemma Prey_model_init_inv rnd pc tc w h m :
  Prey_model_init rnd pc tc w h = Ok m ->
  exists b1 b2 b3 m1 m2,
    for_each_indexed 0 (grid w h) (create_patch rnd) (empty_model w h) = Ok (b1, m1) /\
    for_each (seq 0 (Z.to_nat pc)) (create_animal rnd Prey) m1 = Ok (b2, m2) /\
    for_each (seq (Z.to_nat pc) (Z.to_nat tc)) (create_animal rnd Tiger) m2 = Ok (b3, m).
Proof.
  unfold Prey_model_init. intros H.
  match type of H with
  | match ?c with _ => _ end = _ => destruct c as [[b3 m']|e] eqn:E
  end; [|discriminate].
  injection H as <-.
  apply bind_inv in E as (b1 & m1 & H1 & E).
  apply bind_inv in E as (b2 & m2 & H2 & E).
  exists b1, b2, b3, m1, m2. auto.
Qed.

Lemma fresh_animals_kept rnd ty w h l : forall m b m',
  sized w h m ->
  (forall u a, objects m !! u = Some (OAnimal a) -> fresh_animal w a) ->
  for_each l (create_animal rnd ty) m = Ok (b, m') ->
  sized w h m' /\
  forall u a, objects m' !! u = Some (OAnimal a) -> fresh_animal w a.
Proof.
  induction l as [|i l IH]; intros m b m' Hs Hm H; cbn [for_each] in H.
  - injection H as _ <-. auto.
  - apply bind_inv in H as (b1 & m1 & H1 & H).
    apply (IH m1 b m'); [| |exact H]; clear H IH;
      apply create_animal_inv in H1 as (Hpos & a & Ha & _ & ->).
    + apply sized_after_birth. exact Hs.
    + intros u a' Hu.
      match type of Hu with
      | objects (after_birth a ?p m) !! _ = _ =>
          destruct (after_birth_fields a p m) as (_ & _ & _ & _ & Eo & _)
      end.
      cbv zeta in Eo. rewrite Eo in Hu.
      destruct (decide (u = S (last_uid m))) as [->|Hne].
      * rewrite lookup_insert_eq in Hu. injection Hu as <-.
        apply species_init_inv in Ha as (_ & Hp & Hal & _ & Ht & Hage).
        destruct Hs as [Ex _]. rewrite Ex in *.
        pose proof (Z.mod_pos_bound (Z.of_nat (animal_x rnd i)) _ Hpos).
        pose proof (Z.mod_pos_bound (Z.of_nat (animal_y rnd i)) _ Hpos).
        unfold fresh_animal. cbn.
        split; [exact Hal|]. split; [exact Hp|]. split; [exact Ht|]. split.
        -- eexists. split; [exact Hage | apply randint_1_5].
        -- eexists _, _. split; [reflexivity|]. lia.
      * rewrite lookup_insert_ne in Hu by congruence. exact (Hm u a' Hu).
Qed.

Lemma patches_no_animal rnd w h l : forall i m b m',
  sized w h m ->
  (forall u a, objects m !! u = Some (OAnimal a) -> False) ->
  for_each_indexed i l (create_patch rnd) m = Ok (b, m') ->
  sized w h m' /\
  forall u a, objects m' !! u = Some (OAnimal a) -> False.
Proof.
  induction l as [|x l IH]; intros i m b m' Hs Hm H; cbn [for_each_indexed] in H.
  - injection H as _ <-. auto.
  - apply bind_inv in H as (b1 & m1 & H1 & H).
    apply (IH (S i) m1 b m'); [| |exact H]; clear H IH;
      apply create_patch_inv in H1 as [_ ->].
    + apply sized_after_patch. exact Hs.
    + intros u a Hu.
      match type of Hu with
      | objects (after_patch ?pt ?p m) !! _ = _ =>
          destruct (after_patch_fields pt p m) as (_ & _ & _ & _ & Eo & _)
      end.
      cbv zeta in Eo. rewrite Eo in Hu.
      destruct (decide (u = S (last_uid m))) as [->|Hne].
      * rewrite lookup_insert_eq in Hu. discriminate.
      * rewrite lookup_insert_ne in Hu by congruence. exact (Hm u a Hu).
Qed.

Lemma sized_empty_model w h : sized w h (empty_model w h).
Proof. split; reflexivity. Qed.

(** X23: when the constructor returns, [Prey_count] and [Tiger_count] are the
    two numbers that it was called with (0 for a negative one), [count] is
    their sum, no tick has been counted and no grass waits to regrow. *)
Theorem the_constructor_counts rnd pc tc w h m :
  Prey_model_init rnd pc tc w h = Ok m ->
  Prey_count m = Z.max 0 pc /\ Tiger_count m = Z.max 0 tc /\
  count m = (Z.max 0 pc + Z.max 0 tc)%Z /\
  length (schedule m) = (Z.to_nat pc + Z.to_nat tc)%nat /\
  step_num m = 0%Z /\ grass_ticks m = ∅.
Proof.
  intros H. pose proof (Prey_model_init_WF _ _ _ _ _ _ H) as W.
  apply Prey_model_init_inv in H as (b1 & b2 & b3 & m1 & m2 & H1 & H2 & H3).
  apply patches_tally in H1. apply animals_tally in H2, H3.
  rewrite length_seq in H2, H3.
  rewrite bool_decide_eq_true_2 in H2 by reflexivity.
  rewrite bool_decide_eq_false_2 in H3 by discriminate.
  unfold tally in *. cbn [empty_model Prey_count Tiger_count count step_num grass_ticks] in H1.
  destruct H1 as (P1 & T1 & C1 & S1 & G1), H2 as (P2 & T2 & C2 & S2 & G2),
    H3 as (P3 & T3 & C3 & S3 & G3).
  assert (Hc : count m = (Z.max 0 pc + Z.max 0 tc)%Z) by lia.
  split; [lia|]. split; [lia|]. split; [exact Hc|].
  split; [pose proof (wf_count m W); lia|].
  split; [lia|]. congruence.
Qed.

Lemma the_constructor_counts_witness :
  exists m,
    Prey_model_init example_init 1 2 1 1 = Ok m /\
    Prey_count m = Z.max 0 1 /\ Tiger_count m = Z.max 0 2 /\
    count m = (Z.max 0 1 + Z.max 0 2)%Z /\
    length (schedule m) = (Z.to_nat 1 + Z.to_nat 2)%nat /\
    step_num m = 0%Z /\ grass_ticks m = ∅.
Proof.
  destruct example_constructed as (vp & vt & _ & _ & H).
  eexists. split; [exact H|].
  apply (the_constructor_counts example_init 1 2 1 1 _ H).
Defined.

(** X24: every animal that the constructor has made is alive, is not pregnant,
    has no target and an age from 1 to 5, and stands on a point with whole
    coordinates that are both between 0 and the width: the y coordinate is
    drawn from the width too (line 350), so that in a world that is higher
    than wide no animal starts above the width. *)
Theorem the_first_animals rnd pc tc w h m u a :
  Prey_model_init rnd pc tc w h = Ok m ->
  objects m !! u = Some (OAnimal a) ->
  alive a = true /\ pregs a = 0 /\ target a = None /\
  (exists k, age a = IZR k /\ (1 <= k <= 5)%Z) /\
  exists x y, pos a = Some (IZR x, IZR y) /\ (0 <= x <= w)%Z /\ (0 <= y <= w)%Z.
Proof.
  intros H Ha.
  apply Prey_model_init_inv in H as (b1 & b2 & b3 & m1 & m2 & H1 & H2 & H3).
  apply (patches_no_animal rnd w h) in H1 as [S1 N1];
    [|apply sized_empty_model | intros v b Hv; cbn in Hv; rewrite lookup_empty in Hv;
                                discriminate].
  apply (fresh_animals_kept rnd Prey w h) in H2 as [S2 F2];
    [|exact S1 | intros v b Hv; destruct (N1 v b Hv)].
  apply (fresh_animals_kept rnd Tiger w h) in H3 as [S3 F3]; [|exact S2 | exact F2].
  exact (F3 u a Ha).
Qed.

Lemma the_first_animals_witness :
  exists m a,
    Prey_model_init example_init 1 2 1 1 = Ok m /\
    objects m !! 3%nat = Some (OAnimal a) /\
    alive a = true /\ pregs a = 0 /\ target a = None /\
    (exists k, age a = IZR k /\ (1 <= k <= 5)%Z) /\
    exists x y, pos a = Some (IZR x, IZR y) /\ (0 <= x <= 1)%Z /\ (0 <= y <= 1)%Z.
Proof.
  destruct example_constructed as (vp & vt & _ & _ & H).
  eexists _, _. split; [exact H|]. split; [reflexivity|].
  apply (the_first_animals example_init 1 2 1 1 _ 3%nat _ H). reflexivity.
Defined.

(** X25: the constructor returns a model for every world that is at least as
    high as wide, when no animal's normal variate is exactly -1. *)
Theorem the_constructor_returns rnd pc tc w h :
  (0 <= w <= h)%Z -> (forall i, animal_noise rnd i <> -1) ->
  exists m, Prey_model_init rnd pc tc w h = Ok m.
Proof.
  intros Hwh Hn.
  destruct (patches_ok rnd w h 0 (empty_model w h) (sized_empty_model w h))
    as (m1 & H1 & S1).
  destruct (animals_ok rnd Prey w h (seq 0 (Z.to_nat pc)) m1 Hwh Hn S1) as (m2 & H2 & S2).
  destruct (animals_ok rnd Tiger w h (seq (Z.to_nat pc) (Z.to_nat tc)) m2 Hwh Hn S2)
    as (m3 & H3 & _).
  exists m3. unfold Prey_model_init.
  erewrite bind_ok by exact H1. erewrite bind_ok by exact H2. rewrite H3. reflexivity.
Qed.

Lemma the_constructor_returns_witness :
  exists m, Prey_model_init example_init 3 2 4 7 = Ok m.
Proof.
  apply (the_constructor_returns example_init 3 2 4 7); [lia|].
  intros i. cbn. lra.
Defined.

(** X26: in a world that is wider than high the constructor can fail: when the
    y coordinate that is drawn for the first prey, a number below
    [width + 1], is above the height, [place_agent] raises the exception for
    a point out of bounds. *)
Theorem the_constructor_fails_in_a_wide_world rnd pc tc w h :
  (0 <= w)%Z -> (0 < pc)%Z -> animal_noise rnd 0 <> -1 ->
  (h < Z.of_nat (animal_y rnd 0) `mod` (w + 1))%Z ->
  Prey_model_init rnd pc tc w h = Raise PointOutOfBounds.
Proof.
  intros Hw Hpc Hn Hy.
  destruct (patches_ok rnd w h 0 (empty_model w h) (sized_empty_model w h))
    as (m1 & H1 & [Ex Ey]).
  destruct (species_init_ok Prey (animal_gender rnd 0) (animal_noise rnd 0)
              (IZR (randint 1 5 (animal_age rnd 0))) Hn) as (a & Ha & _).
  unfold Prey_model_init. erewrite bind_ok by exact H1.
  destruct (Z.to_nat pc) as [|n] eqn:En; [lia|].
  cbn [seq for_each]. erewrite bind_raise; [reflexivity|].
  apply bind_raise. unfold create_animal.
  run ltac:(reflexivity).
  run ltac:(apply randrange_ok; lia).
  run ltac:(apply randrange_ok; lia).
  apply (create_baby_out _ _ _ _ _ _ a); [exact Ha|].
  unfold out_of_bounds. rewrite Ex, Ey.
  rewrite (Rleb_true (IZR (h + 1)) (IZR (Z.of_nat (animal_y rnd 0) `mod` (w + 1)))).
  - rewrite !orb_true_r. reflexivity.
  - apply IZR_le. lia.
Qed.

Lemma the_constructor_fails_in_a_wide_world_witness :
  Prey_model_init
    (mkInitRandom (fun _ => 0) (fun _ => 0%nat) (fun _ => 1%nat) (fun _ => 0%nat)
       (fun _ => Male) (fun _ => 0)) 1 0 1 0 = Raise PointOutOfBounds.
Proof.
  apply the_constructor_fails_in_a_wide_world.
  - lia.
  - lia.
  - cbn. lra.
  - reflexivity.
Defined.

(** ** A birth *)

Lemma out_of_bounds_sized s s' p :
  x_max s' = x_max s -> y_max s' = y_max s -> out_of_bounds s' p = out_of_bounds s p.
Proof. intros Ex Ey. destruct p. unfold out_of_bounds. rewrite Ex, Ey. reflexivity. Qed.

Lemma births rnd self a p ty l : forall m,
  objects m !! self = Some (OAnimal a) -> pos a = Some p ->
  out_of_bounds (space m) p = false -> (self <= last_uid m)%nat ->
  (forall i, newborn_noise rnd i <> -1) ->
  exists m',
    for_each l (fun x => do p <- the_pos self;
                         create_baby (fst p) (snd p) 0 ty
                           (newborn_gender rnd x) (newborn_noise rnd x)) m
    = Ok (tt, m') /\
    born ty p (length l) m m'.
Proof.
  induction l as [|i l IH]; intros m Ha Hp Hb Hle Hn; cbn [for_each length].
  - exists m. split; [reflexivity|]. unfold born. rewrite Nat.add_0_r, Z.add_0_r, app_nil_r.
    repeat split; try reflexivity. intros u Hu. lia.
  - destruct (species_init_ok ty (newborn_gender rnd i) (newborn_noise rnd i) 0 (Hn i))
      as (b & Hi & _).
    pose proof (species_init_inv _ _ _ _ _ Hi) as (Hty & Hpr & Hal & _ & _ & Hage).
    destruct p as [x y].
    destruct (after_birth_fields b (x, y) m)
      as (Es & _ & Ex & Ey & Eo & El & _ & Ec & _ & _ & _ & _).
    cbv zeta in *.
    set (m1 := after_birth b (x, y) m) in *.
    assert (Hne : self <> S (last_uid m)) by lia.
    destruct (IH m1) as (m' & H & B); try assumption.
    { rewrite Eo, lookup_insert_ne by congruence. exact Ha. }
    { rewrite (out_of_bounds_sized (space m)); assumption. }
    { lia. }
    exists m'. split.
    + run ltac:(run ltac:(eapply the_pos_ok; [exact Ha | exact Hp]); cbn [fst snd];
                apply (create_baby_ok _ _ _ _ _ _ b); [exact Hi | exact Hb]).
      exact H.
    + destruct B as (Bl & Bc & Bs & Bx & By & Bo & Bn). unfold born.
      rewrite Bl, Bc, Bs, Bx, By, El, Ec, Es, Ex, Ey.
      split; [lia|]. split; [lia|].
      split; [rewrite <- app_assoc; reflexivity|].
      split; [reflexivity|]. split; [reflexivity|]. split.
      * intros u Hu. rewrite Bo by lia. rewrite Eo, lookup_insert_ne by lia. reflexivity.
      * intros u Hu. destruct (decide (u = S (last_uid m))) as [->|Hu'].
        -- exists (set_pos (Some (x, y)) b). rewrite Bo by lia.
           rewrite Eo, lookup_insert_eq. cbn.
           repeat split; first [assumption | reflexivity].
        -- apply Bn. lia.
Qed.

(** X17: a birth (lines 183-195): an animal whose pregnancy reaches 1 in this
    tick, and that stands inside of the space, ends its pregnancy and gives
    birth to [round((noise + 1) * BABIES_PER_..._PREGS)] animals of its
    species.  They get the next uids, are appended to the schedule in this
    order, and are placed at the position of their mother with the age 0;
    [count] grows by their number. *)
Theorem a_birth rnd self a p m :
  objects m !! self = Some (OAnimal a) -> pos a = Some p ->
  out_of_bounds (space m) p = false -> (self <= last_uid m)%nat ->
  pregs a <> 0 -> 1 <= pregs a + AGE_T ->
  (forall i, newborn_noise rnd i <> -1) ->
  exists m' a',
    carry_and_bear rnd self m = Ok (tt, m') /\
    objects m' !! self = Some (OAnimal a') /\ pregs a' = 0 /\
    food a' = food a - FOOD_PER_TICK / 3 /\
    count m' = (count m + Z.of_nat (litter rnd (type a)))%Z /\
    schedule m' = schedule m ++ seq (S (last_uid m)) (litter rnd (type a)) /\
    forall u, (last_uid m < u <= last_uid m + litter rnd (type a))%nat ->
      exists b, objects m' !! u = Some (OAnimal b) /\ type b = type a /\
                pos b = Some p /\ age b = 0 /\ pregs b = 0 /\ alive b = true.
Proof.
  intros Ha Hp Hb Hle Hpr H1 Hn.
  set (a3 := set_pregs 0 (set_pregs (pregs a + AGE_T) (set_food (food a - FOOD_PER_TICK / 3) a))).
  set (m3 := set_out (Print_birth self (py_round ((babies_noise rnd + 1) *
                 (if bool_decide (type a = Tiger) then BABIES_PER_TIGER_PREGS
                  else BABIES_PER_PREY_PREGS))) :: Canvas_animal_update self :: out m)
               (with_obj self (OAnimal a3) m)).
  assert (Ha3 : objects m3 !! self = Some (OAnimal a3)).
  { unfold m3. model_simpl. apply lookup_insert_eq. }
  destruct (births rnd self a3 p (type a) (seq 0 (litter rnd (type a))) m3 Ha3 Hp Hb Hle Hn)
    as (m' & H & B).
  rewrite length_seq in B. destruct B as (Bl & Bc & Bs & _ & _ & Bo & Bn).
  exists m', a3. split.
  - unfold carry_and_bear. run_the_animal.
    rewrite (Reqb_false (pregs a) 0 Hpr). cbn [negb when].
    run_update. run_update. run_the_animal. rewrite with_obj_with_obj.
    cbn [pregs set_pregs set_food]. rewrite (Rleb_true 1 (pregs a + AGE_T) H1). cbn [when].
    run_update. run_emit. run_emit. rewrite with_obj_with_obj.
    exact H.
  - split; [rewrite Bo by exact Hle; exact Ha3|].
    split; [reflexivity|]. split; [reflexivity|].
    split; [exact Bc|]. split; [exact Bs|]. exact Bn.
Qed.

Lemma a_birth_witness :
  exists m' a',
    carry_and_bear example_step 1%nat birth_world = Ok (tt, m') /\
    objects m' !! 1%nat = Some (OAnimal a') /\ pregs a' = 0 /\
    food a' = food birth_mother - FOOD_PER_TICK / 3 /\
    count m' = (count birth_world + Z.of_nat (litter example_step (type birth_mother)))%Z /\
    schedule m' = schedule birth_world ++
                  seq (S (last_uid birth_world)) (litter example_step (type birth_mother)) /\
    forall u, (last_uid birth_world < u <=
               last_uid birth_world + litter example_step (type birth_mother))%nat ->
      exists b, objects m' !! u = Some (OAnimal b) /\ type b = type birth_mother /\
                pos b = Some (0, 0) /\ age b = 0 /\ pregs b = 0 /\ alive b = true.
Proof.
  apply (a_birth example_step 1%nat birth_mother (0, 0) birth_world).
  - reflexivity.
  - reflexivity.
  - apply in_bounds. cbn. lra.
  - cbn. lia.
  - cbn. lra.
  - unfold AGE_T. cbn. lra.
  - intros i. cbn. lra.
Defined.
